(** * Hand-Writing: navigation state, pronunciation, insight cache, retry
      wrapper and PCM decoding of the handwriting-practice front end.

    The development embeds, definition by definition,
    - [services/geminiService.ts] ([withRetry], [getCharacterInsights],
      [generateSpeech], [decodeBase64], [decodeAudioData]),
    - [services/ttsService.ts] ([playCloudTTS]),
    - the [App] component of [App.tsx] (module [App], and the voice
      selection and board size effects),
    - the earlier [App] component kept next to [components/WritingBoard.tsx]
      (module [BoardApp]), and
    - the writer life cycle of [components/WritingBoard.tsx] (module
      [Board]).

    JavaScript strings are sequences of UTF-16 code units, numbers that the
    code only uses as integers are [Z], the insight cache is a finite map,
    and asynchronous handlers are resumption trees ([prog]) that the
    component interleaves: a handler runs until it suspends, and its
    continuation runs later against whatever the state has become. The
    insight service is followed both call by call and, in module [Gemini],
    with calls that overlap around their [await]. *)

From Stdlib Require Import ZArith List Bool Lia QArith String Ascii.
From stdpp Require Import base option list gmap.
Import ListNotations.
Local Open Scope Z_scope.

(* ===================================================================== *)
(** ** JavaScript strings *)
(* ===================================================================== *)

(** A string is the list of its UTF-16 code units; [split("")] yields
    exactly these units, one string of length 1 each. *)
Abbreviation jsstring := (list N).

(** Code units of an ASCII literal. *)
Fixpoint js (s : string) : jsstring :=
  match s with
  | EmptyString => []
  | String c r => N_of_ascii c :: js r
  end.

(** JavaScript truthiness of a string: non-empty. *)
Definition truthy (s : jsstring) : bool :=
  match s with [] => false | _ :: _ => true end.

(** ECMAScript [WhiteSpace] and [LineTerminator] code points: what the
    regular expression class [\s] matches and what [trim] strips. *)
Definition is_space (c : N) : bool :=
  ((9 <=? c) && (c <=? 13) ||
   (c =? 32) || (c =? 160) || (c =? 5760) ||
   ((8192 <=? c) && (c <=? 8202)) ||
   (c =? 8232) || (c =? 8233) || (c =? 8239) || (c =? 8287) ||
   (c =? 12288) || (c =? 65279))%N.

(** [/\S/.test(c)] on a one-unit string. *)
Definition non_space (c : N) : bool := negb (is_space c).

Fixpoint trimStart (s : jsstring) : jsstring :=
  match s with
  | [] => []
  | c :: r => if is_space c then trimStart r else s
  end.

(** [String.prototype.trim]. *)
Definition trim (s : jsstring) : jsstring :=
  rev (trimStart (rev (trimStart s))).

Fixpoint startsWith (p s : jsstring) : bool :=
  match p, s with
  | [], _ => true
  | _ :: _, [] => false
  | a :: p', b :: s' => (a =? b)%N && startsWith p' s'
  end.

(** [String.prototype.includes]. *)
Fixpoint includes (needle hay : jsstring) : bool :=
  startsWith needle hay ||
  match hay with
  | [] => false
  | _ :: r => includes needle r
  end.

(* ===================================================================== *)
(** ** services/geminiService.ts: the retry wrapper *)
(* ===================================================================== *)

(** A thrown [Error]: its [name] and its optional [message]. *)
Record error := Error {
  name : jsstring;
  message : option jsstring
}.

(** How a promise settles. *)
Inductive outcome (T : Type) : Type :=
| Resolved (v : T)
| Rejected (e : error).
Arguments Resolved {T} v.
Arguments Rejected {T} e.

(** [error.message?.includes('429')] *)
Definition rate_limited (e : error) : bool :=
  match message e with
  | Some m => includes (js "429") m
  | None => false
  end.

(** What [withRetry] does, in order: each invocation of the operation
    with the way it settled, and each [setTimeout] delay awaited. *)
Inductive retry_event (T : Type) : Type :=
| Attempt (o : outcome T)
| Sleep (ms : Z).
Arguments Attempt {T} o.
Arguments Sleep {T} ms.

Section Retry.
Context {W T : Type}.

(** What the rest of the program does to the world while the wrapper
    waits for its timer. *)
Variable idle : Z -> W -> W.

(** [withRetry], by recursion on a bound for the number of retries left;
    [withRetry] below supplies [Z.to_nat retries], which the test
    [retries > 0] never lets run out ([withRetry_unfold]). *)
Fixpoint withRetry_rec (bound : nat) (fn : W -> outcome T * W)
    (retries delay : Z) (w : W) : outcome T * W * list (retry_event T) :=
  match fn w with
  | (Resolved v, w1) => (Resolved v, w1, [Attempt (Resolved v)])
  | (Rejected e, w1) =>
      if (0 <? retries) && rate_limited e then
        match bound with
        | S bound' =>
            let '(r, w2, log) :=
              withRetry_rec bound' fn (retries - 1) (delay * 2) (idle delay w1) in
            (r, w2, Attempt (Rejected e) :: Sleep delay :: log)
        | O => (Rejected e, w1, [Attempt (Rejected e)])
        end
      else (Rejected e, w1, [Attempt (Rejected e)])
  end.

Definition withRetry (fn : W -> outcome T * W) (retries delay : Z) (w : W)
    : outcome T * W * list (retry_event T) :=
  withRetry_rec (Z.to_nat retries) fn retries delay w.

(** The defaults of the signature: [retries = 1, delay = 1000]. *)
Definition withRetry_default (fn : W -> outcome T * W) (w : W) :=
  withRetry fn 1 1000 w.

End Retry.

(** Number of invocations and the delays in a log. *)
Fixpoint attempts {T} (log : list (retry_event T)) : Z :=
  match log with
  | [] => 0
  | Attempt _ :: r => 1 + attempts r
  | Sleep _ :: r => attempts r
  end.

Fixpoint delays {T} (log : list (retry_event T)) : list Z :=
  match log with
  | [] => []
  | Attempt _ :: r => delays r
  | Sleep ms :: r => ms :: delays r
  end.

(** [d, 2d, 4d, ...], [k] terms. *)
Fixpoint doubling (d : Z) (k : nat) : list Z :=
  match k with
  | O => []
  | S k' => d :: doubling (d * 2) k'
  end.

(** The log of [k] rate-limited failures [es], each followed by its
    delay, and a last attempt [o]. *)
Fixpoint retry_log {T} (d : Z) (es : list error) (o : outcome T)
    : list (retry_event T) :=
  match es with
  | [] => [Attempt o]
  | e :: es' => Attempt (Rejected e) :: Sleep d :: retry_log (d * 2) es' o
  end.

(** A mock operation that plays a script of outcomes, one per call. *)
Definition scripted {T} (dflt : outcome T) (w : list (outcome T))
    : outcome T * list (outcome T) :=
  match w with
  | [] => (dflt, [])
  | o :: r => (o, r)
  end.

(* ===================================================================== *)
(** ** services/geminiService.ts: character insights and their cache *)
(* ===================================================================== *)

(** [types.ts]: only [char] is mandatory in the interface. *)
Record CharacterInfo := {
  char : jsstring;
  meaning : option jsstring;
  pinyin : option jsstring;
  zhuyin : option jsstring;
  radical : option jsstring;
  strokeCount : option Z;
  examples : option (list jsstring)
}.

(** What [generateContent] resolves to: [response.text] may be undefined. *)
Record response := { text : option jsstring }.

(** What the service does besides returning. *)
Inductive svc_event :=
| NetCall (c : jsstring)
| Wait (ms : Z)
| ConsoleError (label : jsstring).

(** The build-time constant [process.env.API_KEY]. *)
Class ProcessEnv := { API_KEY : option jsstring }.

(** What the service relies on: the remote endpoint behind
    [ai.models.generateContent] acting on a network world [W], whatever
    else happens during a back-off delay, and [JSON.parse] followed by the
    cast to [CharacterInfo] ([None] is a [SyntaxError]; a text that parses
    is taken to be an object here, the other JSON values are in [Gemini]
    below). *)
Class Remote (W : Type) := {
  generateContent : jsstring -> W -> outcome response * W;
  during_delay : Z -> W -> W;
  JSON_parse : jsstring -> option CharacterInfo
}.

(** [!process.env.API_KEY] is false. *)
Definition has_key {pe : ProcessEnv} : bool :=
  match API_KEY with
  | Some k => truthy k
  | None => false
  end.

(** Module state of the service: the cache object and the network. *)
Record Service (W : Type) := {
  insightsCache : gmap jsstring CharacterInfo;
  net : W
}.
Arguments insightsCache {W} s.
Arguments net {W} s.

Definition svc_log (c : jsstring) (log : list (retry_event response))
    : list svc_event :=
  map (fun ev => match ev with
                 | Attempt _ => NetCall c
                 | Sleep ms => Wait ms
                 end) log.

Section Insights.
Context {W : Type} {pe : ProcessEnv} {rm : Remote W}.

Definition insights_label : jsstring := js "Gemini Insights Error:".

(** One call followed from its first line to its [return] with its
    requests and waits, and no other call in between; calls that overlap
    are in [Gemini] below. *)
Definition getCharacterInsights (c : jsstring) (s : Service W)
    : option CharacterInfo * Service W * list svc_event :=
  if negb has_key || negb (truthy c) then (None, s, [])
  else
    match insightsCache s !! c with
    | Some cached => (Some cached, s, [])
    | None =>
        let '(r, w, log) :=
          withRetry_default during_delay (generateContent c) (net s) in
        let failed :=
          (None, {| insightsCache := insightsCache s; net := w |},
           svc_log c log ++ [ConsoleError insights_label]) in
        match r with
        | Rejected _ => failed
        | Resolved resp =>
            match text resp with
            | None => failed
            | Some t =>
                match JSON_parse (trim t) with
                | None => failed
                | Some result =>
                    (Some result,
                     {| insightsCache := <[c := result]> (insightsCache s);
                        net := w |},
                     svc_log c log)
                end
            end
        end
    end.

(** A session: [getCharacterInsights] called for each character in turn,
    each call after the one before it has returned. *)
Fixpoint session (cs : list jsstring) (s : Service W) : Service W :=
  match cs with
  | [] => s
  | c :: r => session r (getCharacterInsights c s).1.2
  end.

End Insights.

(** Number of remote requests among the events of a call. *)
Fixpoint net_calls (evs : list svc_event) : nat :=
  match evs with
  | [] => O
  | NetCall _ :: r => S (net_calls r)
  | _ :: r => net_calls r
  end.

(* ===================================================================== *)
(** ** services/geminiService.ts: the PCM decoder *)
(* ===================================================================== *)

(** A [Float32Array] cell. Every value the decoder stores is an int16
    over [32768], which single precision represents exactly; reading past
    the end of the [Int16Array] gives [undefined], hence [NaN]. *)
Inductive f32 :=
| Val (q : Q)
| NaN.

(** One little-endian 16-bit two's-complement sample. *)
Definition int16 (lo hi : Byte.byte) : Z :=
  let u := Z.of_N (Byte.to_N lo) + 256 * Z.of_N (Byte.to_N hi) in
  if u <? 32768 then u else u - 65536.

(** [new Int16Array(data.buffer, data.byteOffset, data.byteLength / 2)]:
    the length is truncated, so a trailing odd byte is not part of the view. *)
Fixpoint Int16Array (data : list Byte.byte) : list Z :=
  match data with
  | lo :: hi :: r => int16 lo hi :: Int16Array r
  | _ => []
  end.

(** [dataInt16[j] / 32768.0] *)
Definition normalized (dataInt16 : list Z) (j : nat) : f32 :=
  match dataInt16 !! j with
  | Some x => Val (x # 32768)
  | None => NaN
  end.

(** The inner loop [for (i = 0; i < frameCount; i++) channelData[i] = ...],
    [iters] iterations from [i]; a typed array ignores a write past its end,
    as list insertion does. *)
Fixpoint fill_channel (dataInt16 : list Z) (numChannels channel : nat)
    (i iters : nat) (channelData : list f32) : list f32 :=
  match iters with
  | O => channelData
  | S n =>
      fill_channel dataInt16 numChannels channel (S i) n
        (<[i := normalized dataInt16 (i * numChannels + channel)]> channelData)
  end.

(** [decodeAudioData(data, ctx, sampleRate, numChannels)]; the result is
    the list of the buffer's channels. [frameCount] is the quotient
    [dataInt16.length / numChannels]: [createBuffer] truncates it to the
    buffer length, while the loop test [i < frameCount] lets [i] run up to
    its ceiling. [ctx.createBuffer] is taken to accept its arguments and to
    return zero-filled channels. *)
Definition decodeAudioData (data : list Byte.byte) (sampleRate : Z)
    (numChannels : Z) : list (list f32) :=
  let dataInt16 := Int16Array data in
  let len := Z.of_nat (length dataInt16) in
  let frames := Z.to_nat (len / numChannels) in
  let iters := Z.to_nat ((len + numChannels - 1) / numChannels) in
  let nc := Z.to_nat numChannels in
  map (fun channel =>
         fill_channel dataInt16 nc channel 0 iters (replicate frames (Val 0)))
      (seq 0 nc).

(** Every cell is an exact value in [[-1, 1)]. *)
Definition in_unit_range (x : f32) : Prop :=
  match x with
  | Val q => (-1 <= q)%Q /\ (q < 1)%Q
  | NaN => False
  end.

(* ===================================================================== *)
(** ** The component runtime: state, updates, suspended handlers *)
(* ===================================================================== *)

(** The [useState] cells the handlers below read or write. *)
Record State := {
  inputText : jsstring;
  activeText : jsstring;
  currentIndex : Z;
  insights : option CharacterInfo;
  isLoadingInsights : bool;
  isSpeaking : bool;
  isSimplified : bool;
  selectedVoice : option jsstring;
  useCloudVoice : bool
}.

(** [DEFAULT_TEXT]: U+6C38 U+548C U+4E5D U+5E74. *)
Definition DEFAULT_TEXT : jsstring := [27704; 21644; 20061; 24180]%N.

(** The first render. *)
Definition initial : State := {|
  inputText := DEFAULT_TEXT;
  activeText := DEFAULT_TEXT;
  currentIndex := 0;
  insights := None;
  isLoadingInsights := false;
  isSpeaking := false;
  isSimplified := false;
  selectedVoice := None;
  useCloudVoice := false
|}.

(** [activeText.split("").filter((c) => /\S/.test(c))] *)
Definition characters (s : State) : list N :=
  List.filter non_space (activeText s).

(** [a[i]] for a JavaScript number [i]: [undefined] outside the array. *)
Definition at_index {A} (a : list A) (i : Z) : option A :=
  if i <? 0 then None else a !! Z.to_nat i.

(** [characters[currentIndex] || ""] *)
Definition currentChar (s : State) : jsstring :=
  match at_index (characters s) (currentIndex s) with
  | Some c => [c]
  | None => []
  end.

(** A state setter called with a value or with an updater function, or an
    output to the user or the console. *)
Inductive action :=
| SetInputText (v : jsstring)
| UpdInputText (f : jsstring -> jsstring)
| SetActiveText (v : jsstring)
| UpdActiveText (f : jsstring -> jsstring)
| SetCurrentIndex (v : Z)
| UpdCurrentIndex (f : Z -> Z)
| SetInsights (v : option CharacterInfo)
| SetIsLoadingInsights (v : bool)
| SetIsSpeaking (v : bool)
| SetIsSimplified (v : bool)
| SetSelectedVoice (v : option jsstring)
| SetUseCloudVoice (v : bool)
| Alert
| ConsoleLog (label : jsstring).

Definition perform (a : action) (s : State) : State :=
  match a with
  | SetInputText v =>
      {| inputText := v; activeText := activeText s;
         currentIndex := currentIndex s; insights := insights s;
         isLoadingInsights := isLoadingInsights s; isSpeaking := isSpeaking s;
         isSimplified := isSimplified s; selectedVoice := selectedVoice s;
         useCloudVoice := useCloudVoice s |}
  | UpdInputText f =>
      {| inputText := f (inputText s); activeText := activeText s;
         currentIndex := currentIndex s; insights := insights s;
         isLoadingInsights := isLoadingInsights s; isSpeaking := isSpeaking s;
         isSimplified := isSimplified s; selectedVoice := selectedVoice s;
         useCloudVoice := useCloudVoice s |}
  | SetActiveText v =>
      {| inputText := inputText s; activeText := v;
         currentIndex := currentIndex s; insights := insights s;
         isLoadingInsights := isLoadingInsights s; isSpeaking := isSpeaking s;
         isSimplified := isSimplified s; selectedVoice := selectedVoice s;
         useCloudVoice := useCloudVoice s |}
  | UpdActiveText f =>
      {| inputText := inputText s; activeText := f (activeText s);
         currentIndex := currentIndex s; insights := insights s;
         isLoadingInsights := isLoadingInsights s; isSpeaking := isSpeaking s;
         isSimplified := isSimplified s; selectedVoice := selectedVoice s;
         useCloudVoice := useCloudVoice s |}
  | SetCurrentIndex v =>
      {| inputText := inputText s; activeText := activeText s;
         currentIndex := v; insights := insights s;
         isLoadingInsights := isLoadingInsights s; isSpeaking := isSpeaking s;
         isSimplified := isSimplified s; selectedVoice := selectedVoice s;
         useCloudVoice := useCloudVoice s |}
  | UpdCurrentIndex f =>
      {| inputText := inputText s; activeText := activeText s;
         currentIndex := f (currentIndex s); insights := insights s;
         isLoadingInsights := isLoadingInsights s; isSpeaking := isSpeaking s;
         isSimplified := isSimplified s; selectedVoice := selectedVoice s;
         useCloudVoice := useCloudVoice s |}
  | SetInsights v =>
      {| inputText := inputText s; activeText := activeText s;
         currentIndex := currentIndex s; insights := v;
         isLoadingInsights := isLoadingInsights s; isSpeaking := isSpeaking s;
         isSimplified := isSimplified s; selectedVoice := selectedVoice s;
         useCloudVoice := useCloudVoice s |}
  | SetIsLoadingInsights v =>
      {| inputText := inputText s; activeText := activeText s;
         currentIndex := currentIndex s; insights := insights s;
         isLoadingInsights := v; isSpeaking := isSpeaking s;
         isSimplified := isSimplified s; selectedVoice := selectedVoice s;
         useCloudVoice := useCloudVoice s |}
  | SetIsSpeaking v =>
      {| inputText := inputText s; activeText := activeText s;
         currentIndex := currentIndex s; insights := insights s;
         isLoadingInsights := isLoadingInsights s; isSpeaking := v;
         isSimplified := isSimplified s; selectedVoice := selectedVoice s;
         useCloudVoice := useCloudVoice s |}
  | SetIsSimplified v =>
      {| inputText := inputText s; activeText := activeText s;
         currentIndex := currentIndex s; insights := insights s;
         isLoadingInsights := isLoadingInsights s; isSpeaking := isSpeaking s;
         isSimplified := v; selectedVoice := selectedVoice s;
         useCloudVoice := useCloudVoice s |}
  | SetUseCloudVoice v =>
      {| inputText := inputText s; activeText := activeText s;
         currentIndex := currentIndex s; insights := insights s;
         isLoadingInsights := isLoadingInsights s; isSpeaking := isSpeaking s;
         isSimplified := isSimplified s; selectedVoice := selectedVoice s;
         useCloudVoice := v |}
  | SetSelectedVoice v =>
      {| inputText := inputText s; activeText := activeText s;
         currentIndex := currentIndex s; insights := insights s;
         isLoadingInsights := isLoadingInsights s; isSpeaking := isSpeaking s;
         isSimplified := isSimplified s; selectedVoice := v;
         useCloudVoice := useCloudVoice s |}
  | Alert | ConsoleLog _ => s
  end.

(** The body of the POST request of [playCloudTTS]. *)
Record tts_request := {
  req_key : jsstring;
  req_text : jsstring;
  req_languageCode : jsstring;
  req_voiceName : jsstring;
  req_speakingRate : Q
}.

(** A [SpeechSynthesisUtterance]. *)
Record utterance := {
  utt_text : jsstring;
  utt_lang : jsstring;
  utt_voice : option jsstring;
  utt_rate : Q
}.

(** How handing an utterance to the speech engine ends: the call itself
    throws, or one of the two callbacks [onend], [onerror] fires. *)
Inductive playback :=
| Threw (e : error)
| Ended
| Errored.

(** The points where a handler hands control to the platform and is
    resumed with the platform's answer. *)
Inductive query :=
| GetCharacterInsights (c : jsstring)
| Timeout (ms : Z)
| Fetch (r : tts_request)
| ErrorJson
| DataJson
| AudioPlay (audioContent : jsstring)
| Speak (u : utterance)
| GenerateSpeech (c : jsstring)
| OpenAudioContext
| DecodeBase64 (b64 : jsstring)
| DecodeAudioData (data : list Byte.byte)
| StartSource.

Definition answer (q : query) : Type :=
  match q with
  | GetCharacterInsights _ => option CharacterInfo
  | Timeout _ => unit
  | Fetch _ => outcome bool
  | ErrorJson => outcome (option jsstring)
  | DataJson => outcome jsstring
  | AudioPlay _ => outcome unit
  | Speak _ => playback
  | GenerateSpeech _ => option jsstring
  | OpenAudioContext => outcome unit
  | DecodeBase64 _ => outcome (list Byte.byte)
  | DecodeAudioData _ => outcome unit
  | StartSource => outcome unit
  end.

(** A handler from the point it is called or resumed: it performs state
    updates and outputs, and either finishes or suspends on a query with
    the rest of its body as continuation. *)
Inductive prog :=
| Done
| Do (a : action) (k : prog)
| Ask (q : query) (k : answer q -> prog).

(** A handler waiting for the platform. *)
Inductive task :=
| Suspended (q : query) (k : answer q -> prog).

(** The mounted component: its state and the handlers in flight. *)
Record Sys := {
  ui : State;
  tasks : list task
}.

(** Run a handler until it finishes or suspends. *)
Fixpoint exec (p : prog) (s : Sys) : Sys :=
  match p with
  | Done => s
  | Do a k => exec k {| ui := perform a (ui s); tasks := tasks s |}
  | Ask q k => {| ui := ui s; tasks := tasks s ++ [Suspended q k] |}
  end.

(** An environment answers the [n]-th question of a handler. *)
Definition oracle := nat -> forall q : query, answer q.

(** All the actions of a handler run to its end under an environment. *)
Fixpoint actions_of (env : oracle) (n : nat) (p : prog) : list action :=
  match p with
  | Done => []
  | Do a k => a :: actions_of env n k
  | Ask q k => actions_of env (S n) (k (env n q))
  end.

(** How many times a run clears, and how many times it sets, the
    in-flight flag. *)
Fixpoint clears (l : list action) : nat :=
  match l with
  | [] => O
  | SetIsSpeaking false :: r => S (clears r)
  | _ :: r => clears r
  end.

Fixpoint raises (l : list action) : nat :=
  match l with
  | [] => O
  | SetIsSpeaking true :: r => S (raises r)
  | _ :: r => raises r
  end.

Definition perform_all (l : list action) (s : State) : State :=
  fold_left (fun s a => perform a s) l s.

(** Resume the [i]-th suspended handler with the platform's answer. *)
Definition resume (i : nat) (env : forall q : query, answer q) (s : Sys)
    : option (prog * Sys) :=
  match tasks s !! i with
  | Some (Suspended q k) =>
      Some (k (env q), {| ui := ui s; tasks := delete i (tasks s) |})
  | None => None
  end.

Fixpoint same_string (a b : jsstring) : bool :=
  match a, b with
  | [], [] => true
  | x :: a', y :: b' => (x =? y)%N && same_string a' b'
  | _, _ => false
  end.

(* ===================================================================== *)
(** ** services/ttsService.ts *)
(* ===================================================================== *)

(** The message of the error thrown without a key. *)
Definition no_key_message : jsstring :=
  [35531; 35373; 23450; 32; 65; 80; 73; 32; 75; 101; 121; 32; 20197; 20351;
   29992; 38642; 31471; 35486; 38899]%N.

(** The fallback message of a failed request. *)
Definition request_failed_message : jsstring :=
  [71; 111; 111; 103; 108; 101; 32; 84; 84; 83; 32; 35531; 27714; 22833;
   25943]%N.

(** [playCloudTTS(text, apiKey, isSimplified)], with the caller's
    continuation on the way the returned promise settles. The promise built
    around [audio.play()] is returned from inside the [try] without being
    awaited there, so its rejection bypasses the [catch] and its log. *)
Definition playCloudTTS (text apiKey : jsstring) (simplified : bool)
    (k : outcome unit -> prog) : prog :=
  if negb (truthy apiKey) then
    k (Rejected (Error (js "Error") (Some no_key_message)))
  else
    let rethrow e := Do (ConsoleLog (js "Cloud TTS Error:")) (k (Rejected e)) in
    let voiceName :=
      if simplified then js "cmn-CN-Wavenet-A" else js "cmn-TW-Wavenet-A" in
    let languageCode := if simplified then js "cmn-CN" else js "cmn-TW" in
    Ask (Fetch {| req_key := apiKey; req_text := text;
                  req_languageCode := languageCode; req_voiceName := voiceName;
                  req_speakingRate := 85 # 100 |})
      (fun r : outcome bool =>
         match r with
         | Rejected e => rethrow e
         | Resolved ok =>
             if negb ok then
               Ask ErrorJson (fun j : outcome (option jsstring) =>
                 match j with
                 | Rejected e => rethrow e
                 | Resolved m =>
                     rethrow (Error (js "Error")
                       (Some match m with
                             | Some msg =>
                                 if truthy msg then msg
                                 else request_failed_message
                             | None => request_failed_message
                             end))
                 end)
             else
               Ask DataJson (fun j : outcome jsstring =>
                 match j with
                 | Rejected e => rethrow e
                 | Resolved audioContent =>
                     Ask (AudioPlay audioContent) (fun p : outcome unit =>
                       match p with
                       | Resolved _ => k (Resolved tt)
                       | Rejected e => k (Rejected e)
                       end)
                 end)
         end).

(* ===================================================================== *)
(** ** App.tsx *)
(* ===================================================================== *)

(** The two [OpenCC.Converter] instances. *)
Class OpenCC := {
  cn2tw : jsstring -> jsstring;
  tw2cn : jsstring -> jsstring
}.

(** What the user or the platform does to the mounted component. *)
Inductive event :=
| Typing (v : jsstring)
| ClickUpdate
| ClickPrev
| ClickNext
| ClickChar (idx : nat)
| ClickSimplified (target : bool)
| ClickVoice (v : jsstring)
| ClickCloud
| ClickPlay
| QuizComplete
| Settle (i : nat) (env : forall q : query, answer q).

Module App.
Section Handlers.
Context {cc : OpenCC} {pe : ProcessEnv}.

(** Each handler is the closure of one render: [r] is the state that
    render saw. Updater functions passed to a setter receive the state at
    the time the update is applied instead. *)

Definition fetchInsights (r : State) (c : jsstring) : prog :=
  if negb (truthy c) then Done
  else
    Do (SetIsLoadingInsights true)
      (Ask (GetCharacterInsights c) (fun data : option CharacterInfo =>
         Do (SetInsights data) (Do (SetIsLoadingInsights false) Done))).

Definition handleUpdateText (r : State) : prog :=
  if truthy (trim (inputText r)) then
    let convertedText :=
      if isSimplified r then tw2cn (inputText r) else cn2tw (inputText r) in
    Do (SetActiveText convertedText)
      (Do (SetInputText convertedText) (Do (SetCurrentIndex 0) Done))
  else Done.

Definition handleToggleSimplified (targetSimplified : bool) : prog :=
  let converter := if targetSimplified then tw2cn else cn2tw in
  Do (SetIsSimplified targetSimplified)
    (Do (UpdActiveText converter) (Do (UpdInputText converter) Done)).

Definition handleNext (r : State) : prog :=
  if currentIndex r <? Z.of_nat (length (characters r)) - 1 then
    Do (UpdCurrentIndex (fun prev => prev + 1)) Done
  else Done.

Definition handlePrev (r : State) : prog :=
  if 0 <? currentIndex r then
    Do (UpdCurrentIndex (fun prev => prev - 1)) Done
  else Done.

Definition playPronunciation (r : State) : prog :=
  if isSpeaking r || negb (truthy (currentChar r)) then Done
  else
    Do (SetIsSpeaking true)
      (let caught :=
         Do (ConsoleLog (js "Pronunciation Error:"))
           (Do (SetIsSpeaking false) Done) in
       if useCloudVoice r then
         let apiKey := match API_KEY with Some k => k | None => [] end in
         if negb (truthy apiKey) then
           Do Alert (Do (SetIsSpeaking false) Done)
         else
           playCloudTTS (currentChar r) apiKey (isSimplified r)
             (fun o =>
                match o with
                | Resolved _ => Do (SetIsSpeaking false) Done
                | Rejected _ => caught
                end)
       else
         Ask (Speak {| utt_text := currentChar r;
                       utt_lang := if isSimplified r then js "zh-CN"
                                   else js "zh-TW";
                       utt_voice := selectedVoice r;
                       utt_rate := 6 # 10 |})
           (fun p : playback =>
              match p with
              | Threw _ => caught
              | Ended => Do (SetIsSpeaking false) Done
              | Errored =>
                  Do (ConsoleLog (js "TTS Error:"))
                    (Do (SetIsSpeaking false) Done)
              end)).

(** [onComplete] of the quiz board: the advance is deferred by 1200 ms and
    is the [handleNext] of the render that scheduled it. *)
Definition onQuizComplete (r : State) : prog :=
  if currentIndex r <? Z.of_nat (length (characters r)) - 1 then
    Ask (Timeout 1200) (fun _ : unit => handleNext r)
  else Done.

(** After the updates of a handler are applied the component renders
    again, and [useEffect(..., [currentChar, fetchInsights])] runs when the
    current character or [isSimplified] (the dependency of [fetchInsights])
    has changed since the previous render. *)
Definition rerender (before : State) (s : Sys) : Sys :=
  if negb (same_string (currentChar before) (currentChar (ui s)))
     || negb (Bool.eqb (isSimplified before) (isSimplified (ui s)))
  then exec (fetchInsights (ui s) (currentChar (ui s))) s
  else s.

Definition dispatch (p : prog) (s : Sys) : Sys :=
  rerender (ui s) (exec p s).

(** The component after mounting: the effect has run once. *)
Definition mounted : Sys :=
  exec (fetchInsights initial (currentChar initial))
    {| ui := initial; tasks := [] |}.

(** One event. Clicks run the handler of the current render. *)
Definition step (e : event) (s : Sys) : Sys :=
  match e with
  | Typing v => dispatch (Do (SetInputText v) Done) s
  | ClickUpdate => dispatch (handleUpdateText (ui s)) s
  | ClickPrev => dispatch (handlePrev (ui s)) s
  | ClickNext => dispatch (handleNext (ui s)) s
  | ClickChar idx =>
      if (idx <? length (characters (ui s)))%nat then
        dispatch (Do (SetCurrentIndex (Z.of_nat idx)) Done) s
      else s
  | ClickSimplified target => dispatch (handleToggleSimplified target) s
  | ClickVoice v => dispatch (Do (SetSelectedVoice (Some v)) Done) s
  | ClickCloud =>
      dispatch (Do (SetUseCloudVoice (negb (useCloudVoice (ui s)))) Done) s
  | ClickPlay => dispatch (playPronunciation (ui s)) s
  | QuizComplete => dispatch (onQuizComplete (ui s)) s
  | Settle i env =>
      match resume i env s with
      | Some (p, s') => dispatch p s'
      | None => s
      end
  end.

Definition run (es : list event) (s : Sys) : Sys :=
  fold_left (fun s e => step e s) es s.

End Handlers.
End App.

(* ===================================================================== *)
(** ** The [App] component kept with components/WritingBoard.tsx *)
(* ===================================================================== *)

Module BoardApp.

Definition fetchInsights (r : State) (c : jsstring) : prog :=
  if negb (truthy c) then Done
  else
    Do (SetIsLoadingInsights true)
      (Ask (GetCharacterInsights c) (fun data : option CharacterInfo =>
         Do (SetInsights data) (Do (SetIsLoadingInsights false) Done))).

Definition handleUpdateText (r : State) : prog :=
  if truthy (trim (inputText r)) then
    Do (SetActiveText (inputText r)) (Do (SetCurrentIndex 0) Done)
  else Done.

Definition handleNext (r : State) : prog :=
  if currentIndex r <? Z.of_nat (length (characters r)) - 1 then
    Do (UpdCurrentIndex (fun prev => prev + 1)) Done
  else Done.

Definition handlePrev (r : State) : prog :=
  if 0 <? currentIndex r then
    Do (UpdCurrentIndex (fun prev => prev - 1)) Done
  else Done.

(** The audio context is created on first use and resumed when suspended
    ([OpenAudioContext]); the payload is decoded ([DecodeBase64], then
    [DecodeAudioData] at 24000 Hz, one channel) and played from a buffer
    source whose [onended] clears the flag. *)
Definition playPronunciation (r : State) : prog :=
  if isSpeaking r || negb (truthy (currentChar r)) then Done
  else
    Do (SetIsSpeaking true)
      (let caught :=
         Do (ConsoleLog (js "Speech playback error:"))
           (Do (SetIsSpeaking false) Done) in
       let silent :=
         Do (ConsoleLog (js "No audio data received from API"))
           (Do (SetIsSpeaking false) Done) in
       Ask (GenerateSpeech (currentChar r)) (fun base64Audio : option jsstring =>
         match base64Audio with
         | None => silent
         | Some b64 =>
             if negb (truthy b64) then silent
             else
               Ask OpenAudioContext (fun c : outcome unit =>
                 match c with
                 | Rejected _ => caught
                 | Resolved _ =>
                     Ask (DecodeBase64 b64) (fun d : outcome (list Byte.byte) =>
                       match d with
                       | Rejected _ => caught
                       | Resolved audioData =>
                           Ask (DecodeAudioData audioData) (fun b : outcome unit =>
                             match b with
                             | Rejected _ => caught
                             | Resolved _ =>
                                 Ask StartSource (fun p : outcome unit =>
                                   match p with
                                   | Rejected _ => caught
                                   | Resolved _ =>
                                       Do (SetIsSpeaking false) Done
                                   end)
                             end)
                       end)
                 end)
         end)).

Definition onQuizComplete (r : State) : prog :=
  if currentIndex r <? Z.of_nat (length (characters r)) - 1 then
    Ask (Timeout 1200) (fun _ : unit => handleNext r)
  else Done.

(** [useEffect(..., [currentChar, fetchInsights])] with a [fetchInsights]
    that never changes. *)
Definition rerender (before : State) (s : Sys) : Sys :=
  if negb (same_string (currentChar before) (currentChar (ui s)))
  then exec (fetchInsights (ui s) (currentChar (ui s))) s
  else s.

Definition dispatch (p : prog) (s : Sys) : Sys :=
  rerender (ui s) (exec p s).

Definition mounted : Sys :=
  exec (fetchInsights initial (currentChar initial))
    {| ui := initial; tasks := [] |}.

(** This version has no script, voice or backend controls. *)
Definition step (e : event) (s : Sys) : Sys :=
  match e with
  | Typing v => dispatch (Do (SetInputText v) Done) s
  | ClickUpdate => dispatch (handleUpdateText (ui s)) s
  | ClickPrev => dispatch (handlePrev (ui s)) s
  | ClickNext => dispatch (handleNext (ui s)) s
  | ClickChar idx =>
      if (idx <? length (characters (ui s)))%nat then
        dispatch (Do (SetCurrentIndex (Z.of_nat idx)) Done) s
      else s
  | ClickSimplified _ | ClickVoice _ | ClickCloud => s
  | ClickPlay => dispatch (playPronunciation (ui s)) s
  | QuizComplete => dispatch (onQuizComplete (ui s)) s
  | Settle i env =>
      match resume i env s with
      | Some (p, s') => dispatch p s'
      | None => s
      end
  end.

Definition run (es : list event) (s : Sys) : Sys :=
  fold_left (fun s e => step e s) es s.

End BoardApp.

(* ===================================================================== *)
(** ** Vocabulary of the statements *)
(* ===================================================================== *)

(** An input that is empty or made of white space only. *)
Definition blank (s : jsstring) : bool := forallb is_space s.

(** The navigation invariant of a non-empty sequence. *)
Definition in_bounds (s : State) : Prop :=
  0 <= currentIndex s < Z.of_nat (length (characters s)).

(** The displayed insight, when there is one, is about the active
    character. *)
Definition insight_matches_active (s : State) : Prop :=
  match insights s with
  | Some info => char info = currentChar s
  | None => True
  end.

(** The suspended tail of [fetchInsights(c)]. *)
Definition fetch_task (c : jsstring) : task :=
  Suspended (GetCharacterInsights c) (fun data : option CharacterInfo =>
    Do (SetInsights data) (Do (SetIsLoadingInsights false) Done)).

(** The queries a pronunciation request waits on. *)
Definition speech_query (q : query) : bool :=
  match q with
  | GetCharacterInsights _ | Timeout _ => false
  | _ => true
  end.

(** A handler that never writes the in-flight flag and never waits on a
    pronunciation query. *)
Fixpoint idle (p : prog) : Prop :=
  match p with
  | Done => True
  | Do (SetIsSpeaking _) _ => False
  | Do _ k => idle k
  | Ask q k => speech_query q = false /\ forall a, idle (k a)
  end.

(** The rest of a dispatched pronunciation request: whatever the platform
    answers, it waits on pronunciation queries only, never raises the flag,
    and clears it once, after which it does nothing more about it. *)
Fixpoint settles (p : prog) : Prop :=
  match p with
  | Done => False
  | Do (SetIsSpeaking true) _ => False
  | Do (SetIsSpeaking false) k => idle k
  | Do _ k => settles k
  | Ask q k => speech_query q = true /\ forall a, settles (k a)
  end.

Definition task_ok (t : task) : Prop :=
  match t with
  | Suspended q k =>
      if speech_query q then forall a, settles (k a) else forall a, idle (k a)
  end.

(** Number of pronunciation requests in flight. *)
Fixpoint speech_in_flight (ts : list task) : nat :=
  match ts with
  | [] => O
  | Suspended q _ :: r =>
      if speech_query q then S (speech_in_flight r) else speech_in_flight r
  end.

(** The mutual-exclusion invariant of the mounted component. *)
Definition exclusive (s : Sys) : Prop :=
  Forall task_ok (tasks s) /\
  speech_in_flight (tasks s) = if isSpeaking (ui s) then 1%nat else 0%nat.

(** The request a pronunciation of the active character starts with. In
    [App.tsx] it is the [fetch] of [playCloudTTS] on the cloud branch,
    which needs a key, and the utterance handed to
    [speechSynthesis.speak] otherwise; without a key the cloud branch has no
    request. In the earlier [App] it is the call of [generateSpeech]. *)
Definition cloud_request (apiKey text : jsstring) (simplified : bool) : query :=
  Fetch {| req_key := apiKey; req_text := text;
           req_languageCode := if simplified then js "cmn-CN" else js "cmn-TW";
           req_voiceName := if simplified then js "cmn-CN-Wavenet-A"
                            else js "cmn-TW-Wavenet-A";
           req_speakingRate := 85 # 100 |}.

Definition local_request (r : State) : query :=
  Speak {| utt_text := currentChar r;
           utt_lang := if isSimplified r then js "zh-CN" else js "zh-TW";
           utt_voice := selectedVoice r;
           utt_rate := 6 # 10 |}.

Definition App_request {pe : ProcessEnv} (r : State) : option query :=
  if useCloudVoice r then
    match API_KEY with
    | Some k =>
        if truthy k then Some (cloud_request k (currentChar r) (isSimplified r))
        else None
    | None => None
    end
  else Some (local_request r).

Definition BoardApp_request (r : State) : option query :=
  Some (GenerateSpeech (currentChar r)).

(** Pressing the button in [s] dispatches [q]: the handler raises the
    flag and then waits on [q], and whatever the answer the rest settles;
    after the press the flag is up and [q], with the rest of the handler,
    has joined the handlers in flight, where it is the one pronunciation
    request. *)
Definition dispatches (play : State -> prog) (press : Sys -> Sys) (q : query)
    (s : Sys) : Prop :=
  speech_query q = true /\
  exists k : answer q -> prog,
    play (ui s) = Do (SetIsSpeaking true) (Ask q k) /\
    (forall a, settles (k a)) /\
    press s = {| ui := perform (SetIsSpeaking true) (ui s);
                 tasks := tasks s ++ [Suspended q k] |} /\
    isSpeaking (ui (press s)) = true /\
    speech_in_flight (tasks (press s)) = 1%nat.

(** Pressing the button in [s] only tells the user that the key is
    missing: flag up, alert, flag down, and the component is as before. *)
Definition refuses (play : State -> prog) (press : Sys -> Sys) (s : Sys)
    : Prop :=
  play (ui s) = Do (SetIsSpeaking true) (Do Alert (Do (SetIsSpeaking false) Done))
  /\ press s = s.

(** What the flag guarantees about [playPronunciation] in a state [s]:
    at most one request is in flight, and none exactly when the flag is
    down; with the flag up or no active character the handler does nothing
    and pressing the button changes nothing; otherwise the press dispatches
    the request for the active character, or, where there is none to make,
    refuses. *)
Definition play_guarded (play : State -> prog) (request : State -> option query)
    (press : Sys -> Sys) (s : Sys) : Prop :=
  (speech_in_flight (tasks s) <= 1)%nat /\
  (isSpeaking (ui s) = false <-> speech_in_flight (tasks s) = 0%nat) /\
  (isSpeaking (ui s) = true \/ currentChar (ui s) = [] ->
   play (ui s) = Done /\ press s = s) /\
  (isSpeaking (ui s) = false -> currentChar (ui s) <> [] ->
   match request (ui s) with
   | Some q => dispatches play press q s
   | None => refuses play press s
   end).

(** *** Fixtures for the examples *)

(** A one-entry fragment of the conversion tables: U+6C49 and U+6F22. *)
Definition sample_converters : OpenCC := {|
  cn2tw := map (fun c => if (c =? 27721)%N then 28450%N else c);
  tw2cn := map (fun c => if (c =? 28450)%N then 27721%N else c)
|}.

Definition with_key : ProcessEnv := {| API_KEY := Some (js "k") |}.
Definition without_key : ProcessEnv := {| API_KEY := None |}.

(** A platform on which every request succeeds with an empty payload. *)
Definition obliging : forall q : query, answer q :=
  fun q =>
    match q with
    | GetCharacterInsights _ => None
    | Timeout _ => tt
    | Fetch _ => Resolved true
    | ErrorJson => Resolved None
    | DataJson => Resolved []
    | AudioPlay _ => Resolved tt
    | Speak _ => Ended
    | GenerateSpeech _ => None
    | OpenAudioContext => Resolved tt
    | DecodeBase64 _ => Resolved []
    | DecodeAudioData _ => Resolved tt
    | StartSource => Resolved tt
    end.

(** The same platform, answering an insight request with [data]. *)
Definition insight_arrives (data : option CharacterInfo)
    : forall q : query, answer q :=
  fun q =>
    match q with
    | GetCharacterInsights _ => data
    | q' => obliging q'
    end.

Definition info_for (c : jsstring) (m : jsstring) : CharacterInfo := {|
  char := c; meaning := Some m; pinyin := Some (js "-");
  zhuyin := Some (js "-"); radical := None; strokeCount := None;
  examples := None
|}.

(** The document [{"char":"\u6c38"}]: an object with none of [meaning],
    [pinyin], [zhuyin]. *)
Definition bare_document : jsstring :=
  [123; 34; 99; 104; 97; 114; 34; 58; 34; 27704; 34; 125]%N.

Definition bare_info : CharacterInfo := {|
  char := [27704]%N; meaning := None; pinyin := None; zhuyin := None;
  radical := None; strokeCount := None; examples := None
|}.

(* ===================================================================== *)
(** ** services/geminiService.ts: speech synthesis and base64 *)
(* ===================================================================== *)

(** The part of a speech response that [generateSpeech] reads:
    [response.candidates?.[0]?.content?.parts], and in each part
    [inlineData?.data]. *)
Record inline_data := { data : option jsstring }.
Record part := { inlineData : option inline_data }.
Record content := { parts : option (list part) }.
Record candidate := { candidate_content : option content }.
Record speech_response := { candidates : option (list candidate) }.

(** The remote endpoint for speech and what else happens during a delay. *)
Class SpeechRemote (W : Type) := {
  generateSpeechContent : jsstring -> W -> outcome speech_response * W;
  during_speech_delay : Z -> W -> W
}.

Record SpeechService (W : Type) := {
  speechCache : gmap jsstring jsstring;
  speech_net : W
}.
Arguments speechCache {W} s.
Arguments speech_net {W} s.

Inductive speech_event :=
| SpeechCall (t : jsstring)
| SpeechWait (ms : Z)
| SpeechError
| SpeechWarn.

Definition speech_log (t : jsstring) (log : list (retry_event speech_response))
    : list speech_event :=
  map (fun ev => match ev with
                 | Attempt _ => SpeechCall t
                 | Sleep ms => SpeechWait ms
                 end) log.

(** [part.inlineData?.data], when truthy. *)
Definition audio_of (p : part) : option jsstring :=
  match inlineData p with
  | Some i =>
      match data i with
      | Some d => if truthy d then Some d else None
      | None => None
      end
  | None => None
  end.

(** The [for] loop over the parts: the first part that carries data. *)
Fixpoint first_audio (ps : list part) : option jsstring :=
  match ps with
  | [] => None
  | p :: r =>
      match audio_of p with
      | Some d => Some d
      | None => first_audio r
      end
  end.

(** [response.candidates?.[0]?.content?.parts] *)
Definition response_parts (r : speech_response) : option (list part) :=
  match candidates r with
  | Some (c :: _) =>
      match candidate_content c with
      | Some ct => parts ct
      | None => None
      end
  | _ => None
  end.

Section Speech.
Context {W : Type} {pe : ProcessEnv} {sr : SpeechRemote W}.

Definition generateSpeech (t : jsstring) (s : SpeechService W)
    : option jsstring * SpeechService W * list speech_event :=
  if negb has_key || negb (truthy t) then (None, s, [])
  else
    let miss :=
      let '(r, w, log) :=
        withRetry_default during_speech_delay (generateSpeechContent t)
          (speech_net s) in
      let s' := {| speechCache := speechCache s; speech_net := w |} in
      match r with
      | Rejected e =>
          (None, s',
           speech_log t log ++ SpeechError ::
             (if rate_limited e then [SpeechWarn] else []))
      | Resolved resp =>
          match response_parts resp with
          | Some ps =>
              match first_audio ps with
              | Some d =>
                  (Some d,
                   {| speechCache := <[t := d]> (speechCache s);
                      speech_net := w |},
                   speech_log t log)
              | None => (None, s', speech_log t log)
              end
          | None => (None, s', speech_log t log)
          end
      end in
    match speechCache s !! t with
    | Some cached => if truthy cached then (Some cached, s, []) else miss
    | None => miss
    end.

Fixpoint speech_session (ts : list jsstring) (s : SpeechService W)
    : SpeechService W :=
  match ts with
  | [] => s
  | t :: r => speech_session r (generateSpeech t s).1.2
  end.

End Speech.

Fixpoint speech_calls (evs : list speech_event) : nat :=
  match evs with
  | [] => O
  | SpeechCall _ :: r => S (speech_calls r)
  | _ :: r => speech_calls r
  end.

(** What is stored in a [Uint8Array] cell: the value modulo 256. *)
Definition to_uint8 (c : N) : Byte.byte :=
  match Byte.of_N (c mod 256)%N with
  | Some b => b
  | None => Byte.x00
  end.

(** [decodeBase64], given what [atob] made of its argument: one byte per
    character of the binary string, [bytes[i] = binaryString.charCodeAt(i)]. *)
Definition decodeBase64 (atob : jsstring -> outcome jsstring) (base64 : jsstring)
    : outcome (list Byte.byte) :=
  match atob base64 with
  | Resolved binaryString => Resolved (map to_uint8 binaryString)
  | Rejected e => Rejected e
  end.

(* ===================================================================== *)
(** ** App.tsx: voice selection and board size *)
(* ===================================================================== *)

(** The two fields of a [SpeechSynthesisVoice] the selection reads. *)
Record SpeechSynthesisVoice := {
  voice_name : jsstring;
  lang : jsstring
}.

(** U+666E U+901A U+8BDD and U+570B U+8A9E after [Google ]. *)
Definition preferredNames (simplified : bool) : list jsstring :=
  if simplified then
    [js "Tingting"; js "Lili";
     [71; 111; 111; 103; 108; 101; 32; 26222; 36890; 35805]%N;
     js "Microsoft Xiaoxiao"]
  else
    [js "Meijia"; js "HsiaoYu";
     [71; 111; 111; 103; 108; 101; 32; 22283; 35486]%N;
     js "Microsoft Hanhan"].

Definition targetLang (simplified : bool) : jsstring :=
  if simplified then js "zh-CN" else js "zh-TW".

(** [preferredNames.some((name) => v.name.includes(name))] *)
Definition preferred (simplified : bool) (v : SpeechSynthesisVoice) : bool :=
  existsb (fun n => includes n (voice_name v)) (preferredNames simplified).

(** [find(...) || find(...) || find(...)] *)
Definition bestVoice (voices : list SpeechSynthesisVoice) (simplified : bool)
    : option SpeechSynthesisVoice :=
  match List.find (preferred simplified) voices with
  | Some v => Some v
  | None =>
      match List.find (fun v => same_string (lang v) (targetLang simplified))
              voices with
      | Some v => Some v
      | None => List.find (fun v => startsWith (js "zh") (lang v)) voices
      end
  end.

(** The effect on [[voices, isSimplified]]: the new [selectedVoice]. *)
Definition autoSelectVoice (voices : list SpeechSynthesisVoice)
    (simplified : bool) (selected : option SpeechSynthesisVoice)
    : option SpeechSynthesisVoice :=
  match voices with
  | [] => selected
  | _ :: _ =>
      match bestVoice voices simplified with
      | Some v => Some v
      | None => selected
      end
  end.

(** [handleResize]: the board size for a window of inner width [width]. *)
Definition handleResize (width : Z) : Z :=
  if width <? 640 then Z.min (width - 40) 350
  else if width <? 1024 then 400
  else 550.

(* ===================================================================== *)
(** ** Vocabulary of the further statements *)
(* ===================================================================== *)

(** The deferred [handleNext] of render [r], waiting for its timer. *)
Definition advance_task (r : State) : task :=
  Suspended (Timeout 1200) (fun _ : unit => App.handleNext r).

(** A handler that writes neither the active text nor the position. *)
Fixpoint still (p : prog) : Prop :=
  match p with
  | Done => True
  | Do (SetActiveText _) _ | Do (UpdActiveText _) _
  | Do (SetCurrentIndex _) _ | Do (UpdCurrentIndex _) _ => False
  | Do _ k => still k
  | Ask _ k => forall a, still (k a)
  end.

Definition insight_query (q : query) : bool :=
  match q with
  | GetCharacterInsights _ => true
  | _ => false
  end.

(** A handler that has nothing to do with insights: it writes neither the
    insight nor the loading indicator and never asks for an insight. *)
Fixpoint calm (p : prog) : Prop :=
  match p with
  | Done => True
  | Do (SetInsights _) _ | Do (SetIsLoadingInsights _) _ => False
  | Do _ k => calm k
  | Ask q k => insight_query q = false /\ forall a, calm (k a)
  end.

(** Number of insight fetches in flight. *)
Fixpoint insights_in_flight (ts : list task) : nat :=
  match ts with
  | [] => O
  | Suspended q _ :: r =>
      if insight_query q then S (insights_in_flight r)
      else insights_in_flight r
  end.

(** Every task is the tail of a [fetchInsights] or is calm. *)
Definition task_tidy (t : task) : Prop :=
  (exists c, t = fetch_task c) \/
  match t with
  | Suspended q k => insight_query q = false /\ forall a, calm (k a)
  end.

(** The loading indicator is only up while a fetch is in flight. *)
Definition tidy (s : Sys) : Prop :=
  Forall task_tidy (tasks s) /\
  (isLoadingInsights (ui s) = true -> (1 <= insights_in_flight (tasks s))%nat).

(** The events that run a handler of the current render and leave the
    text alone: everything but a resumed handler, the text update and the
    script toggle. *)
Definition keeps_text (e : event) : bool :=
  match e with
  | Settle _ _ | ClickUpdate | ClickSimplified _ => false
  | _ => true
  end.

(** The sum of a list of delays. *)
Fixpoint total (l : list Z) : Z :=
  match l with
  | [] => 0
  | x :: r => x + total r
  end.

(** The event resumes a handler that waits for a timer. *)
Definition fires_timer (s : Sys) (e : event) : bool :=
  match e with
  | Settle i _ =>
      match tasks s !! i with
      | Some (Suspended (Timeout _) _) => true
      | _ => false
      end
  | _ => false
  end.

(** A run in which no timer fires. *)
Fixpoint timer_free (step : event -> Sys -> Sys) (es : list event) (s : Sys)
    : bool :=
  match es with
  | [] => true
  | e :: r => negb (fires_timer s e) && timer_free step r (step e s)
  end.

(** Every task waits for a timer or will leave text and position alone. *)
Definition task_still (t : task) : Prop :=
  match t with
  | Suspended (Timeout _) _ => True
  | Suspended _ k => forall a, still (k a)
  end.

(** The two events of [App.tsx] that replace the active text leave room
    for the position: a script toggle, which keeps the position, converts
    the active text to one with more characters than the position; a text
    update, which resets the position, is made with a blank input, where it
    does nothing, or converts the input to a text that has a character. *)
Definition fits {cc : OpenCC} (s : Sys) (e : event) : bool :=
  match e with
  | ClickSimplified target =>
      let converter := if target then tw2cn else cn2tw in
      currentIndex (ui s)
      <? Z.of_nat (length (List.filter non_space (converter (activeText (ui s)))))
  | ClickUpdate =>
      blank (inputText (ui s))
      || negb (blank (if isSimplified (ui s) then tw2cn (inputText (ui s))
                      else cn2tw (inputText (ui s))))
  | _ => true
  end.

(** A run of [App.tsx] in which every event fits. *)
Fixpoint fitting {cc : OpenCC} {pe : ProcessEnv} (es : list event) (s : Sys)
    : bool :=
  match es with
  | [] => true
  | e :: r => fits s e && fitting r (App.step e s)
  end.

(** Converters whose table has an entry with sides of different lengths:
    towards the simplified script the two units U+4E7E U+4E86 are written
    as the single unit U+5E72. *)
Fixpoint contract (t : jsstring) : jsstring :=
  match t with
  | [] => []
  | a :: r =>
      match r with
      | b :: r' =>
          if (a =? 20094)%N && (b =? 20102)%N then 24178%N :: contract r'
          else a :: contract r
      | [] => [a]
      end
  end.

Definition contracting_converters : OpenCC := {|
  cn2tw := fun t => t;
  tw2cn := contract
|}.

(** A speech endpoint whose answer has a part without data before the
    part with the payload. *)
Definition sample_speech_remote : SpeechRemote unit := {|
  generateSpeechContent := fun _ w =>
    (Resolved {| candidates := Some [
       {| candidate_content := Some {| parts := Some [
            {| inlineData := None |};
            {| inlineData := Some {| data := Some (js "UklGRg") |} |}] |} |}] |},
     w);
  during_speech_delay := fun _ w => w
|}.

(** The position is inside the sequence and no handler in flight other
    than a deferred advance will move it or change the text. *)
Definition steady (s : Sys) : Prop :=
  in_bounds (ui s) /\ Forall task_still (tasks s).

(* ===================================================================== *)
(** ** components/WritingBoard.tsx *)
(* ===================================================================== *)

(** [types.ts] *)
Inductive PracticeMode := viewer | quiz.

Module Board.

(** What a writer of the stroke widget is waiting to call back: the end
    of an animation, the 1500 ms pause before the next one, or the end of a
    quiz (with the [onComplete] property the board was given, or none). *)
Inductive wait :=
| Animating
| Pausing
| Quizzing (onComplete : bool).

(** Calls made on the widget and on the parent. *)
Inductive call :=
| Create (w : nat)
| AnimateCharacter (w : nat)
| StartQuiz (w : nat)
| CancelQuiz (w : nat)
| HideCharacter (w : nat)
| OnComplete.

(** The board: the writer in [writerRef], the number of writers created
    so far (writers are numbered in the order of their creation), the
    callbacks outstanding, and the calls made. *)
Record Board := {
  writerRef : option nat;
  created : nat;
  waiting : list (nat * wait);
  calls : list call
}.

Definition empty : Board :=
  {| writerRef := None; created := 0; waiting := []; calls := [] |}.

Definition is_current (b : Board) (w : nat) : bool :=
  match writerRef b with
  | Some c => (c =? w)%nat
  | None => false
  end.

(** [loop] of writer [w]. *)
Definition loop (w : nat) (b : Board) : Board :=
  if is_current b w then
    {| writerRef := writerRef b; created := created b;
       waiting := waiting b ++ [(w, Animating)];
       calls := calls b ++ [AnimateCharacter w] |}
  else b.

(** [initWriter]; [ready] says that the container is mounted and the
    widget library is loaded. *)
Definition initWriter (ready : bool) (role : PracticeMode) (onComplete : bool)
    (b : Board) : Board :=
  if negb ready then b
  else
    let w := created b in
    let b1 := {| writerRef := Some w; created := S w; waiting := waiting b;
                 calls := calls b ++ [Create w] |} in
    match role with
    | viewer => loop w b1
    | quiz =>
        {| writerRef := writerRef b1; created := created b1;
           waiting := waiting b1 ++ [(w, Quizzing onComplete)];
           calls := calls b1 ++ [StartQuiz w] |}
    end.

(** The clean-up of the effect; [canHide] says that the writer has a
    [hideCharacter] method. *)
Definition cleanup (canHide : bool) (b : Board) : Board :=
  match writerRef b with
  | Some w =>
      {| writerRef := writerRef b; created := created b; waiting := waiting b;
         calls := calls b ++ CancelQuiz w ::
                    (if canHide then [HideCharacter w] else []) |}
  | None => b
  end.

(** The widget calls back the [i]-th outstanding callback. *)
Definition fire (i : nat) (b : Board) : Board :=
  match waiting b !! i with
  | None => b
  | Some (w, k) =>
      let b' := {| writerRef := writerRef b; created := created b;
                   waiting := delete i (waiting b); calls := calls b |} in
      match k with
      | Animating =>
          if is_current b' w then
            {| writerRef := writerRef b'; created := created b';
               waiting := waiting b' ++ [(w, Pausing)]; calls := calls b' |}
          else b'
      | Pausing => loop w b'
      | Quizzing onComplete =>
          if onComplete then
            {| writerRef := writerRef b'; created := created b';
               waiting := waiting b'; calls := calls b' ++ [OnComplete] |}
          else b'
      end
  end.

Inductive event :=
| Init (ready : bool) (role : PracticeMode) (onComplete : bool)
| Cleanup (canHide : bool)
| Fire (i : nat).

Definition step (e : event) (b : Board) : Board :=
  match e with
  | Init ready role onComplete => initWriter ready role onComplete b
  | Cleanup canHide => cleanup canHide b
  | Fire i => fire i b
  end.

Definition run (es : list event) (b : Board) : Board :=
  fold_left (fun b e => step e b) es b.

(** Outstanding animation or pause callbacks of writer [w]. *)
Fixpoint looping (w : nat) (l : list (nat * wait)) : nat :=
  match l with
  | [] => O
  | (w', Quizzing _) :: r => looping w r
  | (w', _) :: r => if (w' =? w)%nat then S (looping w r) else looping w r
  end.

(** Reading a list of calls from a state in which [cur] is the newest
    writer: the newest writer at the end, or [None] when some animation was
    started on a writer that was not the newest at that point. *)
Fixpoint replay (cur : option nat) (l : list call) : option (option nat) :=
  match l with
  | [] => Some cur
  | Create w :: r => replay (Some w) r
  | AnimateCharacter w :: r =>
      match cur with
      | Some c => if (c =? w)%nat then replay cur r else None
      | None => None
      end
  | _ :: r => replay cur r
  end.

End Board.

(** The cells of the first [frames] frames of a decoded buffer, frame by
    frame and channel by channel within a frame. *)
Definition interleave (out : list (list f32)) (frames : nat) : list f32 :=
  flat_map (fun i => map (fun ch => default NaN (ch !! i)) out) (seq 0 frames).

(* ===================================================================== *)
(** ** services/geminiService.ts: insight calls that overlap *)
(* ===================================================================== *)

(** [getCharacterInsights] is an [async] function: it tests the key, the
    character and the cache, then awaits the request behind [withRetry],
    and only when that has settled does it parse the text and write the
    cache. Other calls can start and finish in between. This module follows
    a call in its two halves, on either side of the [await], so that calls
    can overlap, and it keeps every value that [JSON.parse] can return.
    [getCharacterInsights] above is the case of a call that runs alone and
    whose response is an object ([lone_call_agrees]). *)
Module Gemini.

(** A JSON value as far as the service tells values apart; an object is
    kept as the [CharacterInfo] it is cast to. *)
Inductive json :=
| JNull
| JBool (b : bool)
| JNumber (n : Z)
| JString (s : jsstring)
| JObject (o : CharacterInfo).

(** JavaScript truthiness of such a value. *)
Definition truthy_json (v : json) : bool :=
  match v with
  | JNull => false
  | JBool b => b
  | JNumber n => negb (n =? 0)
  | JString s => truthy s
  | JObject _ => true
  end.

(** [JSON.parse]; [None] is a [SyntaxError]. *)
Class Parser := { JSON_parse : jsstring -> option json }.

(** The cache object, and the characters of the calls that wait for their
    request to settle, oldest first. *)
Record Service := {
  insightsCache : gmap jsstring json;
  awaiting : list jsstring
}.

(** A call up to its [await]: it resolves at once with a value, or it
    sends its request and waits. *)
Inductive entered :=
| Resolves (v : json)
| Awaits.

(** What the [try] block can throw: the rejection of the awaited request,
    the [TypeError] of [response.text.trim()] on a missing text, the
    [SyntaxError] of [JSON.parse]. *)
Inductive thrown :=
| RemoteError (e : error)
| TypeError
| SyntaxError.

(** What can be observed of the service: a request is sent, an error is
    logged, the promise of a call for [c] is fulfilled with a value or is
    rejected. *)
Inductive output :=
| Request (c : jsstring)
| ConsoleError (t : thrown)
| Returns (c : jsstring) (v : json)
| Throws (c : jsstring) (t : thrown).

(** A call starts, or the request of the [i]-th waiting call settles;
    [r] is what [await withRetry(...)] yields. *)
Inductive input :=
| Call (c : jsstring)
| Settle (i : nat) (r : outcome response).

Section Calls.
Context {pe : ProcessEnv} {pa : Parser}.

(** The two lines before the [try]. *)
Definition enter (c : jsstring) (cache : gmap jsstring json) : entered :=
  if negb has_key || negb (truthy c) then Resolves JNull
  else
    match cache !! c with
    | Some cached => if truthy_json cached then Resolves cached else Awaits
    | None => Awaits
    end.

(** The [try] block from the point its request has settled as [r]: it
    throws, or it has a result and has written it to the cache. *)
Definition try_block (c : jsstring) (r : outcome response)
    (cache : gmap jsstring json) : thrown + json * gmap jsstring json :=
  match r with
  | Rejected e => inl (RemoteError e)
  | Resolved resp =>
      match text resp with
      | None => inl TypeError
      | Some t =>
          match JSON_parse (trim t) with
          | None => inl SyntaxError
          | Some result => inr (result, <[c := result]> cache)
          end
      end
  end.

(** The [try] with its [catch], which logs and returns [null]: how the
    promise of the call settles, the cache, and the log. *)
Definition resume (c : jsstring) (r : outcome response)
    (cache : gmap jsstring json)
    : (thrown + json) * gmap jsstring json * list output :=
  match try_block c r cache with
  | inr (result, cache') => (inr result, cache', [])
  | inl t => (inr JNull, cache, [ConsoleError t])
  end.

Definition step (e : input) (s : Service) : Service * list output :=
  match e with
  | Call c =>
      match enter c (insightsCache s) with
      | Resolves v => (s, [Returns c v])
      | Awaits =>
          ({| insightsCache := insightsCache s; awaiting := awaiting s ++ [c] |},
           [Request c])
      end
  | Settle i r =>
      match awaiting s !! i with
      | Some c =>
          let '(o, cache, log) := resume c r (insightsCache s) in
          ({| insightsCache := cache; awaiting := delete i (awaiting s) |},
           log ++ [match o with
                   | inr v => Returns c v
                   | inl t => Throws c t
                   end])
      | None => (s, [])
      end
  end.

Fixpoint run (es : list input) (s : Service) : Service * list output :=
  match es with
  | [] => (s, [])
  | e :: r =>
      ((run r (step e s).1).1, (step e s).2 ++ (run r (step e s).1).2)
  end.

End Calls.

(** A freshly loaded module. *)
Definition fresh : Service := {| insightsCache := ∅; awaiting := [] |}.

(** What a caller typed [CharacterInfo | null] makes of a value. *)
Definition of_info (r : option CharacterInfo) : json :=
  match r with
  | Some o => JObject o
  | None => JNull
  end.

End Gemini.

(** A second document, [{"char":"\u6c38","meaning":"forever"}], and a
    fragment of [JSON.parse] that reads it, [bare_document] and [null]. *)
Definition second_document : jsstring :=
  [123; 34; 99; 104; 97; 114; 34; 58; 34; 27704; 34; 44; 34; 109; 101; 97;
   110; 105; 110; 103; 34; 58; 34; 102; 111; 114; 101; 118; 101; 114; 34;
   125]%N.

Definition second_info : CharacterInfo := {|
  char := [27704]%N; meaning := Some (js "forever"); pinyin := None;
  zhuyin := None; radical := None; strokeCount := None; examples := None
|}.

Definition sample_parser : Gemini.Parser := {|
  Gemini.JSON_parse := fun t =>
    if same_string t bare_document then Some (Gemini.JObject bare_info)
    else if same_string t second_document then Some (Gemini.JObject second_info)
    else if same_string t (js "null") then Some Gemini.JNull
    else None
|}.

(* ===================================================================== *)
(** * Properties *)
(* ===================================================================== *)

(** ** Strings *)

Lemma trimStart_nil_iff (s : jsstring) : trimStart s = [] <-> blank s = true.
Proof.
  unfold blank. induction s as [|c r IH]; simpl; [easy|].
  destruct (is_space c); simpl; [exact IH|]. split; discriminate.
Qed.

Lemma blank_rev (s : jsstring) : blank (rev s) = blank s.
Proof.
  unfold blank. induction s as [|c r IH]; simpl; [reflexivity|].
  rewrite forallb_app, IH. simpl. rewrite andb_true_r. apply andb_comm.
Qed.

Lemma blank_trimStart (s : jsstring) : blank (trimStart s) = blank s.
Proof.
  unfold blank. induction s as [|c r IH]; simpl; [reflexivity|].
  destruct (is_space c) eqn:E; simpl; [exact IH|]. now rewrite E.
Qed.

(** [inputText.trim()] is falsy exactly on blank inputs. *)
Lemma truthy_trim (s : jsstring) : truthy (trim s) = negb (blank s).
Proof.
  unfold trim.
  destruct (blank s) eqn:B; simpl.
  - apply trimStart_nil_iff in B. rewrite B. reflexivity.
  - destruct (rev (trimStart (rev (trimStart s)))) as [|c r] eqn:E; [|reflexivity].
    apply (f_equal (@rev N)) in E. rewrite rev_involutive in E. simpl in E.
    apply trimStart_nil_iff in E.
    rewrite blank_rev, blank_trimStart in E. congruence.
Qed.

Lemma same_string_refl (a : jsstring) : same_string a a = true.
Proof. induction a as [|x a IH]; simpl; [reflexivity|]. now rewrite N.eqb_refl. Qed.

(** ** The runtime *)

(** A render that changes neither the active text nor the position nor the
    script variant does not start a fetch. *)
Lemma App_dispatch_Done {cc : OpenCC} {pe : ProcessEnv} (s : Sys) :
  App.dispatch Done s = s.
Proof.
  unfold App.dispatch, App.rerender. simpl.
  now rewrite same_string_refl, eqb_reflx.
Qed.

Lemma BoardApp_dispatch_Done (s : Sys) : BoardApp.dispatch Done s = s.
Proof.
  unfold BoardApp.dispatch, BoardApp.rerender. simpl.
  now rewrite same_string_refl.
Qed.

(** Starting a fetch leaves the text, the position and the flags other
    than the loading indicator alone. *)
Lemma exec_fetch_ui {cc : OpenCC} {pe : ProcessEnv} (r : State) (c : jsstring) (s : Sys) :
  let s' := exec (App.fetchInsights r c) s in
  activeText (ui s') = activeText (ui s) /\
  inputText (ui s') = inputText (ui s) /\
  currentIndex (ui s') = currentIndex (ui s) /\
  insights (ui s') = insights (ui s) /\
  isSpeaking (ui s') = isSpeaking (ui s).
Proof. unfold App.fetchInsights. destruct (truthy c); simpl; auto. Qed.

Lemma App_rerender_ui {cc : OpenCC} {pe : ProcessEnv} (before : State) (s : Sys) :
  let s' := App.rerender before s in
  activeText (ui s') = activeText (ui s) /\
  inputText (ui s') = inputText (ui s) /\
  currentIndex (ui s') = currentIndex (ui s) /\
  insights (ui s') = insights (ui s) /\
  isSpeaking (ui s') = isSpeaking (ui s).
Proof.
  unfold App.rerender.
  destruct (_ || _); [apply exec_fetch_ui | auto].
Qed.

Lemma BoardApp_rerender_ui (before : State) (s : Sys) :
  let s' := BoardApp.rerender before s in
  activeText (ui s') = activeText (ui s) /\
  inputText (ui s') = inputText (ui s) /\
  currentIndex (ui s') = currentIndex (ui s) /\
  insights (ui s') = insights (ui s) /\
  isSpeaking (ui s') = isSpeaking (ui s).
Proof.
  unfold BoardApp.rerender, BoardApp.fetchInsights.
  destruct (negb _); [destruct (truthy _); simpl; auto | auto].
Qed.

Lemma characters_ext (a b : State) :
  activeText a = activeText b -> characters a = characters b.
Proof. unfold characters. now intros ->. Qed.

(** ** Text update *)

(** C10. Updating with an input that is empty or made of white space only
    changes nothing: the whole component, hence the active text, the active
    sequence and the position, is as before, in both versions of [App]. *)
Theorem update_with_blank_input_is_noop {cc : OpenCC} {pe : ProcessEnv} (s : Sys) :
  blank (inputText (ui s)) = true ->
  App.step ClickUpdate s = s /\
  BoardApp.step ClickUpdate s = s /\
  activeText (ui (App.step ClickUpdate s)) = activeText (ui s) /\
  characters (ui (App.step ClickUpdate s)) = characters (ui s) /\
  currentIndex (ui (App.step ClickUpdate s)) = currentIndex (ui s).
Proof.
  intros B.
  assert (A : App.step ClickUpdate s = s).
  { simpl. unfold App.handleUpdateText. rewrite truthy_trim, B. simpl.
    apply App_dispatch_Done. }
  assert (A' : BoardApp.step ClickUpdate s = s).
  { simpl. unfold BoardApp.handleUpdateText. rewrite truthy_trim, B. simpl.
    apply BoardApp_dispatch_Done. }
  rewrite A. auto.
Qed.

Lemma update_with_blank_input_is_noop_witness :
  blank (inputText (ui (App.run (cc := sample_converters) (pe := with_key)
                          [ClickChar 2; Typing [32; 9; 12288]%N] App.mounted)))
    = true /\
  App.step (cc := sample_converters) (pe := with_key) ClickUpdate
    (App.run (cc := sample_converters) (pe := with_key)
       [ClickChar 2; Typing [32; 9; 12288]%N] App.mounted)
  = App.run (cc := sample_converters) (pe := with_key)
      [ClickChar 2; Typing [32; 9; 12288]%N] App.mounted.
Proof.
  split; [reflexivity|].
  apply (@update_with_blank_input_is_noop sample_converters with_key).
  reflexivity.
Defined.

(** C5, as stated, fails on a blank input: after typing two spaces and
    pressing update at position 2 the sequence is still the four default
    characters and the position is still 2, not the empty sequence at 0. *)
Lemma update_text_blank_counterexample :
  let s := App.run (cc := sample_converters) (pe := with_key)
             [ClickChar 2; Typing [32; 32]%N; ClickUpdate] App.mounted in
  inputText (ui (App.run (cc := sample_converters) (pe := with_key)
                   [ClickChar 2; Typing [32; 32]%N] App.mounted)) = [32; 32]%N /\
  characters (ui s) = DEFAULT_TEXT /\
  currentIndex (ui s) = 2 /\
  ~ (characters (ui s) = List.filter non_space [32; 32]%N /\
     currentIndex (ui s) = 0).
Proof.
  cbv zeta. repeat split; try reflexivity.
  intros [E _]. vm_compute in E. discriminate E.
Qed.

(** C5, amended. When the input has a character that is not white space,
    the update makes the active sequence the non-white-space characters, in
    order, of the input converted to the current script variant
    ([tw2cn] when simplified, [cn2tw] otherwise; the earlier [App] stores
    the input unconverted), and resets the position to 0. *)
Theorem update_text_sets_sequence {cc : OpenCC} {pe : ProcessEnv} (s : Sys) :
  blank (inputText (ui s)) = false ->
  let converted :=
    if isSimplified (ui s) then tw2cn (inputText (ui s))
    else cn2tw (inputText (ui s)) in
  (activeText (ui (App.step ClickUpdate s)) = converted /\
   characters (ui (App.step ClickUpdate s)) = List.filter non_space converted /\
   currentIndex (ui (App.step ClickUpdate s)) = 0) /\
  (characters (ui (BoardApp.step ClickUpdate s))
     = List.filter non_space (inputText (ui s)) /\
   currentIndex (ui (BoardApp.step ClickUpdate s)) = 0).
Proof.
  intros B converted. split.
  - simpl. unfold App.handleUpdateText, App.dispatch.
    rewrite truthy_trim, B. simpl.
    match goal with |- context [App.rerender ?b ?x] =>
      destruct (App_rerender_ui b x) as (Ha & _ & Hi & _) end.
    split; [exact Ha|]. split; [|exact Hi].
    unfold characters. now rewrite Ha.
  - simpl. unfold BoardApp.handleUpdateText, BoardApp.dispatch.
    rewrite truthy_trim, B. simpl.
    match goal with |- context [BoardApp.rerender ?b ?x] =>
      destruct (BoardApp_rerender_ui b x) as (Ha & _ & Hi & _) end.
    split; [|exact Hi]. unfold characters. now rewrite Ha.
Qed.

Lemma update_text_sets_sequence_witness :
  let s := App.run (cc := sample_converters) (pe := with_key)
             [ClickChar 3; Typing [27721; 32; 23383]%N] App.mounted in
  blank (inputText (ui s)) = false /\
  characters (ui (App.step (cc := sample_converters) (pe := with_key)
                    ClickUpdate s)) = [28450; 23383]%N /\
  currentIndex (ui (App.step (cc := sample_converters) (pe := with_key)
                      ClickUpdate s)) = 0.
Proof.
  cbv zeta. split; [reflexivity|].
  pose proof (@update_text_sets_sequence sample_converters with_key
                (App.run (cc := sample_converters) (pe := with_key)
                   [ClickChar 3; Typing [27721; 32; 23383]%N] App.mounted)
                eq_refl) as [(_ & Hc & Hi) _].
  split; [|exact Hi].
  rewrite Hc. reflexivity.
Defined.

(** ** Navigation *)

(** Pressed from the render they belong to, the two arrows keep the
    position inside the sequence, and do nothing at its ends. *)
Lemma arrows_keep_position_in_bounds {cc : OpenCC} {pe : ProcessEnv} (s : Sys) :
  in_bounds (ui s) ->
  in_bounds (ui (App.step ClickNext s)) /\
  in_bounds (ui (App.step ClickPrev s)) /\
  (currentIndex (ui s) = Z.of_nat (length (characters (ui s))) - 1 ->
   App.step ClickNext s = s) /\
  (currentIndex (ui s) = 0 -> App.step ClickPrev s = s).
Proof.
  unfold in_bounds. intros B. simpl.
  unfold App.handleNext, App.handlePrev, App.dispatch.
  split; [|split; [|split]].
  - destruct (_ <? _) eqn:G; simpl;
      match goal with |- context [App.rerender ?b ?x] =>
        destruct (App_rerender_ui b x) as (Ha & _ & Hi & _) end;
      rewrite (characters_ext _ _ Ha), Hi; simpl; [|lia].
    apply Z.ltb_lt in G. unfold characters in *. simpl. lia.
  - destruct (_ <? _) eqn:G; simpl;
      match goal with |- context [App.rerender ?b ?x] =>
        destruct (App_rerender_ui b x) as (Ha & _ & Hi & _) end;
      rewrite (characters_ext _ _ Ha), Hi; simpl; [|lia].
    apply Z.ltb_lt in G. unfold characters in *. simpl. lia.
  - intros E. destruct (_ <? _) eqn:G; [apply Z.ltb_lt in G; lia|].
    apply App_dispatch_Done.
  - intros E. rewrite E. simpl. apply App_dispatch_Done.
Qed.

(** C4. The deferred advance scheduled by the quiz board breaks the
    invariant. With the four default characters, the quiz for the third one
    is completed (this schedules [handleNext] of that render, whose guard
    sees position 2), the right arrow is pressed before the 1200 ms are
    over (position 3, the last), and the timer fires: its updater adds one
    to the position it finds, which leaves the sequence. *)
Theorem deferred_advance_leaves_bounds :
  let s := App.run (cc := sample_converters) (pe := with_key)
             [ClickChar 2; QuizComplete; ClickNext] App.mounted in
  let s' := App.step (cc := sample_converters) (pe := with_key)
              (Settle 2 obliging) s in
  length (characters (ui s)) = 4%nat /\
  currentIndex (ui s) = 3 /\
  in_bounds (ui s) /\
  (exists k, tasks s !! 2%nat = Some (Suspended (Timeout 1200) k)) /\
  length (characters (ui s')) = 4%nat /\
  currentIndex (ui s') = 4 /\
  ~ in_bounds (ui s').
Proof.
  cbv zeta. split; [reflexivity|]. split; [reflexivity|].
  split; [unfold in_bounds; vm_compute; split; [discriminate | reflexivity]|].
  split; [eexists; reflexivity|].
  split; [reflexivity|]. split; [reflexivity|].
  unfold in_bounds. vm_compute. intros [_ L]. discriminate L.
Qed.

(** ** Insight display *)

(** Starting a fetch for a non-empty character raises the loading
    indicator and leaves one [fetch_task] in flight. *)
Lemma exec_fetchInsights {cc : OpenCC} {pe : ProcessEnv}
    (r : State) (c : jsstring) (s : Sys) :
  truthy c = true ->
  exec (App.fetchInsights r c) s =
  {| ui := perform (SetIsLoadingInsights true) (ui s);
     tasks := tasks s ++ [fetch_task c] |}.
Proof. intros T. unfold App.fetchInsights. now rewrite T. Qed.

(** C3, as stated, fails. The fetch for U+6C38 is in flight when the right
    arrow makes U+548C active; the fetch for U+548C resolves and is shown;
    then the one for U+6C38 resolves and replaces it, although U+548C is
    still the active character. *)
Lemma stale_insight_counterexample :
  let yong := info_for [27704]%N (js "eternal") in
  let he := info_for [21644]%N (js "harmony") in
  let s1 := App.run (cc := sample_converters) (pe := with_key)
              [ClickNext; Settle 1 (insight_arrives (Some he))] App.mounted in
  let s2 := App.step (cc := sample_converters) (pe := with_key)
              (Settle 0 (insight_arrives (Some yong))) s1 in
  tasks s1 !! 0%nat = Some (fetch_task [27704]%N) /\
  currentChar (ui s1) = [21644]%N /\
  insights (ui s1) = Some he /\
  currentChar (ui s2) = [21644]%N /\
  insights (ui s2) = Some yong /\
  ~ insight_matches_active (ui s2).
Proof.
  cbv zeta. repeat split; try reflexivity.
  unfold insight_matches_active. vm_compute. discriminate.
Qed.

(** C3, amended. A resolved insight fetch is applied unconditionally: its
    result becomes the displayed insight whichever character it was
    requested for and whichever character is active by then, the active
    character and position are not touched, and no result is discarded. *)
Theorem insight_result_applied_unconditionally {cc : OpenCC} {pe : ProcessEnv}
    (s : Sys) (i : nat) (c : jsstring) (env : forall q : query, answer q) :
  tasks s !! i = Some (fetch_task c) ->
  insights (ui (App.step (Settle i env) s)) = env (GetCharacterInsights c) /\
  currentChar (ui (App.step (Settle i env) s)) = currentChar (ui s) /\
  insights (ui (BoardApp.step (Settle i env) s)) = env (GetCharacterInsights c).
Proof.
  intros T. simpl. unfold resume. rewrite T. simpl.
  unfold App.dispatch, BoardApp.dispatch. simpl.
  match goal with |- context [App.rerender ?b ?x] =>
    destruct (App_rerender_ui b x) as (Ha & _ & Hi & Hn & _) end.
  match goal with |- context [BoardApp.rerender ?b ?x] =>
    destruct (BoardApp_rerender_ui b x) as (_ & _ & _ & Hn' & _) end.
  split; [exact Hn|]. split; [|exact Hn'].
  unfold currentChar. now rewrite (characters_ext _ _ Ha), Hi.
Qed.

Lemma insight_result_applied_unconditionally_witness :
  let s1 := App.run (cc := sample_converters) (pe := with_key)
              [ClickNext; Settle 1 (insight_arrives None)] App.mounted in
  tasks s1 !! 0%nat = Some (fetch_task [27704]%N) /\
  currentChar (ui s1) = [21644]%N /\
  insights (ui (App.step (cc := sample_converters) (pe := with_key)
                  (Settle 0 (insight_arrives
                               (Some (info_for [27704]%N (js "eternal"))))) s1))
  = Some (info_for [27704]%N (js "eternal")).
Proof.
  cbv zeta. split; [reflexivity|]. split; [reflexivity|].
  exact (proj1 (@insight_result_applied_unconditionally
                  sample_converters with_key
                  (App.run (cc := sample_converters) (pe := with_key)
                     [ClickNext; Settle 1 (insight_arrives None)] App.mounted)
                  0%nat [27704]%N
                  (insight_arrives (Some (info_for [27704]%N (js "eternal"))))
                  eq_refl)).
Defined.

(** ** Pronunciation: what one request does to the flag *)

Lemma perform_keeps_flag (a : action) (st : State) :
  (forall v, a <> SetIsSpeaking v) -> isSpeaking (perform a st) = isSpeaking st.
Proof. destruct a; intros N; try reflexivity. now destruct (N v). Qed.

(** An idle handler neither sets nor clears the flag. *)
Lemma idle_actions (p : prog) :
  idle p -> forall (env : oracle) (n : nat),
  raises (actions_of env n p) = 0%nat /\
  clears (actions_of env n p) = 0%nat /\
  forall st, isSpeaking (perform_all (actions_of env n p) st) = isSpeaking st.
Proof.
  induction p as [|a k IH|q k IH]; intros I env n.
  - simpl. auto.
  - destruct a; simpl in I; try contradiction;
      destruct (IH I env n) as (R & C & F);
      (split; [exact R | split; [exact C |]]);
      intros st; unfold perform_all in *; simpl; now rewrite F.
  - destruct I as [_ I]. simpl. apply (IH _ (I _)).
Qed.

(** The rest of a dispatched request clears the flag exactly once, never
    sets it, and leaves it cleared. *)
Lemma settles_actions (p : prog) :
  settles p -> forall (env : oracle) (n : nat),
  raises (actions_of env n p) = 0%nat /\
  clears (actions_of env n p) = 1%nat /\
  forall st, isSpeaking (perform_all (actions_of env n p) st) = false.
Proof.
  induction p as [|a k IH|q k IH]; intros S env n.
  - contradiction.
  - destruct a; simpl in S;
      try (destruct (IH S env n) as (R & C & F);
           (split; [exact R | split; [exact C |]]);
           intros st; unfold perform_all in *; simpl; now rewrite F).
    destruct v; [contradiction|].
    destruct (idle_actions k S env n) as (R & C & F).
    split; [exact R | split; [simpl; now rewrite C |]].
    intros st. unfold perform_all in *. simpl. now rewrite F.
  - destruct S as [_ S]. simpl. apply (IH _ (S _)).
Qed.

(** A dispatched [playPronunciation] of [App.tsx] raises the flag first and
    then settles, on the cloud and on the local branch, with or without a
    configured key. *)
Lemma App_play_dispatched {cc : OpenCC} {pe : ProcessEnv} (r : State) :
  isSpeaking r = false -> truthy (currentChar r) = true ->
  exists k, App.playPronunciation r = Do (SetIsSpeaking true) k /\ settles k.
Proof.
  intros F T. unfold App.playPronunciation. rewrite F, T. simpl.
  eexists. split; [reflexivity|].
  destruct (useCloudVoice r).
  - destruct (negb (truthy _)) eqn:K; [simpl; exact I|].
    unfold playCloudTTS. rewrite K. simpl. split; [reflexivity|].
    intros [ok|e]; simpl; [|exact I].
    destruct ok; simpl; (split; [reflexivity|]).
    + intros [content|e]; simpl; [|exact I]. split; [reflexivity|].
      intros [[]|e]; simpl; exact I.
    + intros [m|e]; simpl; exact I.
  - simpl. split; [reflexivity|]. intros [e| |]; simpl; exact I.
Qed.

Lemma BoardApp_play_dispatched (r : State) :
  isSpeaking r = false -> truthy (currentChar r) = true ->
  exists k, BoardApp.playPronunciation r = Do (SetIsSpeaking true) k /\ settles k.
Proof.
  intros F T. unfold BoardApp.playPronunciation. rewrite F, T. simpl.
  eexists. split; [reflexivity|]. simpl. split; [reflexivity|].
  intros [b64|]; simpl; [|exact I].
  destruct (negb (truthy b64)); simpl; [exact I|]. split; [reflexivity|].
  intros [[]|e]; simpl; [|exact I]. split; [reflexivity|].
  intros [data|e]; simpl; [|exact I]. split; [reflexivity|].
  intros [[]|e]; simpl; [|exact I]. split; [reflexivity|].
  intros [[]|e]; simpl; exact I.
Qed.

(** C1. Every dispatched pronunciation request, in [App.tsx] on the cloud
    and on the local branch alike and in the earlier [App], sets the
    in-flight flag once and clears it exactly once whatever the platform
    answers (playback to the end, missing key, failed request, decode
    failure, playback or synthesis error), so that once its callbacks have
    run the flag is false. *)
Theorem speaking_flag_cleared_exactly_once {cc : OpenCC} {pe : ProcessEnv}
    (r : State) (env : oracle) :
  isSpeaking r = false ->
  truthy (currentChar r) = true ->
  (raises (actions_of env 0 (App.playPronunciation r)) = 1%nat /\
   clears (actions_of env 0 (App.playPronunciation r)) = 1%nat /\
   forall st,
     isSpeaking (perform_all (actions_of env 0 (App.playPronunciation r)) st)
     = false) /\
  (raises (actions_of env 0 (BoardApp.playPronunciation r)) = 1%nat /\
   clears (actions_of env 0 (BoardApp.playPronunciation r)) = 1%nat /\
   forall st,
     isSpeaking (perform_all (actions_of env 0 (BoardApp.playPronunciation r)) st)
     = false).
Proof.
  intros F T. split.
  - destruct (App_play_dispatched r F T) as (k & -> & S).
    destruct (settles_actions k S env 0%nat) as (R & C & L).
    simpl. repeat split; [now rewrite R | exact C |].
    intros st. apply L.
  - destruct (BoardApp_play_dispatched r F T) as (k & -> & S).
    destruct (settles_actions k S env 0%nat) as (R & C & L).
    simpl. repeat split; [now rewrite R | exact C |].
    intros st. apply L.
Qed.

Lemma speaking_flag_cleared_exactly_once_witness :
  isSpeaking (perform (SetUseCloudVoice true) initial) = false /\
  truthy (currentChar (perform (SetUseCloudVoice true) initial)) = true /\
  clears (actions_of (fun _ => obliging) 0
            (App.playPronunciation (pe := with_key)
               (perform (SetUseCloudVoice true) initial))) = 1%nat.
Proof.
  split; [reflexivity|]. split; [reflexivity|].
  exact (proj1 (proj2 (proj1
    (@speaking_flag_cleared_exactly_once sample_converters with_key
       (perform (SetUseCloudVoice true) initial) (fun _ => obliging)
       eq_refl eq_refl)))).
Defined.

(** ** Pronunciation: one request at a time *)

Lemma in_flight_app (l1 l2 : list task) :
  speech_in_flight (l1 ++ l2) = (speech_in_flight l1 + speech_in_flight l2)%nat.
Proof.
  induction l1 as [|[q k] l1 IH]; simpl; [reflexivity|].
  destruct (speech_query q); simpl; now rewrite IH.
Qed.

Lemma in_flight_delete (l : list task) (i : nat) (q : query) k :
  l !! i = Some (Suspended q k) ->
  speech_in_flight l =
  ((if speech_query q then 1 else 0) + speech_in_flight (delete i l))%nat.
Proof.
  revert i. induction l as [|[q' k'] l IH]; intros [|i] E; simpl in *;
    try discriminate.
  - injection E as -> _. destruct (speech_query q); reflexivity.
  - rewrite (IH i E). destruct (speech_query q), (speech_query q'); lia.
Qed.

(** Running an idle handler adds no pronunciation request and keeps the
    flag. *)
Lemma exec_idle (p : prog) :
  idle p -> forall s : Sys,
  Forall task_ok (tasks s) ->
  Forall task_ok (tasks (exec p s)) /\
  speech_in_flight (tasks (exec p s)) = speech_in_flight (tasks s) /\
  isSpeaking (ui (exec p s)) = isSpeaking (ui s).
Proof.
  induction p as [|a k IH|q k IH]; intros I s T.
  - simpl. auto.
  - pose proof (fun I' =>
      IH I' {| ui := perform a (ui s); tasks := tasks s |} T) as IH'.
    destruct a; simpl in I; try contradiction;
      destruct (IH' I) as (T' & C & F); simpl in *; auto.
  - destruct I as [Q I]. simpl. split; [|split; [|reflexivity]].
    + apply Forall_app. split; [exact T|]. constructor; [|constructor].
      simpl. now rewrite Q.
    + rewrite in_flight_app. simpl. rewrite Q. lia.
Qed.

(** Running the rest of a request either suspends it again, flag
    untouched, or clears the flag with nothing of it left in flight. *)
Lemma exec_settles (p : prog) :
  settles p -> forall s : Sys,
  Forall task_ok (tasks s) ->
  Forall task_ok (tasks (exec p s)) /\
  ((isSpeaking (ui (exec p s)) = isSpeaking (ui s) /\
    speech_in_flight (tasks (exec p s)) = S (speech_in_flight (tasks s))) \/
   (isSpeaking (ui (exec p s)) = false /\
    speech_in_flight (tasks (exec p s)) = speech_in_flight (tasks s))).
Proof.
  induction p as [|a k IH|q k IH]; intros S s T.
  - contradiction.
  - pose proof (fun S' =>
      IH S' {| ui := perform a (ui s); tasks := tasks s |} T) as IH'.
    destruct a; simpl in S;
      try (destruct (IH' S) as (T' & C); simpl in *; now auto).
    destruct v; [contradiction|].
    destruct (exec_idle k S {| ui := perform (SetIsSpeaking false) (ui s);
                               tasks := tasks s |} T) as (T' & C & F).
    simpl. split; [exact T'|]. right. auto.
  - destruct S as [Q S]. simpl. split.
    + apply Forall_app. split; [exact T|]. constructor; [|constructor].
      simpl. now rewrite Q.
    + left. split; [reflexivity|]. rewrite in_flight_app. simpl. rewrite Q. lia.
Qed.

Lemma exclusive_idle (p : prog) (s : Sys) :
  idle p -> exclusive s -> exclusive (exec p s).
Proof.
  intros I [T C]. destruct (exec_idle p I s T) as (T' & C' & F).
  split; [exact T'|]. now rewrite C', F.
Qed.

(** Resuming a request whose flag is up, or raising the flag and starting
    one when none is in flight, keeps the invariant. *)
Lemma exclusive_settles (p : prog) (s : Sys) :
  settles p ->
  Forall task_ok (tasks s) ->
  speech_in_flight (tasks s) = 0%nat ->
  isSpeaking (ui s) = true ->
  exclusive (exec p s).
Proof.
  intros S T C F. destruct (exec_settles p S s T) as (T' & [[F' C']|[F' C']]);
    (split; [exact T'|]); rewrite F', C'; [rewrite F|]; lia.
Qed.

Lemma exclusive_resume (s s' : Sys) (i : nat) env (p : prog) :
  exclusive s ->
  resume i env s = Some (p, s') ->
  (idle p /\ exclusive s') \/
  (settles p /\ Forall task_ok (tasks s') /\
   speech_in_flight (tasks s') = 0%nat /\ isSpeaking (ui s') = true).
Proof.
  intros [T C] R. unfold resume in R.
  destruct (tasks s !! i) as [[q k]|] eqn:E; [|discriminate].
  injection R as <- <-. simpl.
  pose proof (in_flight_delete _ _ _ _ E) as D.
  pose proof (Forall_delete _ _ i T) as T'.
  pose proof (proj1 (Forall_lookup _ _) T _ _ E) as K. simpl in K.
  destruct (speech_query q).
  - right. split; [apply K|]. split; [exact T'|].
    destruct (isSpeaking (ui s)); simpl; split; try reflexivity; lia.
  - left. split; [apply K|]. split; [exact T'|]. simpl. now rewrite <- C, D.
Qed.

Lemma App_fetch_idle {cc : OpenCC} {pe : ProcessEnv} (r : State) (c : jsstring) :
  idle (App.fetchInsights r c).
Proof.
  unfold App.fetchInsights. destruct (negb (truthy c)); simpl; auto.
Qed.

Lemma BoardApp_fetch_idle (r : State) (c : jsstring) :
  idle (BoardApp.fetchInsights r c).
Proof.
  unfold BoardApp.fetchInsights. destruct (negb (truthy c)); simpl; auto.
Qed.

Lemma App_rerender_exclusive {cc : OpenCC} {pe : ProcessEnv} (b : State) (s : Sys) :
  exclusive s -> exclusive (App.rerender b s).
Proof.
  intros E. unfold App.rerender. destruct (_ || _); [|exact E].
  apply exclusive_idle; [apply App_fetch_idle | exact E].
Qed.

Lemma BoardApp_rerender_exclusive (b : State) (s : Sys) :
  exclusive s -> exclusive (BoardApp.rerender b s).
Proof.
  intros E. unfold BoardApp.rerender. destruct (negb _); [|exact E].
  apply exclusive_idle; [apply BoardApp_fetch_idle | exact E].
Qed.

Ltac split_ifs :=
  repeat (match goal with |- context [if ?b then _ else _] => destruct b end).

Ltac idle_handler :=
  split_ifs; simpl; auto;
  try (split; [reflexivity|]; intros _;
       unfold App.handleNext, BoardApp.handleNext; split_ifs; simpl; auto).

(** The handlers other than [playPronunciation] are idle. *)
Lemma App_handlers_idle {cc : OpenCC} {pe : ProcessEnv} (r : State) :
  idle (App.handleUpdateText r) /\ idle (App.handleNext r) /\
  idle (App.handlePrev r) /\ idle (App.onQuizComplete r) /\
  forall t, idle (App.handleToggleSimplified t).
Proof.
  unfold App.handleUpdateText, App.handleNext, App.handlePrev,
    App.onQuizComplete, App.handleToggleSimplified.
  split; [|split; [|split; [|split; [|intros t]]]]; idle_handler.
Qed.

Lemma BoardApp_handlers_idle (r : State) :
  idle (BoardApp.handleUpdateText r) /\ idle (BoardApp.handleNext r) /\
  idle (BoardApp.handlePrev r) /\ idle (BoardApp.onQuizComplete r).
Proof.
  unfold BoardApp.handleUpdateText, BoardApp.handleNext, BoardApp.handlePrev,
    BoardApp.onQuizComplete.
  split; [|split; [|split]]; idle_handler.
Qed.

(** Pressing the button on a state that satisfies the invariant. *)
Lemma exclusive_play (play : State -> prog) (s : Sys) :
  (isSpeaking (ui s) = false -> truthy (currentChar (ui s)) = true ->
   exists k, play (ui s) = Do (SetIsSpeaking true) k /\ settles k) ->
  (isSpeaking (ui s) = true \/ truthy (currentChar (ui s)) = false ->
   play (ui s) = Done) ->
  exclusive s -> exclusive (exec (play (ui s)) s).
Proof.
  intros D G [T C].
  destruct (isSpeaking (ui s)) eqn:F.
  - rewrite G by auto. simpl. split; [exact T | now rewrite F].
  - destruct (truthy (currentChar (ui s))) eqn:N.
    + destruct (D eq_refl eq_refl) as (k & -> & S). simpl.
      apply exclusive_settles; auto.
    + rewrite G by auto. simpl. split; [exact T | now rewrite F].
Qed.

Lemma App_play_guard {cc : OpenCC} {pe : ProcessEnv} (r : State) :
  isSpeaking r = true \/ truthy (currentChar r) = false ->
  App.playPronunciation r = Done.
Proof.
  unfold App.playPronunciation. intros [-> | ->]; [reflexivity|].
  now rewrite orb_true_r.
Qed.

Lemma BoardApp_play_guard (r : State) :
  isSpeaking r = true \/ truthy (currentChar r) = false ->
  BoardApp.playPronunciation r = Done.
Proof.
  unfold BoardApp.playPronunciation. intros [-> | ->]; [reflexivity|].
  now rewrite orb_true_r.
Qed.

(** Every event preserves the invariant. *)
Lemma App_step_exclusive {cc : OpenCC} {pe : ProcessEnv} (e : event) (s : Sys) :
  exclusive s -> exclusive (App.step e s).
Proof.
  intros E. destruct (App_handlers_idle (ui s)) as (Iu & In & Ip & Iq & It).
  destruct e; simpl; unfold App.dispatch;
    try (apply App_rerender_exclusive, exclusive_idle; simpl; auto; fail).
  - destruct (_ <? _)%nat; [|exact E].
    apply App_rerender_exclusive, exclusive_idle; simpl; auto.
  - apply App_rerender_exclusive, exclusive_play; auto.
    + apply App_play_dispatched.
    + apply App_play_guard.
  - destruct (resume i env s) as [[p s']|] eqn:R; [|exact E].
    apply App_rerender_exclusive.
    destruct (exclusive_resume _ _ _ _ _ E R) as [[I E']|(S & T & C & F)].
    + now apply exclusive_idle.
    + now apply exclusive_settles.
Qed.

Lemma BoardApp_step_exclusive (e : event) (s : Sys) :
  exclusive s -> exclusive (BoardApp.step e s).
Proof.
  intros E. destruct (BoardApp_handlers_idle (ui s)) as (Iu & In & Ip & Iq).
  destruct e; simpl; unfold BoardApp.dispatch; try exact E;
    try (apply BoardApp_rerender_exclusive, exclusive_idle; simpl; auto; fail).
  - destruct (_ <? _)%nat; [|exact E].
    apply BoardApp_rerender_exclusive, exclusive_idle; simpl; auto.
  - apply BoardApp_rerender_exclusive, exclusive_play; auto.
    + apply BoardApp_play_dispatched.
    + apply BoardApp_play_guard.
  - destruct (resume i env s) as [[p s']|] eqn:R; [|exact E].
    apply BoardApp_rerender_exclusive.
    destruct (exclusive_resume _ _ _ _ _ E R) as [[I E']|(S & T & C & F)].
    + now apply exclusive_idle.
    + now apply exclusive_settles.
Qed.

Lemma App_run_exclusive {cc : OpenCC} {pe : ProcessEnv} (es : list event) (s : Sys) :
  exclusive s -> exclusive (App.run es s).
Proof.
  revert s. induction es as [|e es IH]; intros s E; [exact E|].
  apply IH, App_step_exclusive, E.
Qed.

Lemma BoardApp_run_exclusive (es : list event) (s : Sys) :
  exclusive s -> exclusive (BoardApp.run es s).
Proof.
  revert s. induction es as [|e es IH]; intros s E; [exact E|].
  apply IH, BoardApp_step_exclusive, E.
Qed.

Lemma mounted_exclusive : exclusive App.mounted /\ exclusive BoardApp.mounted.
Proof.
  split; (split; [|reflexivity]); repeat constructor; simpl; auto.
Qed.

Lemma truthy_nil (c : jsstring) : truthy c = false <-> c = [].
Proof. destruct c; simpl; split; congruence. Qed.

(** What a dispatched [playPronunciation] of [App.tsx] starts with. *)
Lemma App_play_request {cc : OpenCC} {pe : ProcessEnv} (r : State) :
  isSpeaking r = false -> truthy (currentChar r) = true ->
  match App_request r with
  | Some q =>
      speech_query q = true /\
      exists k, App.playPronunciation r = Do (SetIsSpeaking true) (Ask q k) /\
                forall a, settles (k a)
  | None =>
      App.playPronunciation r
      = Do (SetIsSpeaking true) (Do Alert (Do (SetIsSpeaking false) Done))
  end.
Proof.
  intros F T. destruct (App_play_dispatched r F T) as (k0 & E0 & S0).
  revert E0. unfold App.playPronunciation, App_request. rewrite F, T. simpl.
  destruct (useCloudVoice r).
  - destruct API_KEY as [key|]; [|reflexivity].
    destruct (truthy key) eqn:K; simpl; [|reflexivity].
    unfold playCloudTTS. rewrite K. simpl. intros [= <-].
    split; [reflexivity|]. eexists. split; [reflexivity|]. apply S0.
  - intros [= <-]. split; [reflexivity|]. eexists. split; [reflexivity|].
    apply S0.
Qed.

Lemma BoardApp_play_request (r : State) :
  isSpeaking r = false -> truthy (currentChar r) = true ->
  match BoardApp_request r with
  | Some q =>
      speech_query q = true /\
      exists k, BoardApp.playPronunciation r = Do (SetIsSpeaking true) (Ask q k) /\
                forall a, settles (k a)
  | None =>
      BoardApp.playPronunciation r
      = Do (SetIsSpeaking true) (Do Alert (Do (SetIsSpeaking false) Done))
  end.
Proof.
  intros F T. destruct (BoardApp_play_dispatched r F T) as (k0 & E0 & S0).
  revert E0. unfold BoardApp.playPronunciation, BoardApp_request.
  rewrite F, T. simpl. intros [= <-].
  split; [reflexivity|]. eexists. split; [reflexivity|]. apply S0.
Qed.

(** Raising the flag leaves the active character and the script as they
    are, so no effect runs. *)
Lemma App_rerender_flag {cc : OpenCC} {pe : ProcessEnv} (u : State) (v : bool)
    (ts : list task) :
  App.rerender u {| ui := perform (SetIsSpeaking v) u; tasks := ts |}
  = {| ui := perform (SetIsSpeaking v) u; tasks := ts |}.
Proof.
  unfold App.rerender. simpl.
  change (currentChar (perform (SetIsSpeaking v) u)) with (currentChar u).
  now rewrite same_string_refl, eqb_reflx.
Qed.

Lemma BoardApp_rerender_flag (u : State) (v : bool) (ts : list task) :
  BoardApp.rerender u {| ui := perform (SetIsSpeaking v) u; tasks := ts |}
  = {| ui := perform (SetIsSpeaking v) u; tasks := ts |}.
Proof.
  unfold BoardApp.rerender. simpl.
  change (currentChar (perform (SetIsSpeaking v) u)) with (currentChar u).
  now rewrite same_string_refl.
Qed.

Lemma flag_up_and_down (u : State) :
  isSpeaking u = false ->
  perform (SetIsSpeaking false) (perform Alert (perform (SetIsSpeaking true) u))
  = u.
Proof. destruct u. simpl. now intros ->. Qed.

Lemma exclusive_play_guarded (play : State -> prog)
    (request : State -> option query) (press : Sys -> Sys) (s : Sys) :
  (forall r, isSpeaking r = false -> truthy (currentChar r) = true ->
     match request r with
     | Some q =>
         speech_query q = true /\
         exists k, play r = Do (SetIsSpeaking true) (Ask q k) /\
                   forall a, settles (k a)
     | None =>
         play r = Do (SetIsSpeaking true) (Do Alert (Do (SetIsSpeaking false) Done))
     end) ->
  (forall r, isSpeaking r = true \/ truthy (currentChar r) = false ->
     play r = Done) ->
  (play (ui s) = Done -> press s = s) ->
  (forall q k, play (ui s) = Do (SetIsSpeaking true) (Ask q k) ->
     press s = {| ui := perform (SetIsSpeaking true) (ui s);
                  tasks := tasks s ++ [Suspended q k] |}) ->
  (isSpeaking (ui s) = false ->
   play (ui s) = Do (SetIsSpeaking true) (Do Alert (Do (SetIsSpeaking false) Done)) ->
   press s = s) ->
  exclusive s -> play_guarded play request press s.
Proof.
  intros D G P A R [T C]. unfold play_guarded.
  split; [destruct (isSpeaking (ui s)); lia|].
  split; [destruct (isSpeaking (ui s)); split; intros; congruence || lia|].
  split.
  - intros Hg. assert (play (ui s) = Done) as Hd.
    { apply G. destruct Hg as [?|Hn]; [auto|right; now apply truthy_nil]. }
    auto.
  - intros F N.
    assert (Tc : truthy (currentChar (ui s)) = true).
    { destruct (truthy (currentChar (ui s))) eqn:Tc; [reflexivity|].
      now apply truthy_nil in Tc. }
    specialize (D (ui s) F Tc). destruct (request (ui s)) as [q|].
    + destruct D as (Q & k & E & S). split; [exact Q|].
      exists k. split; [exact E|]. split; [exact S|].
      rewrite (A q k E). simpl. split; [reflexivity|]. split; [reflexivity|].
      rewrite in_flight_app. simpl. rewrite Q, C, F. reflexivity.
    + split; [exact D | now apply R].
Qed.

(** C7. In every state the component can reach, in both versions of
    [App]: at most one pronunciation request is in flight, and none exactly
    when the flag is down, so once the request in flight has completed, by
    success or by error, the flag is down again; while the flag is up or
    there is no active character [playPronunciation] does nothing and
    pressing the button leaves the whole component as it is; otherwise, so
    also after an earlier request has completed, the press dispatches: the
    handler raises the flag and then sends the request for the active
    character, the [fetch] of the cloud voice, the utterance of the local
    voice or the [generateSpeech] call of the earlier [App], after which the
    flag is up and that request is the one in flight. The one press that
    sends nothing is the cloud voice without a key, which raises the flag,
    alerts, clears the flag and leaves the component as it was. *)
Theorem pronounce_one_request_at_a_time {cc : OpenCC} {pe : ProcessEnv}
    (es : list event) :
  play_guarded App.playPronunciation App_request (App.step ClickPlay)
    (App.run es App.mounted) /\
  play_guarded BoardApp.playPronunciation BoardApp_request
    (BoardApp.step ClickPlay) (BoardApp.run es BoardApp.mounted).
Proof.
  destruct mounted_exclusive as [Ma Mb]. split.
  - apply exclusive_play_guarded.
    + apply App_play_request.
    + apply App_play_guard.
    + intros Hd. simpl. rewrite Hd. apply App_dispatch_Done.
    + intros q k E. simpl. rewrite E. unfold App.dispatch. simpl.
      apply App_rerender_flag.
    + intros F E. simpl. rewrite E. unfold App.dispatch. cbn [exec ui tasks].
      rewrite (flag_up_and_down _ F).
      destruct (App.run es App.mounted) as [u ts]. apply App_dispatch_Done.
    + apply App_run_exclusive, Ma.
  - apply exclusive_play_guarded.
    + apply BoardApp_play_request.
    + apply BoardApp_play_guard.
    + intros Hd. simpl. rewrite Hd. apply BoardApp_dispatch_Done.
    + intros q k E. simpl. rewrite E. unfold BoardApp.dispatch. simpl.
      apply BoardApp_rerender_flag.
    + intros F E. simpl. rewrite E. unfold BoardApp.dispatch. cbn [exec ui tasks].
      rewrite (flag_up_and_down _ F).
      destruct (BoardApp.run es BoardApp.mounted) as [u ts].
      apply BoardApp_dispatch_Done.
    + apply BoardApp_run_exclusive, Mb.
Qed.

(** A run of [App.tsx] with the local voice: the first press dispatches,
    a second press while the utterance plays changes nothing, and once the
    utterance has ended the next press dispatches again. *)
Example pronounce_again_after_completion :
  let press := App.step (cc := sample_converters) (pe := with_key) ClickPlay in
  let s1 := press App.mounted in
  let s2 := App.step (cc := sample_converters) (pe := with_key)
              (Settle 1 obliging) s1 in
  (isSpeaking (ui s1) = true /\ speech_in_flight (tasks s1) = 1%nat) /\
  press s1 = s1 /\
  (isSpeaking (ui s2) = false /\ speech_in_flight (tasks s2) = 0%nat) /\
  (isSpeaking (ui (press s2)) = true /\
   speech_in_flight (tasks (press s2)) = 1%nat /\
   tasks (press s2) !! 1%nat
   = Some (Suspended (local_request (ui s2))
             (fun p : playback =>
                match p with
                | Threw _ =>
                    Do (ConsoleLog (js "Pronunciation Error:"))
                      (Do (SetIsSpeaking false) Done)
                | Ended => Do (SetIsSpeaking false) Done
                | Errored =>
                    Do (ConsoleLog (js "TTS Error:"))
                      (Do (SetIsSpeaking false) Done)
                end))).
Proof. cbv zeta. repeat split; reflexivity. Qed.

(** ** The retry wrapper *)

Section RetryFacts.
Context {W T : Type}.
Variable idle_world : Z -> W -> W.

(** The recursion bound is never the reason to stop: [withRetry] satisfies
    the equation of the source. *)
Lemma withRetry_unfold (fn : W -> outcome T * W) (retries delay : Z) (w : W) :
  withRetry idle_world fn retries delay w =
  match fn w with
  | (Resolved v, w1) => (Resolved v, w1, [Attempt (Resolved v)])
  | (Rejected e, w1) =>
      if (0 <? retries) && rate_limited e then
        let '(r, w2, log) :=
          withRetry idle_world fn (retries - 1) (delay * 2)
            (idle_world delay w1) in
        (r, w2, Attempt (Rejected e) :: Sleep delay :: log)
      else (Rejected e, w1, [Attempt (Rejected e)])
  end.
Proof.
  unfold withRetry.
  destruct (Z.to_nat retries) as [|n] eqn:N; simpl;
    destruct (fn w) as [[v|e] w1]; try reflexivity.
  - destruct (0 <? retries) eqn:G; [apply Z.ltb_lt in G; lia | reflexivity].
  - destruct ((0 <? retries) && rate_limited e); [|reflexivity].
    replace (Z.to_nat (retries - 1)) with n by lia. reflexivity.
Qed.

Lemma attempts_retry_log (d : Z) (es : list error) (o : outcome T) :
  attempts (retry_log d es o) = Z.of_nat (length es) + 1.
Proof.
  revert d. induction es as [|e es IH]; intros d; simpl; [reflexivity|].
  rewrite IH. lia.
Qed.

Lemma delays_retry_log (d : Z) (es : list error) (o : outcome T) :
  delays (retry_log d es o) = doubling d (length es).
Proof.
  revert d. induction es as [|e es IH]; intros d; simpl; [reflexivity|].
  now rewrite IH.
Qed.

(** The shape of every run: some rate-limited failures, each followed by
    its delay, then one last attempt whose outcome is the result. *)
Lemma withRetry_shape (n : nat) :
  forall (fn : W -> outcome T * W) (retries d : Z) (w : W),
  Z.to_nat retries = n ->
  exists (es : list error) (o : outcome T),
    (withRetry idle_world fn retries d w).2 = retry_log d es o /\
    (withRetry idle_world fn retries d w).1.1 = o /\
    Forall (fun e => rate_limited e = true) es /\
    Z.of_nat (length es) <= Z.max 0 retries /\
    (forall e, o = Rejected e ->
       rate_limited e = false \/ retries <= Z.of_nat (length es)).
Proof.
  induction n as [|n IH]; intros fn retries d w N;
    rewrite withRetry_unfold; destruct (fn w) as [[v|e] w1].
  - exists [], (Resolved v). simpl. repeat split; auto; try lia; discriminate.
  - destruct (0 <? retries) eqn:G; [apply Z.ltb_lt in G; lia|]. simpl.
    exists [], (Rejected e). simpl. apply Z.ltb_ge in G.
    repeat split; auto; try lia.
  - exists [], (Resolved v). simpl. repeat split; auto; try lia; discriminate.
  - destruct (0 <? retries) eqn:G; simpl.
    + destruct (rate_limited e) eqn:R.
      * destruct (IH fn (retries - 1) (d * 2) (idle_world d w1) ltac:(lia))
          as (es & o & L & O & F & B & P).
        destruct (withRetry idle_world fn (retries - 1) (d * 2)
                    (idle_world d w1)) as [[r w2] log].
        simpl in *. exists (e :: es), o. subst. simpl.
        apply Z.ltb_lt in G.
        repeat split; auto; try lia.
        intros e' E. destruct (P e' E); [auto | right; lia].
      * exists [], (Rejected e). simpl. repeat split; auto; try lia.
        intros e' E. injection E as <-. auto.
    + exists [], (Rejected e). simpl. apply Z.ltb_ge in G.
      repeat split; auto; try lia.
Qed.

End RetryFacts.

(** A scripted operation that fails with the rate-limit signal for each of
    [es] and then settles as [o] is retried through all of [es] when the
    budget covers them, and [o] is the result when it is a success, a
    failure without the signal, or the failure that exhausts the budget. *)
Lemma withRetry_scripted {T} (dflt : outcome T) (es : list error) :
  forall (o : outcome T) (rest : list (outcome T)) (retries d : Z),
  Forall (fun e => rate_limited e = true) es ->
  Z.of_nat (length es) <= retries ->
  match o with
  | Resolved _ => True
  | Rejected e => rate_limited e = false \/ Z.of_nat (length es) = retries
  end ->
  withRetry (fun _ w => w) (scripted dflt) retries d
    (map Rejected es ++ o :: rest)
  = (o, rest, retry_log d es o).
Proof.
  induction es as [|e es IH]; intros o rest retries d F B P;
    rewrite withRetry_unfold; simpl.
  - destruct o as [v|e]; [reflexivity|].
    destruct P as [-> | <-]; [now rewrite andb_false_r | reflexivity].
  - inversion F as [|? ? R F']; subst. rewrite R.
    simpl in B. destruct (0 <? retries) eqn:G;
      [|apply Z.ltb_ge in G; lia]. simpl.
    rewrite (IH o rest (retries - 1) (d * 2) F'); [reflexivity | lia |].
    destruct o as [v|e']; [exact I|].
    destruct P as [P|P]; [auto | right; simpl in P; lia].
Qed.

(** C2. For a budget [retries >= 0] and a first delay [d]: the run of
    [withRetry] is a sequence of failed attempts that all carry the
    rate-limit signal, each followed by a delay, and one last attempt; there
    are at most [retries + 1] attempts; the delays are [d, 2d, 4d, ...]; the
    result is the outcome of the last attempt unchanged, and a failure is
    the result only when it lacks the signal or the budget is used up. An
    operation that fails with the signal [k <= retries] times and then
    succeeds yields that success after exactly [k] delays, and one that
    keeps failing yields its failure number [retries + 1]. *)
Theorem withRetry_backoff {W T : Type} (idle_world : Z -> W -> W)
    (fn : W -> outcome T * W) (retries d : Z) (w : W) :
  0 <= retries ->
  (exists (es : list error) (o : outcome T),
     (withRetry idle_world fn retries d w).2 = retry_log d es o /\
     (withRetry idle_world fn retries d w).1.1 = o /\
     Forall (fun e => rate_limited e = true) es /\
     attempts (withRetry idle_world fn retries d w).2
       = Z.of_nat (length es) + 1 /\
     attempts (withRetry idle_world fn retries d w).2 <= retries + 1 /\
     delays (withRetry idle_world fn retries d w).2 = doubling d (length es) /\
     (forall e, o = Rejected e ->
        rate_limited e = false \/ Z.of_nat (length es) = retries)) /\
  (forall (dflt : outcome T) (es : list error) (v : T) (rest : list (outcome T)),
     Forall (fun e => rate_limited e = true) es ->
     Z.of_nat (length es) <= retries ->
     withRetry (fun _ s => s) (scripted dflt) retries d
       (map Rejected es ++ Resolved v :: rest)
     = (Resolved v, rest, retry_log d es (Resolved v)) /\
     delays (retry_log (T := T) d es (Resolved v)) = doubling d (length es)) /\
  (forall (dflt : outcome T) (es : list error) (e : error) (rest : list (outcome T)),
     Forall (fun e => rate_limited e = true) es ->
     Z.of_nat (length es) = retries ->
     withRetry (fun _ s => s) (scripted dflt) retries d
       (map Rejected es ++ Rejected e :: rest)
     = (Rejected e, rest, retry_log d es (Rejected e)) /\
     attempts (retry_log (T := T) d es (Rejected e)) = retries + 1).
Proof.
  intros B. split; [|split].
  - destruct (withRetry_shape idle_world _ fn retries d w eq_refl)
      as (es & o & L & O & F & Bd & P).
    exists es, o. rewrite L, attempts_retry_log, delays_retry_log.
    repeat split; auto; try lia.
    intros e E. destruct (P e E); [auto | right; lia].
  - intros dflt es v rest F Bd. split.
    + apply withRetry_scripted; auto.
    + apply delays_retry_log.
  - intros dflt es e rest F Bd. split.
    + apply withRetry_scripted; auto. lia.
    + rewrite attempts_retry_log. lia.
Qed.

Lemma withRetry_backoff_witness :
  0 <= 1 /\
  withRetry (fun _ s => s) (scripted (Rejected (Error (js "Error") None))) 1 1000
    [Rejected (Error (js "Error") (Some (js "got status: 429 Too Many Requests")));
     Resolved 7]
  = (Resolved 7, [],
     [Attempt (Rejected (Error (js "Error")
                           (Some (js "got status: 429 Too Many Requests"))));
      Sleep 1000; Attempt (Resolved 7)]).
Proof.
  split; [lia|].
  refine (proj1 (proj1 (proj2 (@withRetry_backoff (list (outcome Z)) Z
            (fun _ s => s) (scripted (Rejected (Error (js "Error") None)))
            1 1000 [] _)) (Rejected (Error (js "Error") None))
            [Error (js "Error") (Some (js "got status: 429 Too Many Requests"))]
            7 [] _ _)).
  - lia.
  - repeat constructor.
  - simpl. lia.
Defined.

(** ** The PCM decoder *)

Lemma int16_range (lo hi : Byte.byte) : -32768 <= int16 lo hi < 32768.
Proof.
  unfold int16.
  pose proof (Byte.to_N_bounded lo). pose proof (Byte.to_N_bounded hi).
  destruct (_ <? _) eqn:E; [apply Z.ltb_lt in E | apply Z.ltb_ge in E]; lia.
Qed.

(** The view has half as many elements as there are bytes, and element [j]
    is made of bytes [2j] (low) and [2j + 1] (high). *)
Lemma Int16Array_lookup (data : list Byte.byte) :
  forall (j : nat) (v : Z),
  Int16Array data !! j = Some v ->
  exists lo hi, data !! (2 * j)%nat = Some lo /\
                data !! (2 * j + 1)%nat = Some hi /\ v = int16 lo hi.
Proof.
  induction data as [data IH] using (well_founded_induction
    (well_founded_ltof _ (@length Byte.byte))).
  intros j v E. destruct data as [|lo [|hi r]]; simpl in E; try discriminate.
  destruct j as [|j]; simpl in E.
  - injection E as <-. exists lo, hi. auto.
  - destruct (IH r ltac:(unfold ltof; simpl; lia) j v E) as (l & h & A & B & C).
    exists l, h. replace (2 * S j)%nat with (S (S (2 * j))) by lia.
    simpl. auto.
Qed.

Lemma Int16Array_range (data : list Byte.byte) (j : nat) (v : Z) :
  Int16Array data !! j = Some v -> -32768 <= v < 32768.
Proof.
  intros E. destruct (Int16Array_lookup data j v E) as (lo & hi & _ & _ & ->).
  apply int16_range.
Qed.

Lemma fill_channel_length d nc c (iters : nat) :
  forall i cd, length (fill_channel d nc c i iters cd) = length cd.
Proof.
  induction iters as [|n IH]; intros i cd; simpl; [reflexivity|].
  now rewrite IH, length_insert.
Qed.

(** After the loop, cell [j] holds the normalized sample when the loop
    reached it, and what it held before otherwise. *)
Lemma fill_channel_lookup d nc c (iters : nat) :
  forall (i : nat) (cd : list f32) (j : nat),
  (j < length cd)%nat ->
  fill_channel d nc c i iters cd !! j =
  if decide (i <= j < i + iters)%nat
  then Some (normalized d (j * nc + c))
  else cd !! j.
Proof.
  induction iters as [|n IH]; intros i cd j L; simpl.
  - destruct (decide _); [lia | reflexivity].
  - rewrite IH by now rewrite length_insert.
    destruct (decide (S i <= j < S i + n)%nat), (decide (i <= j < i + S n)%nat);
      try lia; try reflexivity.
    + assert (j = i) as -> by lia. now rewrite list_lookup_insert_eq.
    + now rewrite list_lookup_insert_ne by lia.
Qed.

Lemma unit_range_of_sample (v : Z) :
  -32768 <= v < 32768 -> in_unit_range (Val (v # 32768)).
Proof. intros R. simpl. unfold Qle, Qlt. simpl. lia. Qed.

(** C6. For [numChannels >= 1] and a buffer whose number of 16-bit samples
    is a multiple of [numChannels], [decodeAudioData] yields [numChannels]
    channels of [frameCount = samples / numChannels] cells each; cell [i]
    of channel [c] is the little-endian signed 16-bit sample at interleaved
    position [i * numChannels + c] over 32768; and every cell lies in
    [[-1, 1)]. *)
Theorem decodeAudioData_channels (data : list Byte.byte)
    (sampleRate numChannels : Z) :
  0 < numChannels ->
  Z.of_nat (length (Int16Array data)) mod numChannels = 0 ->
  let out := decodeAudioData data sampleRate numChannels in
  let frameCount := Z.of_nat (length (Int16Array data)) / numChannels in
  Z.of_nat (length out) = numChannels /\
  (forall (c : nat) (ch : list f32),
     out !! c = Some ch -> Z.of_nat (length ch) = frameCount) /\
  (forall (c i : nat) (ch : list f32) (x : f32),
     out !! c = Some ch -> ch !! i = Some x ->
     exists (v : Z) (lo hi : Byte.byte),
       data !! (2 * (i * Z.to_nat numChannels + c))%nat = Some lo /\
       data !! (2 * (i * Z.to_nat numChannels + c) + 1)%nat = Some hi /\
       Int16Array data !! (i * Z.to_nat numChannels + c)%nat = Some v /\
       v = int16 lo hi /\
       x = Val (v # 32768) /\
       in_unit_range x).
Proof.
  intros Hn Hm out frameCount. subst out frameCount. unfold decodeAudioData.
  set (d := Int16Array data) in *.
  set (len := Z.of_nat (length d)) in *.
  assert (Hd : len = numChannels * (len / numChannels))
    by (apply Z.div_exact; lia).
  assert (Hc : (len + numChannels - 1) / numChannels = len / numChannels).
  { rewrite Hd at 1.
    replace (numChannels * (len / numChannels) + numChannels - 1)
      with ((numChannels - 1) + (len / numChannels) * numChannels) by lia.
    rewrite Z.div_add by lia. rewrite Z.div_small by lia. lia. }
  rewrite Hc.
  assert (Hq : 0 <= len / numChannels) by (apply Z.div_pos; lia).
  split; [|split].
  - rewrite length_map, length_seq. lia.
  - intros c ch E. apply list_lookup_fmap_Some in E as (c' & -> & E').
    rewrite fill_channel_length, length_replicate. lia.
  - intros c i ch x E Ei.
    apply list_lookup_fmap_Some in E as (c' & -> & E').
    apply lookup_seq in E' as [-> Lc]. simpl in Ei.
    assert (Li : (i < Z.to_nat (len / numChannels))%nat).
    { apply lookup_lt_Some in Ei.
      now rewrite fill_channel_length, length_replicate in Ei. }
    rewrite fill_channel_lookup in Ei by now rewrite length_replicate.
    destruct (decide _) as [_|N]; [|lia]. injection Ei as <-.
    unfold normalized.
    assert (Lj : (i * Z.to_nat numChannels + c < length d)%nat).
    { apply Nat2Z.inj_lt. fold len. rewrite Hd.
      rewrite Nat2Z.inj_add, Nat2Z.inj_mul, Z2Nat.id by lia.
      assert (Z.of_nat i + 1 <= len / numChannels) by lia.
      nia. }
    destruct (d !! (i * Z.to_nat numChannels + c)%nat) as [v|] eqn:Ev;
      [|apply lookup_ge_None in Ev; lia].
    destruct (Int16Array_lookup data _ _ Ev) as (lo & hi & A & B & C).
    exists v, lo, hi. repeat split; auto.
    + apply unit_range_of_sample. subst v. apply int16_range.
    + apply unit_range_of_sample. subst v. apply int16_range.
Qed.

Lemma decodeAudioData_channels_witness :
  0 < 2 /\
  Z.of_nat (length (Int16Array
    [Byte.x00; Byte.x00; Byte.x00; Byte.x40;
     Byte.x00; Byte.xc0; Byte.xff; Byte.x7f])) mod 2 = 0 /\
  decodeAudioData
    [Byte.x00; Byte.x00; Byte.x00; Byte.x40;
     Byte.x00; Byte.xc0; Byte.xff; Byte.x7f] 24000 2
  = [[Val (0 # 32768); Val (-16384 # 32768)];
     [Val (16384 # 32768); Val (32767 # 32768)]] /\
  Z.of_nat (length (decodeAudioData
    [Byte.x00; Byte.x00; Byte.x00; Byte.x40;
     Byte.x00; Byte.xc0; Byte.xff; Byte.x7f] 24000 2)) = 2.
Proof.
  split; [lia|]. split; [reflexivity|]. split; [reflexivity|].
  refine (proj1 (decodeAudioData_channels
    [Byte.x00; Byte.x00; Byte.x00; Byte.x40;
     Byte.x00; Byte.xc0; Byte.xff; Byte.x7f] 24000 2 _ _)).
  - lia.
  - reflexivity.
Defined.

(** ** The insight service *)

Section InsightFacts.
Context {W : Type} {pe : ProcessEnv} {rm : Remote W}.

(** Without a key or without a character nothing happens at all. *)
Lemma insights_guard (c : jsstring) (s : Service W) :
  has_key = false \/ c = [] -> getCharacterInsights c s = (None, s, []).
Proof.
  unfold getCharacterInsights. intros [-> | ->]; [reflexivity|].
  now rewrite orb_true_r.
Qed.

(** [getCharacterInsights] is the call that runs alone, with a parser that
    yields objects only: it is [Gemini.enter] followed, on a miss, by
    [Gemini.resume] on what [withRetry] yields, with no other call in
    between. *)
Lemma lone_call_agrees {pa : Gemini.Parser} (c : jsstring) (s : Service W) :
  (forall t, Gemini.JSON_parse t = Gemini.JObject <$> JSON_parse t) ->
  match Gemini.enter c (Gemini.JObject <$> insightsCache s) with
  | Gemini.Resolves v =>
      v = Gemini.of_info (getCharacterInsights c s).1.1 /\
      (getCharacterInsights c s).1.2 = s /\
      (getCharacterInsights c s).2 = []
  | Gemini.Awaits =>
      let r := withRetry_default during_delay (generateContent c) (net s) in
      (Gemini.resume c r.1.1 (Gemini.JObject <$> insightsCache s)).1
      = (inr (Gemini.of_info (getCharacterInsights c s).1.1),
         Gemini.JObject <$> insightsCache (getCharacterInsights c s).1.2) /\
      net (getCharacterInsights c s).1.2 = r.1.2 /\
      (getCharacterInsights c s).2
      = svc_log c r.2
        ++ match (Gemini.resume c r.1.1 (Gemini.JObject <$> insightsCache s)).2
           with
           | [] => []
           | _ => [ConsoleError insights_label]
           end
  end.
Proof.
  intros O. unfold Gemini.enter, getCharacterInsights.
  destruct (negb has_key || negb (truthy c)); [auto|].
  rewrite lookup_fmap.
  destruct (insightsCache s !! c) as [cached|] eqn:L; simpl; [auto|].
  destruct (withRetry_default _ _ _) as [[[resp|e] w] log];
    unfold Gemini.resume, Gemini.try_block; simpl; [|auto].
  destruct (text resp) as [t|]; [|auto].
  rewrite O. destruct (JSON_parse (trim t)) as [result|]; simpl; [|auto].
  rewrite fmap_insert, app_nil_r. auto.
Qed.

End InsightFacts.

Ltac in_list :=
  repeat match goal with
  | H : _ ∈ _ ++ _ |- _ => apply elem_of_app in H as [H|H]
  | H : _ ∈ _ :: _ |- _ => apply elem_of_cons in H as [H|H]
  | H : _ ∈ [] |- _ => apply elem_of_nil in H; contradiction
  end.

Section GeminiFacts.
Context {pe : ProcessEnv} {pa : Gemini.Parser}.
Import Gemini.

Lemma enter_hit (c : jsstring) (v : json) (cache : gmap jsstring json) :
  has_key = true -> truthy c = true -> cache !! c = Some v ->
  truthy_json v = true -> enter c cache = Resolves v.
Proof. intros K T L V. unfold enter. now rewrite K, T, L, V. Qed.

Lemma enter_guard (c : jsstring) (cache : gmap jsstring json) :
  has_key = false \/ c = [] -> enter c cache = Resolves JNull.
Proof.
  unfold enter. intros [-> | ->]; [reflexivity | now rewrite orb_true_r].
Qed.

(** The promise of a call is never rejected: the [catch] takes whatever
    the [try] block throws. *)
Lemma resume_fulfilled (c : jsstring) (r : outcome response)
    (cache : gmap jsstring json) :
  exists v, (resume c r cache).1.1 = inr v.
Proof.
  unfold resume. destruct (try_block c r cache) as [t|[v cache']]; simpl; eauto.
Qed.

(** What one step does to an entry: nothing, unless it settles a call for
    that character with a text that parses, whose value it writes. *)
Lemma step_entry (e : input) (s : Service) (k : jsstring) :
  insightsCache (step e s).1 !! k = insightsCache s !! k \/
  exists i r resp t v,
    e = Settle i r /\ awaiting s !! i = Some k /\
    r = Resolved resp /\ text resp = Some t /\ JSON_parse (trim t) = Some v /\
    insightsCache (step e s).1 !! k = Some v.
Proof.
  destruct e as [c|i r]; simpl.
  - destruct (enter c (insightsCache s)); auto.
  - destruct (awaiting s !! i) as [c|] eqn:A; [|auto].
    unfold resume, try_block. destruct r as [resp|e]; simpl; [|auto].
    destruct (text resp) as [t|] eqn:Tx; simpl; [|auto].
    destruct (JSON_parse (trim t)) as [v|] eqn:P; simpl; [|auto].
    destruct (decide (k = c)) as [->|N].
    + right. exists i, (Resolved resp), resp, t, v.
      rewrite lookup_insert_eq. auto 7.
    + left. now rewrite lookup_insert_ne by congruence.
Qed.

Lemma step_keeps_keys (e : input) (s : Service) (k : jsstring) :
  is_Some (insightsCache s !! k) -> is_Some (insightsCache (step e s).1 !! k).
Proof.
  intros I. destruct (step_entry e s k) as [-> | (i & r & resp & t & v & H)];
    [exact I|].
  destruct H as (_ & _ & _ & _ & _ & ->). eauto.
Qed.

Lemma run_keeps_keys (es : list input) :
  forall (s : Service) (k : jsstring),
  is_Some (insightsCache s !! k) -> is_Some (insightsCache (run es s).1 !! k).
Proof.
  induction es as [|e es IH]; intros s k I; simpl; [exact I|].
  apply IH, step_keeps_keys, I.
Qed.

(** A truthy entry with no call for its character waiting is stable: a
    step leaves it, starts no call that waits for the character, sends no
    request for it, and a call for it returns the entry. *)
Lemma step_settled_entry (e : input) (s : Service) (c : jsstring) (v : json) :
  has_key = true -> truthy c = true -> truthy_json v = true ->
  insightsCache s !! c = Some v -> c ∉ awaiting s ->
  insightsCache (step e s).1 !! c = Some v /\
  (c ∉ awaiting (step e s).1) /\
  (Request c ∉ (step e s).2) /\
  (forall v', Returns c v' ∈ (step e s).2 -> v' = v).
Proof.
  intros K T V L A. destruct e as [c'|i r]; simpl.
  - destruct (decide (c' = c)) as [->|N].
    + rewrite (enter_hit c v _ K T L V). simpl.
      split; [exact L|]. split; [exact A|].
      split; [intros H | intros v' H]; in_list; congruence.
    + destruct (enter c' (insightsCache s)); simpl;
        (split; [exact L|]);
        (split; [try exact A; intros H; in_list; congruence|]);
        (split; [intros H | intros v' H]); in_list; congruence.
  - destruct (awaiting s !! i) as [c'|] eqn:E; simpl.
    + assert (N : c' <> c).
      { intros ->. apply A. eapply list_elem_of_lookup_2, E. }
      unfold resume, try_block.
      destruct r as [resp|e]; simpl;
        [destruct (text resp) as [t|]; simpl;
         [destruct (JSON_parse (trim t)) as [v1|]; simpl|]|];
        (split; [try exact L; now rewrite lookup_insert_ne by congruence|]);
        (split; [intros H; apply A; eapply list_elem_of_delete_inv, H|]);
        (split; [intros H | intros v' H]); in_list; congruence.
    + split; [exact L|]. split; [exact A|].
      split; [intros H | intros v' H]; in_list.
Qed.

Lemma run_settled_entry (es : list input) :
  forall (s : Service) (c : jsstring) (v : json),
  has_key = true -> truthy c = true -> truthy_json v = true ->
  insightsCache s !! c = Some v -> c ∉ awaiting s ->
  insightsCache (run es s).1 !! c = Some v /\
  (c ∉ awaiting (run es s).1) /\
  (Request c ∉ (run es s).2) /\
  (forall v', Returns c v' ∈ (run es s).2 -> v' = v).
Proof.
  induction es as [|e es IH]; intros s c v K T V L A; simpl.
  - split; [exact L|]. split; [exact A|].
    split; [apply not_elem_of_nil|]. intros v' H. now apply elem_of_nil in H.
  - destruct (step_settled_entry e s c v K T V L A) as (L1 & A1 & R1 & V1).
    destruct (IH (step e s).1 c v K T V L1 A1) as (L2 & A2 & R2 & V2).
    split; [exact L2|]. split; [exact A2|]. split.
    + intros H. apply elem_of_app in H as [H|H]; auto.
    + intros v' H. apply elem_of_app in H as [H|H]; auto.
Qed.

Lemma step_never_throws (e : input) (s : Service) (c : jsstring) (t : thrown) :
  Throws c t ∉ (step e s).2.
Proof.
  destruct e as [c'|i r]; simpl.
  - destruct (enter c' (insightsCache s)); simpl; intros H; in_list;
      discriminate.
  - destruct (awaiting s !! i) as [c'|]; simpl; [|apply not_elem_of_nil].
    unfold resume. destruct (try_block c' r (insightsCache s)) as [t'|[v ch]];
      simpl; intros H; in_list; discriminate.
Qed.

Lemma run_never_throws (es : list input) :
  forall (s : Service) (c : jsstring) (t : thrown), Throws c t ∉ (run es s).2.
Proof.
  induction es as [|e es IH]; intros s c t; simpl; [apply not_elem_of_nil|].
  intros H. apply elem_of_app in H as [H|H].
  - now apply step_never_throws in H.
  - now apply IH in H.
Qed.

End GeminiFacts.

(** C8, as stated, fails when two calls for one character overlap. Toggling
    the script while the first fetch of [App.tsx] is in flight starts a
    second fetch for the same character. Both calls miss the cache and both
    send a request; the first response is stored and returned; the second
    response then replaces the stored entry, and a later call returns the
    second value, not the first one. *)
Lemma insights_overlapping_calls_counterexample :
  let c := [27704]%N in
  let first := Resolved {| text := Some bare_document |} in
  let second := Resolved {| text := Some second_document |} in
  let run := Gemini.run (pe := with_key) (pa := sample_parser) in
  let stored := run [Gemini.Call c; Gemini.Call c; Gemini.Settle 0 first]
                  Gemini.fresh in
  let replaced := run [Gemini.Settle 0 second] stored.1 in
  tasks (App.step (cc := sample_converters) (pe := with_key)
           (ClickSimplified true) App.mounted)
  = [fetch_task c; fetch_task c] /\
  stored.2 = [Gemini.Request c; Gemini.Request c;
              Gemini.Returns c (Gemini.JObject bare_info)] /\
  Gemini.insightsCache stored.1 !! c = Some (Gemini.JObject bare_info) /\
  Gemini.insightsCache replaced.1 !! c = Some (Gemini.JObject second_info) /\
  (run [Gemini.Call c] replaced.1).2
  = [Gemini.Returns c (Gemini.JObject second_info)] /\
  Gemini.JObject second_info <> Gemini.JObject bare_info.
Proof.
  cbv zeta.
  split; [vm_compute; reflexivity|]. split; [vm_compute; reflexivity|].
  split; [vm_compute; reflexivity|]. split; [vm_compute; reflexivity|].
  split; [vm_compute; reflexivity|]. discriminate.
Qed.

(** C8, amended. An entry of the cache is never evicted, and a step
    changes it only by settling a call for its character with a text that
    parses, whose value it writes. A call for a character whose entry is
    truthy returns the entry and does nothing else. Once a truthy value is
    stored for a character and no call for that character is waiting for its
    response, this stays so whatever calls start and settle afterwards: the
    entry is the same, every call for the character returns it, and no
    request for the character is sent. *)
Theorem insights_served_from_cache {pe : ProcessEnv} {pa : Gemini.Parser} :
  (forall (es : list Gemini.input) (s : Gemini.Service) (k : jsstring),
     is_Some (Gemini.insightsCache s !! k) ->
     is_Some (Gemini.insightsCache (Gemini.run es s).1 !! k)) /\
  (forall (e : Gemini.input) (s : Gemini.Service) (k : jsstring),
     Gemini.insightsCache (Gemini.step e s).1 !! k
     = Gemini.insightsCache s !! k \/
     exists i r resp t v,
       e = Gemini.Settle i r /\ Gemini.awaiting s !! i = Some k /\
       r = Resolved resp /\ text resp = Some t /\
       Gemini.JSON_parse (trim t) = Some v /\
       Gemini.insightsCache (Gemini.step e s).1 !! k = Some v) /\
  (forall (c : jsstring) (v : Gemini.json) (s : Gemini.Service),
     has_key = true -> truthy c = true ->
     Gemini.insightsCache s !! c = Some v -> Gemini.truthy_json v = true ->
     Gemini.step (Gemini.Call c) s = (s, [Gemini.Returns c v])) /\
  (forall (c : jsstring) (v : Gemini.json) (s : Gemini.Service)
          (later : list Gemini.input),
     has_key = true -> truthy c = true ->
     Gemini.insightsCache s !! c = Some v -> Gemini.truthy_json v = true ->
     c ∉ Gemini.awaiting s ->
     Gemini.insightsCache (Gemini.run later s).1 !! c = Some v /\
     (c ∉ Gemini.awaiting (Gemini.run later s).1) /\
     Gemini.step (Gemini.Call c) (Gemini.run later s).1
     = ((Gemini.run later s).1, [Gemini.Returns c v]) /\
     (Gemini.Request c ∉ (Gemini.run later s).2) /\
     (forall v', Gemini.Returns c v' ∈ (Gemini.run later s).2 -> v' = v)).
Proof.
  split; [apply run_keeps_keys|]. split; [apply step_entry|].
  assert (Hit : forall c v s,
    has_key = true -> truthy c = true ->
    Gemini.insightsCache s !! c = Some v -> Gemini.truthy_json v = true ->
    Gemini.step (Gemini.Call c) s = (s, [Gemini.Returns c v])).
  { intros c v s K T L V. simpl. now rewrite (enter_hit c v _ K T L V). }
  split; [exact Hit|].
  intros c v s later K T L V A.
  destruct (run_settled_entry later s c v K T V L A) as (L' & A' & R & Vs).
  auto using Hit.
Qed.

Lemma insights_served_from_cache_witness :
  let c := [27704]%N in
  let s := (Gemini.run (pe := with_key) (pa := sample_parser)
              [Gemini.Call c;
               Gemini.Settle 0 (Resolved {| text := Some bare_document |})]
              Gemini.fresh).1 in
  let later := [Gemini.Call [21644]%N; Gemini.Call c;
                Gemini.Settle 0 (Resolved {| text := Some second_document |});
                Gemini.Call c] in
  (has_key (pe := with_key) = true /\ truthy c = true /\
   Gemini.insightsCache s !! c = Some (Gemini.JObject bare_info) /\
   (c ∉ Gemini.awaiting s)) /\
  Gemini.insightsCache
    (Gemini.run (pe := with_key) (pa := sample_parser) later s).1 !! c
  = Some (Gemini.JObject bare_info) /\
  Gemini.Request c
    ∉ (Gemini.run (pe := with_key) (pa := sample_parser) later s).2.
Proof.
  cbv zeta.
  assert (L : Gemini.insightsCache
                (Gemini.run (pe := with_key) (pa := sample_parser)
                   [Gemini.Call [27704]%N;
                    Gemini.Settle 0 (Resolved {| text := Some bare_document |})]
                   Gemini.fresh).1 !! [27704]%N
              = Some (Gemini.JObject bare_info))
    by (vm_compute; reflexivity).
  assert (A : [27704]%N
              ∉ Gemini.awaiting
                  (Gemini.run (pe := with_key) (pa := sample_parser)
                     [Gemini.Call [27704]%N;
                      Gemini.Settle 0
                        (Resolved {| text := Some bare_document |})]
                     Gemini.fresh).1)
    by (vm_compute; apply not_elem_of_nil).
  split; [split; [reflexivity | split; [reflexivity | split; [exact L | exact A]]]|].
  destruct (proj2 (proj2 (proj2
    (@insights_served_from_cache with_key sample_parser))) [27704]%N
    (Gemini.JObject bare_info) _
    [Gemini.Call [21644]%N; Gemini.Call [27704]%N;
     Gemini.Settle 0 (Resolved {| text := Some second_document |});
     Gemini.Call [27704]%N]
    eq_refl eq_refl L eq_refl A) as (L' & _ & _ & R & _).
  split; [exact L' | exact R].
Defined.

(** C9, as stated, fails on what the remote can answer. A document with
    [char] only, none of the fields the schema requires besides, is not a
    failure: it is returned and stored, and nothing is logged. The text
    [null] yields an absent result, but with no log and with a write to the
    cache. *)
Lemma insights_missing_field_counterexample :
  let c := [27704]%N in
  let run := Gemini.run (pe := with_key) (pa := sample_parser) in
  let bare := run [Gemini.Call c;
                   Gemini.Settle 0 (Resolved {| text := Some bare_document |})]
                Gemini.fresh in
  let null := run [Gemini.Call c;
                   Gemini.Settle 0 (Resolved {| text := Some (js "null") |})]
                Gemini.fresh in
  (meaning bare_info = None /\ pinyin bare_info = None /\
   zhuyin bare_info = None) /\
  bare.2 = [Gemini.Request c; Gemini.Returns c (Gemini.JObject bare_info)] /\
  Gemini.insightsCache bare.1 !! c = Some (Gemini.JObject bare_info) /\
  null.2 = [Gemini.Request c; Gemini.Returns c Gemini.JNull] /\
  Gemini.insightsCache null.1 !! c = Some Gemini.JNull /\
  Gemini.insightsCache Gemini.fresh !! c = None.
Proof.
  cbv zeta. split; [split; [|split]; reflexivity|].
  split; [vm_compute; reflexivity|]. split; [vm_compute; reflexivity|].
  split; [vm_compute; reflexivity|]. split; vm_compute; reflexivity.
Qed.

(** C9, amended. The promise of a call is never rejected, and every call
    returns: at once, or when its request settles. Without a key or with an
    empty character the call returns [null] at once and does nothing else:
    no request, no log, no change. Any other call returns a value at once or
    sends one request and waits. When the request of a waiting call settles,
    the call returns, whatever the request settled with: if the request was
    rejected, if the response has no text, or if the text is not valid JSON,
    the error is logged, [null] is returned and the cache is as it was; if
    the text is valid JSON, its value is returned and stored under the
    character, and nothing is logged, whatever the value is: required fields
    are not checked, and [null] or another falsy value is stored as well. *)
Theorem insights_failures_are_absent {pe : ProcessEnv} {pa : Gemini.Parser} :
  (forall (es : list Gemini.input) (s : Gemini.Service) (c : jsstring)
          (t : Gemini.thrown),
     Gemini.Throws c t ∉ (Gemini.run es s).2) /\
  (forall (c : jsstring) (s : Gemini.Service),
     has_key = false \/ c = [] ->
     Gemini.step (Gemini.Call c) s = (s, [Gemini.Returns c Gemini.JNull])) /\
  (forall (c : jsstring) (s : Gemini.Service),
     (exists v, Gemini.step (Gemini.Call c) s = (s, [Gemini.Returns c v])) \/
     Gemini.step (Gemini.Call c) s
     = ({| Gemini.insightsCache := Gemini.insightsCache s;
           Gemini.awaiting := Gemini.awaiting s ++ [c] |},
        [Gemini.Request c])) /\
  (forall (s : Gemini.Service) (i : nat) (c : jsstring) (r : outcome response),
     Gemini.awaiting s !! i = Some c ->
     match r with
     | Rejected e =>
         Gemini.step (Gemini.Settle i r) s
         = ({| Gemini.insightsCache := Gemini.insightsCache s;
               Gemini.awaiting := delete i (Gemini.awaiting s) |},
            [Gemini.ConsoleError (Gemini.RemoteError e);
             Gemini.Returns c Gemini.JNull])
     | Resolved resp =>
         match text resp with
         | None =>
             Gemini.step (Gemini.Settle i r) s
             = ({| Gemini.insightsCache := Gemini.insightsCache s;
                   Gemini.awaiting := delete i (Gemini.awaiting s) |},
                [Gemini.ConsoleError Gemini.TypeError;
                 Gemini.Returns c Gemini.JNull])
         | Some t =>
             match Gemini.JSON_parse (trim t) with
             | None =>
                 Gemini.step (Gemini.Settle i r) s
                 = ({| Gemini.insightsCache := Gemini.insightsCache s;
                       Gemini.awaiting := delete i (Gemini.awaiting s) |},
                    [Gemini.ConsoleError Gemini.SyntaxError;
                     Gemini.Returns c Gemini.JNull])
             | Some v =>
                 Gemini.step (Gemini.Settle i r) s
                 = ({| Gemini.insightsCache := <[c := v]> (Gemini.insightsCache s);
                       Gemini.awaiting := delete i (Gemini.awaiting s) |},
                    [Gemini.Returns c v])
             end
         end
     end).
Proof.
  split; [apply run_never_throws|]. split.
  { intros c s G. simpl. now rewrite (enter_guard c _ G). }
  split.
  { intros c s. simpl. destruct (Gemini.enter c _); eauto. }
  intros s i c r A. simpl. rewrite A. unfold Gemini.resume, Gemini.try_block.
  destruct r as [resp|e]; [|reflexivity].
  destruct (text resp) as [t|]; [|reflexivity].
  destruct (Gemini.JSON_parse (trim t)); reflexivity.
Qed.

Lemma insights_failures_are_absent_witness :
  let c := [27704]%N in
  let s := (Gemini.step (pe := with_key) (pa := sample_parser)
              (Gemini.Call c) Gemini.fresh).1 in
  Gemini.awaiting s !! 0%nat = Some c /\
  Gemini.step (pe := with_key) (pa := sample_parser)
    (Gemini.Settle 0 (Resolved {| text := Some (js "{") |})) s
  = ({| Gemini.insightsCache := Gemini.insightsCache s;
        Gemini.awaiting := delete 0%nat (Gemini.awaiting s) |},
     [Gemini.ConsoleError Gemini.SyntaxError;
      Gemini.Returns c Gemini.JNull]).
Proof.
  cbv zeta. split; [reflexivity|].
  exact (proj2 (proj2 (proj2
    (@insights_failures_are_absent with_key sample_parser)))
    (Gemini.step (pe := with_key) (pa := sample_parser)
       (Gemini.Call [27704]%N) Gemini.fresh).1
    0%nat [27704]%N (Resolved {| text := Some (js "{") |}) eq_refl).
Defined.

(* ===================================================================== *)
(** * Further properties *)
(* ===================================================================== *)

(** ** The decoder on arbitrary buffers *)

Lemma Int16Array_length (data : list Byte.byte) :
  length (Int16Array data) = (length data / 2)%nat.
Proof.
  induction data as [data IH] using (well_founded_induction
    (well_founded_ltof _ (@length Byte.byte))).
  destruct data as [|lo [|hi r]]; [reflexivity | reflexivity |].
  cbn [Int16Array length].
  rewrite (IH r) by (unfold ltof; simpl; lia).
  replace (S (S (length r))) with (1 * 2 + length r)%nat by lia.
  rewrite Nat.div_add_l by lia. lia.
Qed.

(** X1. Whatever the length of the buffer, for [numChannels >= 1] the
    decoder yields [numChannels] channels of as many whole frames as the
    samples make up; every cell is the sample at its interleaved position
    over 32768, in [[-1, 1)], never [NaN]; a trailing odd byte and the
    samples of an incomplete last frame are dropped. *)
Theorem decodeAudioData_whole_frames (data : list Byte.byte)
    (sampleRate numChannels : Z) :
  0 < numChannels ->
  let out := decodeAudioData data sampleRate numChannels in
  let frames := Z.of_nat (length data / 2) / numChannels in
  Z.of_nat (length out) = numChannels /\
  (forall (c : nat) (ch : list f32),
     out !! c = Some ch -> Z.of_nat (length ch) = frames) /\
  (forall (c i : nat) (ch : list f32) (x : f32),
     out !! c = Some ch -> ch !! i = Some x ->
     exists v : Z,
       Int16Array data !! (i * Z.to_nat numChannels + c)%nat = Some v /\
       x = Val (v # 32768) /\ in_unit_range x).
Proof.
  intros Hn out frames. subst out frames. unfold decodeAudioData.
  rewrite <- Int16Array_length.
  set (d := Int16Array data) in *.
  set (len := Z.of_nat (length d)) in *.
  assert (Hl : 0 <= len) by (subst len; lia).
  assert (Hq : 0 <= len / numChannels) by (apply Z.div_pos; lia).
  assert (Hc : len / numChannels <= (len + numChannels - 1) / numChannels)
    by (apply Z.div_le_mono; lia).
  assert (Hm : numChannels * (len / numChannels) <= len)
    by (apply Z.mul_div_le; lia).
  split; [|split].
  - rewrite length_map, length_seq. lia.
  - intros c ch E. apply list_lookup_fmap_Some in E as (c' & -> & E').
    rewrite fill_channel_length, length_replicate. lia.
  - intros c i ch x E Ei.
    apply list_lookup_fmap_Some in E as (c' & -> & E').
    apply lookup_seq in E' as [-> Lc]. simpl in Ei.
    assert (Li : (i < Z.to_nat (len / numChannels))%nat).
    { apply lookup_lt_Some in Ei.
      now rewrite fill_channel_length, length_replicate in Ei. }
    rewrite fill_channel_lookup in Ei by now rewrite length_replicate.
    destruct (decide _) as [_|N]; [|lia]. injection Ei as <-.
    unfold normalized.
    assert (Lj : (i * Z.to_nat numChannels + c < length d)%nat).
    { apply Nat2Z.inj_lt. fold len.
      rewrite Nat2Z.inj_add, Nat2Z.inj_mul, Z2Nat.id by lia.
      assert (Z.of_nat i + 1 <= len / numChannels) by lia.
      nia. }
    destruct (d !! (i * Z.to_nat numChannels + c)%nat) as [v|] eqn:Ev;
      [|apply lookup_ge_None in Ev; lia].
    exists v. repeat split; auto;
      apply unit_range_of_sample, (Int16Array_range data _ _ Ev).
Qed.

Lemma decodeAudioData_whole_frames_witness :
  0 < 2 /\
  decodeAudioData
    [Byte.x01; Byte.x00; Byte.x02; Byte.x00; Byte.x03; Byte.x00; Byte.xff] 8000 2
  = [[Val (1 # 32768)]; [Val (2 # 32768)]] /\
  Z.of_nat (length (decodeAudioData
    [Byte.x01; Byte.x00; Byte.x02; Byte.x00; Byte.x03; Byte.x00; Byte.xff]
    8000 2)) = 2.
Proof.
  split; [lia|]. split; [reflexivity|].
  refine (proj1 (decodeAudioData_whole_frames
    [Byte.x01; Byte.x00; Byte.x02; Byte.x00; Byte.x03; Byte.x00; Byte.xff]
    8000 2 _)).
  lia.
Defined.

(** X2. With one channel, as the player calls it, decoding is a map over
    the samples: the single channel holds every 16-bit sample of the buffer,
    in order, over 32768. *)
Theorem decodeAudioData_mono (data : list Byte.byte) (sampleRate : Z) :
  decodeAudioData data sampleRate 1
  = [map (fun v => Val (v # 32768)) (Int16Array data)].
Proof.
  unfold decodeAudioData. set (d := Int16Array data).
  replace (Z.of_nat (length d) + 1 - 1) with (Z.of_nat (length d)) by lia.
  rewrite Z.div_1_r, Nat2Z.id. simpl. f_equal.
  apply list_eq. intros i.
  destruct (decide (i < length d)%nat) as [L|L].
  - rewrite fill_channel_lookup by now rewrite length_replicate.
    destruct (decide _) as [_|N]; [|lia].
    rewrite list_lookup_fmap. unfold normalized.
    replace (i * Z.to_nat 1 + 0)%nat with i by lia.
    destruct (d !! i) eqn:E; [reflexivity|].
    apply lookup_ge_None in E. lia.
  - rewrite !lookup_ge_None_2; [reflexivity | |].
    + rewrite length_map. lia.
    + rewrite fill_channel_length, length_replicate. lia.
Qed.

(** ** Base64 payloads *)

Lemma to_uint8_exact (c : N) : (c <= 255)%N -> Byte.to_N (to_uint8 c) = c.
Proof.
  intros B. unfold to_uint8. rewrite N.mod_small by lia.
  destruct (Byte.of_N c) as [b|] eqn:E.
  - now apply Byte.to_of_N.
  - pose proof (Byte.to_of_N_option_map c) as M. rewrite E in M. simpl in M.
    destruct (N.leb c 255) eqn:Le; [discriminate|].
    apply N.leb_gt in Le. lia.
Qed.

(** X3. [decodeBase64] loses nothing: when [atob] succeeds with a binary
    string (characters up to 255), the result has one byte per character
    and the bytes are exactly the character codes. *)
Theorem decodeBase64_bytes (atob : jsstring -> outcome jsstring)
    (base64 binaryString : jsstring) :
  atob base64 = Resolved binaryString ->
  Forall (fun c => (c <= 255)%N) binaryString ->
  exists bytes,
    decodeBase64 atob base64 = Resolved bytes /\
    length bytes = length binaryString /\
    map Byte.to_N bytes = binaryString.
Proof.
  unfold decodeBase64. intros -> F.
  eexists. split; [reflexivity|]. split; [apply length_map|].
  induction F as [|c r B F IH]; simpl; [reflexivity|].
  now rewrite to_uint8_exact, IH.
Qed.

Lemma decodeBase64_bytes_witness :
  exists bytes,
    decodeBase64 (fun _ => Resolved [72; 105; 255]%N) (js "SGn/") = Resolved bytes /\
    length bytes = 3%nat /\
    map Byte.to_N bytes = [72; 105; 255]%N.
Proof.
  apply (decodeBase64_bytes (fun _ => Resolved [72; 105; 255]%N) (js "SGn/")
           [72; 105; 255]%N eq_refl).
  repeat constructor; discriminate.
Defined.

(** ** More on the retry wrapper *)

Lemma startsWith_spec (p s : jsstring) :
  startsWith p s = true <-> exists post, s = p ++ post.
Proof.
  revert s. induction p as [|a p IH]; intros s; simpl.
  - split; [eauto | reflexivity].
  - destruct s as [|b s]; [split; [discriminate | intros [? [=]]]|].
    rewrite andb_true_iff, N.eqb_eq, IH. split.
    + intros [-> [post ->]]. eauto.
    + intros [post [= -> ->]]. eauto.
Qed.

Lemma includes_spec (needle hay : jsstring) :
  includes needle hay = true <-> exists pre post, hay = pre ++ needle ++ post.
Proof.
  induction hay as [|b hay IH]; simpl.
  - rewrite orb_false_r, startsWith_spec. split.
    + intros [post E]. exists [], post. exact E.
    + intros (pre & post & E). destruct pre; [eauto | discriminate].
  - rewrite orb_true_iff, startsWith_spec, IH. split.
    + intros [[post E] | (pre & post & ->)].
      * exists [], post. exact E.
      * exists (b :: pre), post. reflexivity.
    + intros (pre & post & E). destruct pre as [|x pre].
      * left. eauto.
      * right. injection E as -> ->. eauto.
Qed.

(** The test [error.message?.includes('429')] holds exactly when there is
    a message in which the three characters occur somewhere. *)
Lemma rate_limited_spec (e : error) :
  rate_limited e = true <->
  exists m pre post, message e = Some m /\ m = pre ++ js "429" ++ post.
Proof.
  unfold rate_limited. destruct (message e) as [m|].
  - rewrite includes_spec. split.
    + intros (pre & post & E). eauto.
    + intros (m' & pre & post & [= <-] & E). eauto.
  - split; [discriminate | intros (? & ? & ? & [=] & _)].
Qed.

Lemma attempts_nonneg {T} (log : list (retry_event T)) : 0 <= attempts log.
Proof. induction log as [|[o|ms] log IH]; simpl; lia. Qed.

(** X4. What [withRetry] does with a failed attempt depends on the budget
    and on the text of the message only. When the operation fails with [e]:
    if budget is left and [e] has a message in which the characters [429]
    occur somewhere, whatever surrounds them, the wrapper waits [d] and runs
    again with one retry less and twice the delay, and the result is that of
    the second run; otherwise, so with no budget left, with a message
    without [429] and with no message at all, the operation is not called
    again and [e] is the result. So the operation is called a second time
    exactly in the first case. *)
Theorem withRetry_retries_exactly_on_429 {W T : Type} (idle_world : Z -> W -> W)
    (fn : W -> outcome T * W) (retries d : Z) (w w1 : W) (e : error) :
  fn w = (Rejected e, w1) ->
  (0 < retries /\
   (exists m pre post, message e = Some m /\ m = pre ++ js "429" ++ post) ->
   withRetry idle_world fn retries d w
   = ((withRetry idle_world fn (retries - 1) (d * 2) (idle_world d w1)).1.1,
      (withRetry idle_world fn (retries - 1) (d * 2) (idle_world d w1)).1.2,
      Attempt (Rejected e) :: Sleep d ::
      (withRetry idle_world fn (retries - 1) (d * 2) (idle_world d w1)).2)) /\
  (~ (0 < retries /\
      (exists m pre post, message e = Some m /\ m = pre ++ js "429" ++ post)) ->
   withRetry idle_world fn retries d w
   = (Rejected e, w1, [Attempt (Rejected e)])) /\
  (1 < attempts (withRetry idle_world fn retries d w).2 <->
   0 < retries /\
   (exists m pre post, message e = Some m /\ m = pre ++ js "429" ++ post)).
Proof.
  intros E. rewrite <- rate_limited_spec.
  assert (A : 1 <= attempts
    (withRetry idle_world fn (retries - 1) (d * 2) (idle_world d w1)).2).
  { rewrite withRetry_unfold.
    destruct (fn (idle_world d w1)) as [[v|e'] w2]; [simpl; lia|].
    destruct (_ && _); [|simpl; lia].
    destruct (withRetry _ _ _ _ _) as [[r w3] log]. simpl.
    pose proof (attempts_nonneg log). lia. }
  rewrite withRetry_unfold, E.
  destruct (0 <? retries) eqn:G; [apply Z.ltb_lt in G | apply Z.ltb_ge in G];
    destruct (rate_limited e) eqn:R; simpl;
    destruct (withRetry idle_world fn (retries - 1) (d * 2) (idle_world d w1))
      as [[r w2] log]; simpl in *;
    (split; [|split; [|split]]);
    try reflexivity; try (intros [? ?]; lia || congruence);
    try (intros N; exfalso; apply N; split; [lia | reflexivity]);
    try lia.
Qed.

Lemma withRetry_retries_exactly_on_429_witness :
  scripted (Rejected (Error (js "Error") None))
    [Rejected (Error (js "ApiError") (Some (js "code 429: quota")));
     Resolved 7]
  = (Rejected (Error (js "ApiError") (Some (js "code 429: quota"))),
     [Resolved 7]) /\
  attempts (withRetry (fun _ s => s)
              (scripted (Rejected (Error (js "Error") None))) 1 1000
              [Rejected (Error (js "ApiError") (Some (js "code 429: quota")));
               Resolved 7]).2 = 2 /\
  withRetry (fun _ s => s)
    (scripted (Rejected (Error (js "Error") None))) 0 1000
    [Rejected (Error (js "ApiError") (Some (js "code 429: quota")));
     Resolved 7]
  = (Rejected (Error (js "ApiError") (Some (js "code 429: quota"))),
     [Resolved 7],
     [Attempt (Rejected (Error (js "ApiError") (Some (js "code 429: quota"))))]).
Proof.
  split; [reflexivity|]. split; [reflexivity|].
  apply (proj1 (proj2 (@withRetry_retries_exactly_on_429
    (list (outcome Z)) Z (fun _ s => s)
    (scripted (Rejected (Error (js "Error") None))) 0 1000
    [Rejected (Error (js "ApiError") (Some (js "code 429: quota")));
     Resolved 7]
    [Resolved 7]
    (Error (js "ApiError") (Some (js "code 429: quota"))) eq_refl))).
  intros [N _]. lia.
Defined.

Lemma total_doubling (d : Z) (k : nat) : total (doubling d k) = d * (2 ^ Z.of_nat k - 1).
Proof.
  revert d. induction k as [|k IH]; intros d; [simpl; lia|].
  cbn [doubling total]. rewrite IH, Nat2Z.inj_succ, Z.pow_succ_r by lia. lia.
Qed.

(** X5. The time spent waiting is bounded by the budget: with
    [retries >= 0] and [d >= 0] the delays of a run add up to [d (2^k - 1)]
    for the [k <= retries] retries made, so to at most [d (2^retries - 1)];
    and a run whose first attempt succeeds, or fails without the rate-limit
    signal, calls the operation once and does not wait at all. *)
Theorem withRetry_total_wait {W T : Type} (idle_world : Z -> W -> W)
    (fn : W -> outcome T * W) (retries d : Z) (w : W) :
  0 <= retries -> 0 <= d ->
  (exists k : nat,
     Z.of_nat k <= retries /\
     attempts (withRetry idle_world fn retries d w).2 = Z.of_nat k + 1 /\
     total (delays (withRetry idle_world fn retries d w).2)
       = d * (2 ^ Z.of_nat k - 1)) /\
  total (delays (withRetry idle_world fn retries d w).2)
    <= d * (2 ^ retries - 1) /\
  (match (fn w).1 with
   | Resolved _ => True
   | Rejected e => rate_limited e = false
   end ->
   withRetry idle_world fn retries d w = ((fn w).1, (fn w).2, [Attempt (fn w).1])).
Proof.
  intros Hr Hd.
  destruct (withRetry_shape idle_world _ fn retries d w eq_refl)
    as (es & o & L & O & F & B & P).
  assert (K : total (delays (withRetry idle_world fn retries d w).2)
              = d * (2 ^ Z.of_nat (length es) - 1))
    by now rewrite L, delays_retry_log, total_doubling.
  split; [|split].
  - exists (length es). split; [lia|]. split; [|exact K].
    now rewrite L, attempts_retry_log.
  - rewrite K. apply Z.mul_le_mono_nonneg_l; [exact Hd|].
    assert (2 ^ Z.of_nat (length es) <= 2 ^ retries)
      by (apply Z.pow_le_mono_r; lia).
    lia.
  - rewrite withRetry_unfold. destruct (fn w) as [[v|e] w1]; simpl.
    + reflexivity.
    + intros ->. now rewrite andb_false_r.
Qed.

Lemma withRetry_total_wait_witness :
  0 <= 3 /\ 0 <= 500 /\
  total (delays (withRetry (T := unit) (fun _ s => s)
                   (scripted (Rejected (Error (js "Error") (Some (js "429")))))
                   3 500 []).2) <= 3500.
Proof.
  split; [lia|]. split; [lia|].
  exact (proj1 (proj2 (@withRetry_total_wait (list (outcome unit)) unit
    (fun _ s => s)
    (scripted (Rejected (Error (js "Error") (Some (js "429")))))
    3 500 [] ltac:(lia) ltac:(lia)))).
Defined.

(** ** More on the insight service *)

(** X6. One call of [getCharacterInsights] makes at most two requests, the
    second one only after a single wait of 1000 ms, and logs at most one
    error, last: its events are one of five sequences. *)
Theorem insights_request_budget {W : Type} {pe : ProcessEnv} {rm : Remote W}
    (c : jsstring) (s : Service W) :
  ((getCharacterInsights c s).2 = [] \/
   (getCharacterInsights c s).2 = [NetCall c] \/
   (getCharacterInsights c s).2 = [NetCall c; ConsoleError insights_label] \/
   (getCharacterInsights c s).2 = [NetCall c; Wait 1000; NetCall c] \/
   (getCharacterInsights c s).2
   = [NetCall c; Wait 1000; NetCall c; ConsoleError insights_label]) /\
  (net_calls (getCharacterInsights c s).2 <= 2)%nat.
Proof.
  assert (A : forall evs,
    evs = [] \/ evs = [NetCall c] \/
    evs = [NetCall c; ConsoleError insights_label] \/
    evs = [NetCall c; Wait 1000; NetCall c] \/
    evs = [NetCall c; Wait 1000; NetCall c; ConsoleError insights_label] ->
    (net_calls evs <= 2)%nat).
  { intros evs [->|[->|[->|[->| ->]]]]; simpl; lia. }
  match goal with |- ?P /\ _ => assert (B : P) end; [|split; [exact B | apply A, B]].
  unfold getCharacterInsights.
  destruct (negb has_key || negb (truthy c)); [auto|].
  destruct (insightsCache s !! c); [auto|].
  destruct (withRetry_shape during_delay _ (generateContent c) 1 1000 (net s)
              eq_refl) as (es & o & L & O & F & Bd & P).
  unfold withRetry_default.
  destruct (withRetry during_delay (generateContent c) 1 1000 (net s))
    as [[r w] log].
  simpl in L, O, Bd. subst log r.
  assert (E : es = [] \/ exists e, es = [e]).
  { destruct es as [|e [|e' es]]; [auto | eauto | simpl in Bd; lia]. }
  destruct E as [-> | [e ->]]; simpl;
    (destruct o as [resp|e']; simpl; [|auto 6]);
    (destruct (text resp) as [t|]; simpl; [|auto 6]);
    destruct (JSON_parse (trim t)); simpl; auto 6.
Qed.

Lemma insights_call_entries {W : Type} {pe : ProcessEnv} {rm : Remote W}
    (c : jsstring) (s : Service W) (k : jsstring) (v : CharacterInfo) :
  insightsCache (getCharacterInsights c s).1.2 !! k = Some v ->
  insightsCache s !! k = Some v \/ (k = c /\ c <> [] /\ has_key = true).
Proof.
  unfold getCharacterInsights.
  destruct has_key; [|auto]. destruct c as [|x c]; [auto|]. simpl.
  destruct (insightsCache s !! (x :: c)) eqn:L; [auto|].
  destruct (withRetry_default _ _ _) as [[[resp|e] w] log]; [|auto].
  destruct (text resp) as [t|]; [|auto].
  destruct (JSON_parse (trim t)); [|auto].
  simpl. destruct (decide (k = x :: c)) as [->|N].
  - intros _. right. auto.
  - rewrite lookup_insert_ne by congruence. auto.
Qed.

(** X7. The cache only ever holds what was asked for: after any session,
    an entry either was there before or belongs to a non-empty character of
    the session, and then a key is configured; without a key a session
    leaves the cache as it is. *)
Theorem insights_cache_entries {W : Type} {pe : ProcessEnv} {rm : Remote W}
    (cs : list jsstring) (s : Service W) :
  (forall (k : jsstring) (v : CharacterInfo),
     insightsCache (session cs s) !! k = Some v ->
     insightsCache s !! k = Some v \/ (In k cs /\ k <> [] /\ has_key = true)) /\
  (has_key = false -> session cs s = s).
Proof.
  split.
  - revert s. induction cs as [|c cs IH]; intros s k v E; simpl in *; [auto|].
    destruct (IH _ k v E) as [E'|(I & N & K)]; [|auto].
    destruct (insights_call_entries c s k v E') as [?|(-> & N & K)]; auto.
  - intros K. revert s. induction cs as [|c cs IH]; intros s; simpl; [reflexivity|].
    rewrite (insights_guard c s) by auto. apply IH.
Qed.

(** ** The speech service *)

Section SpeechFacts.
Context {W : Type} {pe : ProcessEnv} {sr : SpeechRemote W}.

Lemma first_audio_truthy (ps : list part) (d : jsstring) :
  first_audio ps = Some d -> truthy d = true.
Proof.
  induction ps as [|p ps IH]; simpl; [discriminate|].
  unfold audio_of. destruct (inlineData p) as [i|]; [|exact IH].
  destruct (data i) as [d'|]; [|exact IH].
  destruct (truthy d') eqn:T; [|exact IH]. now intros [= <-].
Qed.

(** What one call does to the cache and returns, when every payload in
    the cache is non-empty. *)
Lemma generateSpeech_call (t : jsstring) (s : SpeechService W) :
  map_Forall (fun _ d => truthy d = true) (speechCache s) ->
  map_Forall (fun _ d => truthy d = true) (speechCache (generateSpeech t s).1.2) /\
  speechCache s ⊆ speechCache (generateSpeech t s).1.2 /\
  (forall d, (generateSpeech t s).1.1 = Some d ->
     truthy d = true /\ speechCache (generateSpeech t s).1.2 !! t = Some d /\
     has_key = true /\ truthy t = true) /\
  ((generateSpeech t s).1.1 = None ->
   speechCache (generateSpeech t s).1.2 = speechCache s) /\
  (forall d, has_key = true -> truthy t = true -> speechCache s !! t = Some d ->
     generateSpeech t s = (Some d, s, [])).
Proof.
  intros Ok. unfold generateSpeech.
  destruct has_key; simpl;
    [|split; [|split; [|split; [|split]]]; auto; discriminate].
  destruct (truthy t) eqn:Tt; simpl;
    [|split; [|split; [|split; [|split]]]; auto; discriminate].
  destruct (speechCache s !! t) as [cached|] eqn:L.
  - rewrite (Ok _ _ L). simpl.
    split; [|split; [|split; [|split]]]; auto; try discriminate.
    + intros d [= <-]. pose proof (Ok _ _ L). auto.
    + now intros d _ _ [= <-].
  - destruct (withRetry_default _ _ _) as [[[resp|e] w] log]; simpl;
      [|split; [|split; [|split; [|split]]]; auto; discriminate].
    destruct (response_parts resp) as [ps|]; simpl;
      [|split; [|split; [|split; [|split]]]; auto; discriminate].
    destruct (first_audio ps) as [d|] eqn:A; simpl;
      [|split; [|split; [|split; [|split]]]; auto; discriminate].
    pose proof (first_audio_truthy ps d A) as Td.
    split; [|split; [|split; [|split]]]; try discriminate.
    + now apply map_Forall_insert_2.
    + now apply insert_subseteq.
    + intros d' [= <-]. rewrite lookup_insert_eq. auto.
Qed.

Lemma speech_session_keeps (ts : list jsstring) :
  forall s : SpeechService W,
  map_Forall (fun _ d => truthy d = true) (speechCache s) ->
  map_Forall (fun _ d => truthy d = true) (speechCache (speech_session ts s)) /\
  speechCache s ⊆ speechCache (speech_session ts s).
Proof.
  induction ts as [|t ts IH]; intros s Ok; simpl; [split; [exact Ok | reflexivity]|].
  destruct (generateSpeech_call t s Ok) as (Ok' & M & _).
  destruct (IH _ Ok') as (Ok'' & M').
  split; [exact Ok''|]. etransitivity; eassumption.
Qed.

End SpeechFacts.

(** X8. [generateSpeech] never hands out an empty payload and only caches
    what it returns: starting from a cache whose payloads are all
    non-empty (the empty cache of a fresh page in particular), a call keeps
    it so and never drops or replaces an entry; a returned payload is
    non-empty and is in the cache afterwards; an absent result leaves the
    cache as it was. *)
Theorem generateSpeech_payloads {W : Type} {pe : ProcessEnv} {sr : SpeechRemote W}
    (t : jsstring) (s : SpeechService W) :
  map_Forall (fun _ d => truthy d = true) (speechCache s) ->
  map_Forall (fun _ d => truthy d = true) (speechCache (generateSpeech t s).1.2) /\
  speechCache s ⊆ speechCache (generateSpeech t s).1.2 /\
  (forall d, (generateSpeech t s).1.1 = Some d ->
     truthy d = true /\ speechCache (generateSpeech t s).1.2 !! t = Some d) /\
  ((generateSpeech t s).1.1 = None ->
   speechCache (generateSpeech t s).1.2 = speechCache s).
Proof.
  intros Ok. destruct (generateSpeech_call t s Ok) as (A & B & C & D & _).
  split; [exact A|]. split; [exact B|]. split; [|exact D].
  intros d E. destruct (C d E) as (? & ? & _). auto.
Qed.

(** X9. A synthesized payload is synthesized once: after a call has
    returned a payload for a text, every later call for that text, after
    any other calls, returns the same payload with no request and no other
    event, and leaves the state as it is. *)
Theorem generateSpeech_served_from_cache {W : Type} {pe : ProcessEnv}
    {sr : SpeechRemote W} (t : jsstring) (s : SpeechService W) (d : jsstring)
    (later : list jsstring) :
  map_Forall (fun _ d => truthy d = true) (speechCache s) ->
  (generateSpeech t s).1.1 = Some d ->
  generateSpeech t (speech_session later (generateSpeech t s).1.2)
  = (Some d, speech_session later (generateSpeech t s).1.2, []) /\
  speech_calls (generateSpeech t
                  (speech_session later (generateSpeech t s).1.2)).2 = 0%nat.
Proof.
  intros Ok R.
  destruct (generateSpeech_call t s Ok) as (Ok1 & _ & C & _).
  destruct (C d R) as (_ & L & K & T).
  destruct (speech_session_keeps later _ Ok1) as (Ok2 & M).
  pose proof (lookup_weaken _ _ _ _ L M) as L'.
  destruct (generateSpeech_call t _ Ok2) as (_ & _ & _ & _ & H).
  rewrite (H d K T L'). auto.
Qed.

Lemma generateSpeech_payloads_witness :
  map_Forall (fun _ d => truthy d = true) (∅ : gmap jsstring jsstring) /\
  (generateSpeech (pe := with_key) (sr := sample_speech_remote) [27704]%N
     {| speechCache := ∅; speech_net := tt |}).1.1 = Some (js "UklGRg") /\
  truthy (js "UklGRg") = true.
Proof.
  split; [apply map_Forall_empty|]. split; [reflexivity|].
  destruct (@generateSpeech_payloads unit with_key sample_speech_remote
              [27704]%N {| speechCache := ∅; speech_net := tt |}
              (map_Forall_empty _)) as (_ & _ & C & _).
  exact (proj1 (C (js "UklGRg") eq_refl)).
Defined.

Lemma generateSpeech_served_from_cache_witness :
  map_Forall (fun _ d => truthy d = true) (∅ : gmap jsstring jsstring) /\
  (generateSpeech (pe := with_key) (sr := sample_speech_remote) [27704]%N
     (speech_session (pe := with_key) (sr := sample_speech_remote)
        [[21644]%N]
        (generateSpeech (pe := with_key) (sr := sample_speech_remote) [27704]%N
           {| speechCache := ∅; speech_net := tt |}).1.2)).2 = [].
Proof.
  split; [apply map_Forall_empty|].
  pose proof (proj1 (@generateSpeech_served_from_cache unit with_key
    sample_speech_remote [27704]%N {| speechCache := ∅; speech_net := tt |}
    (js "UklGRg") [[21644]%N] (map_Forall_empty _) eq_refl)) as E.
  now rewrite E.
Defined.

(** ** Voice selection and board size *)

Lemma same_string_eq (a b : jsstring) : same_string a b = true <-> a = b.
Proof.
  revert b. induction a as [|x a IH]; intros [|y b]; simpl;
    try (split; [discriminate | congruence]); [easy|].
  rewrite andb_true_iff, N.eqb_eq, IH. split; [intros [-> ->] | intros [= -> ->]]; auto.
Qed.

Lemma target_is_chinese (simplified : bool) (v : SpeechSynthesisVoice) :
  same_string (lang v) (targetLang simplified) = true ->
  startsWith (js "zh") (lang v) = true.
Proof.
  rewrite same_string_eq. intros ->. now destruct simplified.
Qed.

(** X10. The automatic choice of a voice: a chosen voice comes from the
    list and has a preferred name or a language tag that starts with [zh];
    none is chosen exactly when no voice of the list qualifies, and then the
    previous selection stays; a voice without a preferred name is chosen
    only when no voice has one, and one whose tag is not exactly the target
    only when, besides, no voice has the target tag. *)
Theorem bestVoice_choice (voices : list SpeechSynthesisVoice)
    (simplified : bool) (selected : option SpeechSynthesisVoice) :
  (forall v, bestVoice voices simplified = Some v ->
     In v voices /\
     (preferred simplified v = true \/ startsWith (js "zh") (lang v) = true)) /\
  (bestVoice voices simplified = None <->
   forall u, In u voices ->
     preferred simplified u = false /\ startsWith (js "zh") (lang u) = false) /\
  (forall v, bestVoice voices simplified = Some v ->
     preferred simplified v = false ->
     (forall u, In u voices -> preferred simplified u = false) /\
     (lang v <> targetLang simplified ->
      forall u, In u voices -> lang u <> targetLang simplified)) /\
  autoSelectVoice voices simplified selected
  = match bestVoice voices simplified with
    | Some v => Some v
    | None => selected
    end.
Proof.
  assert (Auto : autoSelectVoice voices simplified selected
                 = match bestVoice voices simplified with
                   | Some v => Some v
                   | None => selected
                   end) by (destruct voices; reflexivity).
  match goal with |- ?A /\ ?B /\ ?C /\ _ =>
    assert (H3 : A /\ B /\ C); [clear Auto | destruct H3 as (a & b & c); auto]
  end.
  unfold bestVoice.
  destruct (List.find (preferred simplified) voices) as [p|] eqn:Fp.
  { apply find_some in Fp as [Ip Pp].
    split; [intros v [= <-]; auto|].
    split; [split; [discriminate | intros A; destruct (A p Ip); congruence]|].
    intros v [= <-] N; congruence. }
  pose proof (find_none _ _ Fp) as Np.
  destruct (List.find (fun v => same_string (lang v) (targetLang simplified))
              voices) as [x|] eqn:Fx.
  { apply find_some in Fx as [Ix Px].
    split; [intros v [= <-]; split; [auto | right; now apply (target_is_chinese simplified)]|].
    split; [split; [discriminate|]|].
    { intros A. destruct (A x Ix) as [_ Z].
      rewrite (target_is_chinese _ _ Px) in Z. discriminate. }
    intros v [= <-] _. split; [exact Np|].
    intros Nx. apply same_string_eq in Px. contradiction. }
  pose proof (find_none _ _ Fx) as Nx.
  destruct (List.find (fun v => startsWith (js "zh") (lang v)) voices)
    as [z|] eqn:Fz.
  - apply find_some in Fz as [Iz Pz].
    split; [intros v [= <-]; auto|].
    split; [split; [discriminate | intros A; destruct (A z Iz); congruence]|].
    intros v [= <-] _. split; [exact Np|].
    intros _ u Iu E. specialize (Nx u Iu). simpl in Nx.
    rewrite E, same_string_refl in Nx. discriminate.
  - pose proof (find_none _ _ Fz) as Nz.
    split; [discriminate|].
    split; [|discriminate].
    split; [|reflexivity].
    intros _ u Iu. split; [apply Np | apply (Nz u)]; exact Iu.
Qed.

(** X11. The board always fits the window with 40 pixels to spare and is
    never larger than 550; it grows with the window; and it has a positive
    size exactly for windows wider than 40 pixels. *)
Theorem handleResize_fits (width : Z) :
  handleResize width + 40 <= width /\
  handleResize width <= 550 /\
  (0 < handleResize width <-> 40 < width) /\
  (forall wider, width <= wider -> handleResize width <= handleResize wider).
Proof.
  unfold handleResize.
  split; [|split; [|split]].
  - destruct (width <? 640) eqn:A; [lia|].
    destruct (width <? 1024) eqn:B; lia.
  - destruct (width <? 640) eqn:A; [lia|].
    destruct (width <? 1024) eqn:B; lia.
  - destruct (width <? 640) eqn:A; [lia|].
    destruct (width <? 1024) eqn:B; lia.
  - intros wider L.
    destruct (width <? 640) eqn:A, (wider <? 640) eqn:A';
      destruct (width <? 1024) eqn:B, (wider <? 1024) eqn:B'; lia.
Qed.

(** ** The active character *)

Lemma at_index_Some {A} (a : list A) (i : Z) :
  is_Some (at_index a i) <-> 0 <= i < Z.of_nat (length a).
Proof.
  unfold at_index. destruct (i <? 0) eqn:N.
  - apply Z.ltb_lt in N. split; [intros [x [=]] | lia].
  - apply Z.ltb_ge in N. rewrite lookup_lt_is_Some. lia.
Qed.

(** X12. There is an active character exactly when the position is inside
    the sequence; it is then a single character that is not white space,
    the one of the sequence at that position. *)
Theorem currentChar_in_bounds (s : State) :
  (currentChar s = [] <-> ~ in_bounds s) /\
  (forall c rest, currentChar s = c :: rest ->
     rest = [] /\ non_space c = true /\
     characters s !! Z.to_nat (currentIndex s) = Some c /\ in_bounds s).
Proof.
  unfold currentChar, in_bounds.
  pose proof (at_index_Some (characters s) (currentIndex s)) as A.
  destruct (at_index (characters s) (currentIndex s)) as [c|] eqn:E.
  - assert (B : 0 <= currentIndex s < Z.of_nat (length (characters s)))
      by (apply A; eauto).
    split; [split; [discriminate | intros N; now destruct N]|].
    intros c' rest [= <- <-]. split; [reflexivity|].
    unfold at_index in E. destruct (currentIndex s <? 0); [discriminate|].
    split; [|split; [exact E | exact B]].
    apply list_elem_of_lookup_2, list_elem_of_In in E.
    unfold characters in E. now apply filter_In in E.
  - split; [|discriminate].
    split; [|reflexivity]. intros _ B. apply A in B. now destruct B.
Qed.

(** ** The position stays inside the sequence *)

Lemma in_bounds_ext (a b : State) :
  activeText a = activeText b -> currentIndex a = currentIndex b ->
  in_bounds a -> in_bounds b.
Proof.
  unfold in_bounds, characters. now intros -> ->.
Qed.

Lemma exec_still (p : prog) :
  still p -> forall s : Sys,
  activeText (ui (exec p s)) = activeText (ui s) /\
  currentIndex (ui (exec p s)) = currentIndex (ui s) /\
  (Forall task_still (tasks s) -> Forall task_still (tasks (exec p s))).
Proof.
  induction p as [|a k IH|q k IH]; intros S s.
  - simpl. auto.
  - pose proof (fun S' => IH S' {| ui := perform a (ui s); tasks := tasks s |})
      as IH'.
    destruct a; simpl in S; try contradiction;
      destruct (IH' S) as (A & B & C); simpl in *; auto.
  - simpl. split; [reflexivity|]. split; [reflexivity|].
    intros T. apply Forall_app. split; [exact T|].
    constructor; [|constructor]. destruct q; simpl; auto.
Qed.

Lemma steady_still (p : prog) (s : Sys) :
  still p -> steady s -> steady (exec p s).
Proof.
  intros S [B T]. destruct (exec_still p S s) as (A & I & F).
  split; [|auto]. apply (in_bounds_ext (ui s)); auto.
Qed.

Lemma App_fetch_still {cc : OpenCC} {pe : ProcessEnv} (r : State) (c : jsstring) :
  still (App.fetchInsights r c).
Proof.
  unfold App.fetchInsights. destruct (negb (truthy c)); simpl; auto.
Qed.

Lemma BoardApp_fetch_still (r : State) (c : jsstring) :
  still (BoardApp.fetchInsights r c).
Proof.
  unfold BoardApp.fetchInsights. destruct (negb (truthy c)); simpl; auto.
Qed.

Lemma App_play_still {cc : OpenCC} {pe : ProcessEnv} (r : State) :
  still (App.playPronunciation r).
Proof.
  unfold App.playPronunciation.
  destruct (_ || _); simpl; [exact I|].
  destruct (useCloudVoice r).
  - destruct (negb (truthy _)) eqn:K; [simpl; exact I|].
    unfold playCloudTTS. rewrite K. simpl.
    intros [ok|e]; simpl; [|exact I].
    destruct ok; simpl.
    + intros [content|e]; simpl; [|exact I]. intros [[]|e]; simpl; exact I.
    + intros [m|e]; simpl; exact I.
  - simpl. intros [e| |]; simpl; exact I.
Qed.

Lemma BoardApp_play_still (r : State) : still (BoardApp.playPronunciation r).
Proof.
  unfold BoardApp.playPronunciation.
  destruct (_ || _); simpl; [exact I|].
  intros [b64|]; simpl; [|exact I].
  destruct (negb (truthy b64)); simpl; [exact I|].
  intros [[]|e]; simpl; [|exact I].
  intros [bytes|e]; simpl; [|exact I].
  intros [[]|e]; simpl; [|exact I].
  intros [[]|e]; simpl; exact I.
Qed.

Lemma App_rerender_steady {cc : OpenCC} {pe : ProcessEnv} (b : State) (s : Sys) :
  steady s -> steady (App.rerender b s).
Proof.
  intros S. unfold App.rerender. destruct (_ || _); [|exact S].
  apply steady_still; [apply App_fetch_still | exact S].
Qed.

Lemma BoardApp_rerender_steady (b : State) (s : Sys) :
  steady s -> steady (BoardApp.rerender b s).
Proof.
  intros S. unfold BoardApp.rerender. destruct (negb _); [|exact S].
  apply steady_still; [apply BoardApp_fetch_still | exact S].
Qed.

Lemma not_blank_has_characters (t : jsstring) :
  blank t = false -> (0 < length (List.filter non_space t))%nat.
Proof.
  unfold blank, non_space. induction t as [|c t IH]; simpl; [discriminate|].
  destruct (is_space c); simpl; [exact IH | lia].
Qed.

Lemma resume_steady (s s' : Sys) (i : nat) env (p : prog) :
  fires_timer s (Settle i env) = false ->
  steady s -> resume i env s = Some (p, s') ->
  still p /\ steady s'.
Proof.
  unfold resume. simpl. intros Ft [B T] R.
  destruct (tasks s !! i) as [[q k]|] eqn:E; [|discriminate].
  injection R as <- <-.
  pose proof (proj1 (Forall_lookup _ _) T _ _ E) as K.
  split.
  - destruct q; simpl in K; try apply K. discriminate.
  - split; [exact B|]. simpl. now apply Forall_delete.
Qed.

Lemma blank_has_no_characters (t : jsstring) :
  blank t = true -> length (List.filter non_space t) = 0%nat.
Proof.
  unfold blank, non_space. induction t as [|c t IH]; simpl; [reflexivity|].
  destruct (is_space c); simpl; [exact IH | discriminate].
Qed.

(** Without a timer firing, every event that fits keeps the component
    steady. *)
Lemma App_step_steady {cc : OpenCC} {pe : ProcessEnv} (e : event) (s : Sys) :
  fires_timer s e = false -> fits s e = true ->
  steady s -> steady (App.step e s).
Proof.
  intros Ft Fi S. pose proof S as [B T]. unfold in_bounds in B.
  destruct e; simpl; unfold App.dispatch; try apply App_rerender_steady.
  - apply steady_still; simpl; auto.
  - unfold App.handleUpdateText. rewrite truthy_trim.
    simpl in Fi.
    destruct (blank (inputText (ui s))) eqn:Bl; simpl; [exact S|].
    split; [|exact T]. unfold in_bounds, characters. simpl.
    simpl in Fi. apply negb_true_iff, not_blank_has_characters in Fi.
    destruct (isSimplified (ui s)); lia.
  - unfold App.handlePrev. destruct (0 <? _) eqn:G; simpl; [|exact S].
    split; [|exact T]. unfold in_bounds, characters in *. simpl.
    apply Z.ltb_lt in G. lia.
  - unfold App.handleNext. destruct (_ <? _) eqn:G; simpl; [|exact S].
    split; [|exact T]. unfold in_bounds, characters in *. simpl.
    apply Z.ltb_lt in G. lia.
  - destruct (_ <? _)%nat eqn:G; [|exact S].
    apply Nat.ltb_lt in G. apply App_rerender_steady.
    split; [|exact T]. unfold in_bounds, characters in *. simpl. lia.
  - unfold App.handleToggleSimplified. simpl.
    split; [|exact T]. unfold in_bounds, characters in *. simpl.
    simpl in Fi. apply Z.ltb_lt in Fi. lia.
  - apply steady_still; simpl; auto.
  - apply steady_still; simpl; auto.
  - apply steady_still; [apply App_play_still | exact S].
  - unfold App.onQuizComplete. destruct (_ <? _); simpl; [|exact S].
    split; [exact (proj1 S)|]. apply Forall_app. split; [exact T|].
    repeat constructor.
  - destruct (resume i env s) as [[p s']|] eqn:R; [|exact S].
    destruct (resume_steady _ _ _ _ _ Ft S R) as [Sp Ss].
    apply App_rerender_steady. now apply steady_still.
Qed.

(** An event that does not fit puts the position outside. *)
Lemma App_step_unfit {cc : OpenCC} {pe : ProcessEnv} (e : event) (s : Sys) :
  fits s e = false -> ~ in_bounds (ui (App.step e s)).
Proof.
  destruct e; simpl; try discriminate; unfold App.dispatch; intros Fi;
    match goal with |- context [App.rerender ?b ?x] =>
      destruct (App_rerender_ui b x) as (Ha & _ & Hi & _) end;
    unfold in_bounds; rewrite (characters_ext _ _ Ha), Hi.
  - apply orb_false_iff in Fi as [Bl Fi]. apply negb_false_iff in Fi.
    unfold App.handleUpdateText. rewrite truthy_trim, Bl. simpl.
    unfold characters. simpl. apply blank_has_no_characters in Fi.
    destruct (isSimplified (ui s)); lia.
  - apply Z.ltb_ge in Fi. unfold App.handleToggleSimplified, characters.
    simpl. lia.
Qed.

Lemma BoardApp_step_steady (e : event) (s : Sys) :
  fires_timer s e = false -> steady s -> steady (BoardApp.step e s).
Proof.
  intros Ft S. pose proof S as [B T]. unfold in_bounds in B.
  destruct e; simpl; unfold BoardApp.dispatch; try exact S;
    try apply BoardApp_rerender_steady.
  - apply steady_still; simpl; auto.
  - unfold BoardApp.handleUpdateText. rewrite truthy_trim.
    destruct (blank (inputText (ui s))) eqn:Bl; simpl; [exact S|].
    split; [|exact T]. unfold in_bounds, characters. simpl.
    apply not_blank_has_characters in Bl. lia.
  - unfold BoardApp.handlePrev. destruct (0 <? _) eqn:G; simpl; [|exact S].
    split; [|exact T]. unfold in_bounds, characters in *. simpl.
    apply Z.ltb_lt in G. lia.
  - unfold BoardApp.handleNext. destruct (_ <? _) eqn:G; simpl; [|exact S].
    split; [|exact T]. unfold in_bounds, characters in *. simpl.
    apply Z.ltb_lt in G. lia.
  - destruct (_ <? _)%nat eqn:G; [|exact S].
    apply Nat.ltb_lt in G. apply BoardApp_rerender_steady.
    split; [|exact T]. unfold in_bounds, characters in *. simpl. lia.
  - apply steady_still; [apply BoardApp_play_still | exact S].
  - unfold BoardApp.onQuizComplete. destruct (_ <? _); simpl; [|exact S].
    split; [exact (proj1 S)|]. apply Forall_app. split; [exact T|].
    repeat constructor.
  - destruct (resume i env s) as [[p s']|] eqn:R; [|exact S].
    destruct (resume_steady _ _ _ _ _ Ft S R) as [Sp Ss].
    apply BoardApp_rerender_steady. now apply steady_still.
Qed.

Lemma mounted_steady : steady App.mounted /\ steady BoardApp.mounted.
Proof.
  split; (split; [unfold in_bounds; vm_compute; split; [discriminate | reflexivity]|]);
    repeat constructor; simpl; auto.
Qed.

Lemma App_run_steady {cc : OpenCC} {pe : ProcessEnv} (es : list event) :
  forall s : Sys,
  steady s -> timer_free App.step es s = true -> fitting es s = true ->
  steady (App.run es s).
Proof.
  induction es as [|e es IH]; intros s S F G; [exact S|].
  simpl in F, G. apply andb_true_iff in F as [Ft F].
  apply andb_true_iff in G as [Gt G]. apply negb_true_iff in Ft.
  apply (IH (App.step e s)); [|exact F|exact G].
  now apply App_step_steady.
Qed.

(** X13. In [App.tsx], whatever the converters do: the position is inside
    the sequence after every run from mounting in which no timer fires and
    every event fits, that is, every script toggle converts the active text
    to one with more characters than the position and every text update with
    an input that is not blank converts it to a text that has a character.
    After such a run the next event, unless it fires a timer, keeps the
    position inside the sequence when it is typing, an arrow, a character
    button, a voice control, the play button, the completion of a quiz or a
    request that settles; a script toggle and a text update keep it inside
    exactly when they fit, and put it outside when the converted text is too
    short. *)
Theorem App_position_in_bounds_without_timers {cc : OpenCC} {pe : ProcessEnv}
    (es : list event) :
  timer_free App.step es App.mounted = true ->
  fitting es App.mounted = true ->
  in_bounds (ui (App.run es App.mounted)) /\
  (forall e : event,
     fires_timer (App.run es App.mounted) e = false ->
     match e with
     | ClickSimplified _ | ClickUpdate =>
         in_bounds (ui (App.step e (App.run es App.mounted)))
         <-> fits (App.run es App.mounted) e = true
     | _ => in_bounds (ui (App.step e (App.run es App.mounted)))
     end).
Proof.
  intros F G.
  pose proof (App_run_steady es _ (proj1 mounted_steady) F G) as S.
  split; [exact (proj1 S)|]. intros e Ft.
  assert (A : fits (App.run es App.mounted) e = true ->
              in_bounds (ui (App.step e (App.run es App.mounted))))
    by (intros Fi; now apply App_step_steady).
  assert (B : in_bounds (ui (App.step e (App.run es App.mounted))) ->
              fits (App.run es App.mounted) e = true).
  { intros B. destruct (fits _ e) eqn:Fi; [reflexivity|].
    now apply App_step_unfit in B. }
  destruct e; try (apply A; reflexivity); split; assumption.
Qed.

Lemma App_position_in_bounds_without_timers_witness :
  let es := [Typing [20094; 20102; 32; 23383]%N; ClickUpdate; ClickNext;
             ClickSimplified true; QuizComplete; Settle 0 obliging;
             ClickPlay; ClickSimplified false; ClickPrev] in
  timer_free (App.step (cc := contracting_converters) (pe := with_key))
    es App.mounted = true /\
  fitting (cc := contracting_converters) (pe := with_key) es App.mounted
  = true /\
  activeText (ui (App.run (cc := contracting_converters) (pe := with_key)
                    es App.mounted)) = [24178; 32; 23383]%N /\
  in_bounds (ui (App.run (cc := contracting_converters) (pe := with_key)
                   es App.mounted)).
Proof.
  cbv zeta.
  match goal with |- ?A /\ ?B /\ _ =>
    assert (F : A) by (vm_compute; reflexivity);
    assert (G : B) by (vm_compute; reflexivity)
  end.
  split; [exact F|]. split; [exact G|]. split; [vm_compute; reflexivity|].
  destruct (@App_position_in_bounds_without_timers contracting_converters
              with_key _ F G) as [B _].
  exact B.
Defined.

(** With the contracting converters the toggle alone, at the last of three
    characters, leaves the position outside the two that remain. *)
Example toggle_can_leave_bounds :
  let s := App.run (cc := contracting_converters) (pe := with_key)
             [Typing [20094; 20102; 23383]%N; ClickUpdate; ClickNext; ClickNext]
             App.mounted in
  in_bounds (ui s) /\
  fits (cc := contracting_converters) s (ClickSimplified true) = false /\
  characters (ui (App.step (cc := contracting_converters) (pe := with_key)
                    (ClickSimplified true) s)) = [24178; 23383]%N /\
  currentIndex (ui (App.step (cc := contracting_converters) (pe := with_key)
                      (ClickSimplified true) s)) = 2.
Proof.
  cbv zeta. split; [|split; [|split]; vm_compute; reflexivity].
  unfold in_bounds. vm_compute. split; [discriminate | reflexivity].
Qed.

(** X14. In the earlier [App], which stores the text as typed, the
    position is inside the sequence after every run from mounting in which
    no timer fires. *)
Theorem BoardApp_position_in_bounds_without_timers (es : list event) :
  timer_free BoardApp.step es BoardApp.mounted = true ->
  in_bounds (ui (BoardApp.run es BoardApp.mounted)).
Proof.
  pose proof (proj2 mounted_steady) as S. revert S.
  generalize BoardApp.mounted as s.
  induction es as [|e es IH]; intros s S F; [exact (proj1 S)|].
  simpl in F. apply andb_true_iff in F as [Ft F].
  apply negb_true_iff in Ft.
  apply (IH (BoardApp.step e s)); [|exact F].
  now apply BoardApp_step_steady.
Qed.

Lemma BoardApp_position_in_bounds_without_timers_witness :
  timer_free BoardApp.step
    [ClickNext; Typing [22909; 32; 23383]%N; ClickUpdate; ClickChar 1;
     QuizComplete; ClickPrev; Settle 1 obliging; ClickPlay]
    BoardApp.mounted = true /\
  in_bounds (ui (BoardApp.run
    [ClickNext; Typing [22909; 32; 23383]%N; ClickUpdate; ClickChar 1;
     QuizComplete; ClickPrev; Settle 1 obliging; ClickPlay]
    BoardApp.mounted)).
Proof.
  split; [reflexivity|].
  apply BoardApp_position_in_bounds_without_timers. reflexivity.
Defined.

(** X15. A deferred advance is harmless when nothing has moved in the
    meantime: if the position and the active text are still those of the
    render that scheduled it, the timer keeps the position inside the
    sequence, moving it by one unless it is the last. *)
Theorem deferred_advance_in_time {cc : OpenCC} {pe : ProcessEnv}
    (s : Sys) (r : State) (i : nat) (env : forall q : query, answer q) :
  tasks s !! i = Some (advance_task r) ->
  currentIndex r = currentIndex (ui s) ->
  activeText r = activeText (ui s) ->
  in_bounds (ui s) ->
  in_bounds (ui (App.step (Settle i env) s)) /\
  currentIndex (ui (App.step (Settle i env) s))
  = (if currentIndex (ui s) <? Z.of_nat (length (characters (ui s))) - 1
     then currentIndex (ui s) + 1 else currentIndex (ui s)) /\
  activeText (ui (App.step (Settle i env) s)) = activeText (ui s).
Proof.
  intros E Hi Ha B. simpl. unfold resume. rewrite E. simpl.
  unfold App.handleNext, App.dispatch.
  rewrite (characters_ext r (ui s) Ha), Hi.
  unfold in_bounds in *.
  destruct (_ <? _) eqn:G; simpl;
    match goal with |- context [App.rerender ?b ?x] =>
      destruct (App_rerender_ui b x) as (Ha' & _ & Hi' & _) end;
    rewrite (characters_ext _ _ Ha'), Ha', Hi'; simpl;
    (split; [|split; reflexivity]).
  - apply Z.ltb_lt in G. unfold characters in *. simpl. lia.
  - exact B.
Qed.

Lemma deferred_advance_in_time_witness :
  let s := App.run (cc := sample_converters) (pe := with_key)
             [ClickChar 2; QuizComplete] App.mounted in
  tasks s !! 2%nat = Some (advance_task (ui s)) /\
  in_bounds (ui s) /\
  currentIndex (ui (App.step (cc := sample_converters) (pe := with_key)
                      (Settle 2 obliging) s)) = 3.
Proof.
  cbv zeta. split; [reflexivity|].
  assert (B : in_bounds (ui (App.run (cc := sample_converters) (pe := with_key)
                               [ClickChar 2; QuizComplete] App.mounted)))
    by (unfold in_bounds; vm_compute; split; [discriminate | reflexivity]).
  split; [exact B|].
  destruct (@deferred_advance_in_time sample_converters with_key
    (App.run (cc := sample_converters) (pe := with_key)
       [ClickChar 2; QuizComplete] App.mounted)
    (ui (App.run (cc := sample_converters) (pe := with_key)
           [ClickChar 2; QuizComplete] App.mounted))
    2%nat obliging eq_refl eq_refl eq_refl B) as (_ & E & _).
  rewrite E. reflexivity.
Defined.

(** ** The loading indicator *)

Lemma insights_in_flight_app (l1 l2 : list task) :
  insights_in_flight (l1 ++ l2)
  = (insights_in_flight l1 + insights_in_flight l2)%nat.
Proof.
  induction l1 as [|[q k] l1 IH]; simpl; [reflexivity|].
  destruct (insight_query q); simpl; now rewrite IH.
Qed.

Lemma insights_in_flight_delete (l : list task) (i : nat) (q : query) k :
  l !! i = Some (Suspended q k) ->
  insights_in_flight l =
  ((if insight_query q then 1 else 0) + insights_in_flight (delete i l))%nat.
Proof.
  revert i. induction l as [|[q' k'] l IH]; intros [|i] E; simpl in *;
    try discriminate.
  - injection E as -> _. destruct (insight_query q); reflexivity.
  - rewrite (IH i E). destruct (insight_query q), (insight_query q'); lia.
Qed.

Lemma exec_calm (p : prog) :
  calm p -> forall s : Sys,
  Forall task_tidy (tasks s) ->
  Forall task_tidy (tasks (exec p s)) /\
  insights_in_flight (tasks (exec p s)) = insights_in_flight (tasks s) /\
  isLoadingInsights (ui (exec p s)) = isLoadingInsights (ui s).
Proof.
  induction p as [|a k IH|q k IH]; intros C s T.
  - simpl. auto.
  - pose proof (fun C' =>
      IH C' {| ui := perform a (ui s); tasks := tasks s |} T) as IH'.
    destruct a; simpl in C; try contradiction;
      destruct (IH' C) as (T' & N & L); simpl in *; auto.
  - destruct C as [Q C]. simpl. split; [|split; [|reflexivity]].
    + apply Forall_app. split; [exact T|]. constructor; [|constructor].
      right. auto.
    + rewrite insights_in_flight_app. simpl. rewrite Q. lia.
Qed.

Lemma tidy_calm (p : prog) (s : Sys) : calm p -> tidy s -> tidy (exec p s).
Proof.
  intros C [T L]. destruct (exec_calm p C s T) as (T' & N & L').
  split; [exact T'|]. now rewrite N, L'.
Qed.

Lemma tidy_fetch {cc : OpenCC} {pe : ProcessEnv} (r : State) (c : jsstring) (s : Sys) :
  tidy s -> tidy (exec (App.fetchInsights r c) s).
Proof.
  intros [T L]. unfold App.fetchInsights.
  destruct (truthy c); simpl; [|split; assumption].
  split.
  - apply Forall_app. split; [exact T|]. constructor; [|constructor].
    left. exists c. reflexivity.
  - intros _. simpl. rewrite insights_in_flight_app. simpl. lia.
Qed.

Lemma App_play_calm {cc : OpenCC} {pe : ProcessEnv} (r : State) :
  calm (App.playPronunciation r).
Proof.
  unfold App.playPronunciation.
  destruct (_ || _); simpl; [exact I|].
  destruct (useCloudVoice r).
  - destruct (negb (truthy _)) eqn:K; [simpl; exact I|].
    unfold playCloudTTS. rewrite K. simpl. split; [reflexivity|].
    intros [ok|e]; simpl; [|exact I].
    destruct ok; simpl; (split; [reflexivity|]).
    + intros [content|e]; simpl; [|exact I]. split; [reflexivity|].
      intros [[]|e]; simpl; exact I.
    + intros [m|e]; simpl; exact I.
  - simpl. split; [reflexivity|]. intros [e| |]; simpl; exact I.
Qed.

Lemma App_handlers_calm {cc : OpenCC} {pe : ProcessEnv} (r : State) :
  calm (App.handleUpdateText r) /\ calm (App.handleNext r) /\
  calm (App.handlePrev r) /\ calm (App.onQuizComplete r) /\
  forall t, calm (App.handleToggleSimplified t).
Proof.
  unfold App.handleUpdateText, App.handlePrev, App.onQuizComplete,
    App.handleToggleSimplified.
  assert (N : calm (App.handleNext r))
    by (unfold App.handleNext; split_ifs; simpl; auto).
  split; [|split; [exact N|split; [|split; [|intros t]]]];
    split_ifs; simpl; auto.
Qed.

Lemma App_rerender_tidy {cc : OpenCC} {pe : ProcessEnv} (b : State) (s : Sys) :
  tidy s -> tidy (App.rerender b s).
Proof.
  intros T. unfold App.rerender. destruct (_ || _); [|exact T].
  now apply tidy_fetch.
Qed.

Lemma App_step_tidy {cc : OpenCC} {pe : ProcessEnv} (e : event) (s : Sys) :
  tidy s -> tidy (App.step e s).
Proof.
  intros T. destruct (App_handlers_calm (ui s)) as (Cu & Cn & Cp & Cq & Ct).
  destruct e; simpl; unfold App.dispatch;
    try (apply App_rerender_tidy, tidy_calm; simpl; auto; fail).
  - destruct (_ <? _)%nat; [|exact T].
    apply App_rerender_tidy, tidy_calm; simpl; auto.
  - apply App_rerender_tidy, tidy_calm; [apply App_play_calm | exact T].
  - unfold resume. destruct (tasks s !! i) as [t|] eqn:E; [|exact T].
    destruct T as [F L].
    pose proof (proj1 (Forall_lookup _ _) F _ _ E) as K.
    pose proof (Forall_delete _ _ i F) as F'.
    destruct K as [[c ->]|K].
    + simpl. apply App_rerender_tidy. split; [exact F'|]. discriminate.
    + destruct t as [q k]. destruct K as [Q K].
      apply App_rerender_tidy, tidy_calm; [apply K|].
      split; [exact F'|]. simpl. intros Lo.
      rewrite (insights_in_flight_delete _ _ _ _ E), Q in L. auto.
Qed.

Lemma tidy_has_fetch (ts : list task) :
  Forall task_tidy ts -> (1 <= insights_in_flight ts)%nat ->
  exists i c, ts !! i = Some (fetch_task c).
Proof.
  induction 1 as [|t ts K F IH]; simpl; [lia|].
  destruct K as [[c ->]|K].
  - intros _. exists 0%nat, c. reflexivity.
  - destruct t as [q k]. destruct K as [-> _]. intros N.
    destruct (IH N) as (i & c & E). exists (S i), c. exact E.
Qed.

(** X16. In every state the component can reach, a raised loading
    indicator means an insight fetch is in flight, so it cannot stay up
    with nothing left to lower it; every handler waiting for an insight is
    the tail of a [fetchInsights]; and when any of them resolves, the
    indicator goes down and its result is displayed, also while other
    fetches are still in flight. *)
Theorem loading_indicator_has_a_fetch {cc : OpenCC} {pe : ProcessEnv}
    (es : list event) :
  let s := App.run es App.mounted in
  (isLoadingInsights (ui s) = true ->
   exists i c, tasks s !! i = Some (fetch_task c)) /\
  (forall i q k, tasks s !! i = Some (Suspended q k) ->
     insight_query q = true -> exists c, Suspended q k = fetch_task c) /\
  (forall i c env, tasks s !! i = Some (fetch_task c) ->
     isLoadingInsights (ui (App.step (Settle i env) s)) = false /\
     insights (ui (App.step (Settle i env) s)) = env (GetCharacterInsights c)).
Proof.
  assert (T : tidy (App.run es App.mounted)).
  { assert (M : tidy App.mounted).
    { split; [|simpl; lia]. unfold App.mounted. simpl.
      constructor; [left; eexists; reflexivity | constructor]. }
    revert M. generalize App.mounted as s.
    induction es as [|e es IH]; intros s M; [exact M|].
    apply IH, App_step_tidy, M. }
  cbv zeta. destruct T as [F L]. split; [|split].
  - intros Lo. apply tidy_has_fetch; auto.
  - intros i q k E Q.
    destruct (proj1 (Forall_lookup _ _) F _ _ E) as [[c ->]|[Q' _]]; [eauto|].
    congruence.
  - intros i c env E. simpl. unfold resume. rewrite E. simpl.
    unfold App.dispatch, App.rerender. simpl.
    now rewrite same_string_refl, eqb_reflx.
Qed.

(** ** The cloud voice *)

(** X17. The promise of [playCloudTTS] settles exactly once, whatever the
    continuation: the caller is resumed once with an outcome that depends
    only on the platform's answers, after at most three queries and at most
    one log line; the log line is written only when the outcome is a
    rejection; and without a key there is no query at all, no log, and the
    rejection carries the missing-key message. *)
Theorem playCloudTTS_settles_once (text apiKey : jsstring) (simplified : bool)
    (env : oracle) (n : nat) :
  exists (o : outcome unit) (logs : list action) (m : nat),
    (forall k : outcome unit -> prog,
       actions_of env n (playCloudTTS text apiKey simplified k)
       = logs ++ actions_of env (n + m) (k o)) /\
    (logs = [] \/
     (logs = [ConsoleLog (js "Cloud TTS Error:")] /\ exists e, o = Rejected e)) /\
    (m <= 3)%nat /\
    (truthy apiKey = false ->
     m = 0%nat /\ logs = [] /\
     o = Rejected (Error (js "Error") (Some no_key_message))).
Proof.
  unfold playCloudTTS.
  set (q := Fetch _).
  destruct (truthy apiKey) eqn:K; cbn [negb].
  2:{ eexists _, [], 0%nat. split; [|auto with lia].
      intros k. now rewrite Nat.add_0_r. }
  assert (N1 : (n + 1 = S n)%nat) by lia.
  assert (N2 : (n + 2 = S (S n))%nat) by lia.
  assert (N3 : (n + 3 = S (S (S n)))%nat) by lia.
  destruct (env n q) as [ok|e] eqn:E1.
  2:{ eexists (Rejected e), [_], 1%nat. split; [|split; [|split]].
      - intros k. cbn [actions_of]. rewrite E1, N1. reflexivity.
      - right. eauto.
      - lia.
      - discriminate. }
  destruct ok.
  - destruct (env (S n) DataJson) as [audioContent|e] eqn:E2.
    2:{ eexists (Rejected e), [_], 2%nat. split; [|split; [|split]].
        - intros k. cbn [actions_of]. rewrite E1. cbn [negb actions_of].
          rewrite E2, N2. reflexivity.
        - right. eauto.
        - lia.
        - discriminate. }
    destruct (env (S (S n)) (AudioPlay audioContent)) as [[]|e] eqn:E3.
    + eexists (Resolved tt), [], 3%nat. split; [|split; [|split]].
      * intros k. cbn [actions_of]. rewrite E1. cbn [negb actions_of].
        rewrite E2. cbn [actions_of]. rewrite E3, N3. reflexivity.
      * auto.
      * lia.
      * discriminate.
    + eexists (Rejected e), [], 3%nat. split; [|split; [|split]].
      * intros k. cbn [actions_of]. rewrite E1. cbn [negb actions_of].
        rewrite E2. cbn [actions_of]. rewrite E3, N3. reflexivity.
      * auto.
      * lia.
      * discriminate.
  - destruct (env (S n) ErrorJson) as [m|e] eqn:E2.
    + eexists (Rejected _), [_], 2%nat. split; [|split; [|split]].
      * intros k. cbn [actions_of]. rewrite E1. cbn [negb actions_of].
        rewrite E2, N2. reflexivity.
      * right. eauto.
      * lia.
      * discriminate.
    + eexists (Rejected e), [_], 2%nat. split; [|split; [|split]].
      * intros k. cbn [actions_of]. rewrite E1. cbn [negb actions_of].
        rewrite E2, N2. reflexivity.
      * right. eauto.
      * lia.
      * discriminate.
Qed.

(** X18. With the cloud voice selected and no key configured, pressing
    play alerts the user and asks the platform nothing: the handler sets the
    flag, alerts and clears the flag in one go, and afterwards the flag is
    down and no new handler is in flight. *)
Theorem cloud_voice_without_key {cc : OpenCC} {pe : ProcessEnv}
    (s : Sys) (env : oracle) :
  has_key = false ->
  useCloudVoice (ui s) = true ->
  isSpeaking (ui s) = false ->
  truthy (currentChar (ui s)) = true ->
  actions_of env 0 (App.playPronunciation (ui s))
  = [SetIsSpeaking true; Alert; SetIsSpeaking false] /\
  isSpeaking (ui (App.step ClickPlay s)) = false /\
  tasks (App.step ClickPlay s) = tasks s.
Proof.
  intros K C F T.
  assert (E : App.playPronunciation (ui s)
              = Do (SetIsSpeaking true) (Do Alert (Do (SetIsSpeaking false) Done))).
  { unfold App.playPronunciation. rewrite F, T, C. simpl.
    unfold has_key in K. destruct API_KEY as [k|]; [rewrite K|]; reflexivity. }
  split; [now rewrite E|].
  simpl. rewrite E. unfold App.dispatch, App.rerender. simpl.
  match goal with |- context [same_string _ (currentChar ?r)] =>
    change (currentChar r) with (currentChar (ui s)) end.
  rewrite same_string_refl, eqb_reflx. simpl. auto.
Qed.

Lemma cloud_voice_without_key_witness :
  let s := App.run (cc := sample_converters) (pe := without_key)
             [ClickCloud] App.mounted in
  has_key (pe := without_key) = false /\
  useCloudVoice (ui s) = true /\
  tasks (App.step (cc := sample_converters) (pe := without_key) ClickPlay s)
  = tasks s.
Proof.
  cbv zeta. split; [reflexivity|]. split; [reflexivity|].
  exact (proj2 (proj2 (@cloud_voice_without_key sample_converters without_key
    (App.run (cc := sample_converters) (pe := without_key) [ClickCloud]
       App.mounted)
    (fun _ => obliging) eq_refl eq_refl eq_refl eq_refl))).
Defined.

(** ** The demonstration loop of the writing board *)

Lemma looping_app (w : nat) (l1 l2 : list (nat * Board.wait)) :
  Board.looping w (l1 ++ l2) = (Board.looping w l1 + Board.looping w l2)%nat.
Proof.
  induction l1 as [|[w' k] l1 IH]; simpl; [reflexivity|].
  destruct k; try exact IH; destruct (w' =? w)%nat; simpl; now rewrite IH.
Qed.

Lemma looping_delete (w : nat) (l : list (nat * Board.wait)) (i w' : nat) k :
  l !! i = Some (w', k) ->
  Board.looping w l =
  (Board.looping w [(w', k)] + Board.looping w (delete i l))%nat.
Proof.
  revert i. induction l as [|[w0 k0] l IH]; intros [|i] E; simpl in *;
    try discriminate.
  - injection E as -> ->. destruct k; try reflexivity;
      destruct (w' =? w)%nat; reflexivity.
  - rewrite (IH i E). simpl.
    destruct k, k0; try reflexivity;
      destruct (w' =? w)%nat, (w0 =? w)%nat; lia.
Qed.

Lemma replay_app (cur : option nat) (l1 l2 : list Board.call) :
  Board.replay cur (l1 ++ l2) =
  match Board.replay cur l1 with
  | Some c => Board.replay c l2
  | None => None
  end.
Proof.
  revert cur. induction l1 as [|c l1 IH]; intros cur; simpl; [reflexivity|].
  destruct c; try apply IH.
  destruct cur as [x|]; [|reflexivity].
  destruct (x =? w)%nat; [apply IH | reflexivity].
Qed.

(** What every reachable board satisfies. *)
Lemma board_invariant (es : list Board.event) :
  let b := Board.run es Board.empty in
  (forall w, (Board.looping w (Board.waiting b) <= 1)%nat) /\
  Forall (fun x => (x.1 < Board.created b)%nat) (Board.waiting b) /\
  Board.replay None (Board.calls b) = Some (Board.writerRef b) /\
  (forall c, Board.writerRef b = Some c -> (c < Board.created b)%nat).
Proof.
  cbv zeta.
  assert (Fresh : forall (l : list (nat * Board.wait)) n w,
            Forall (fun x => (x.1 < n)%nat) l -> (n <= w)%nat ->
            Board.looping w l = 0%nat).
  { intros l n w F L. induction F as [|[w' k] l Hx F IH]; [reflexivity|].
    simpl in *. destruct k; try exact IH;
      (destruct (w' =? w)%nat eqn:E; [apply Nat.eqb_eq in E; lia | exact IH]). }
  assert (Loop : forall w b,
    (forall v, Board.looping v (Board.waiting b) <= 1)%nat ->
    Board.looping w (Board.waiting b) = 0%nat ->
    Forall (fun x => (x.1 < Board.created b)%nat) (Board.waiting b) ->
    Board.replay None (Board.calls b) = Some (Board.writerRef b) ->
    (w < Board.created b)%nat ->
    (forall v, Board.looping v (Board.waiting (Board.loop w b)) <= 1)%nat /\
    Forall (fun x => (x.1 < Board.created (Board.loop w b))%nat)
      (Board.waiting (Board.loop w b)) /\
    Board.replay None (Board.calls (Board.loop w b))
    = Some (Board.writerRef (Board.loop w b)) /\
    Board.writerRef (Board.loop w b) = Board.writerRef b /\
    Board.created (Board.loop w b) = Board.created b).
  { intros w b A Z F R Lt. unfold Board.loop, Board.is_current.
    destruct (Board.writerRef b) as [c|] eqn:Wr;
      [|repeat split; auto; congruence].
    destruct (c =? w)%nat eqn:E; [|repeat split; auto; congruence].
    apply Nat.eqb_eq in E. subst c. simpl.
    split; [|split; [|split; [|split; reflexivity]]].
    - intros v. rewrite looping_app. simpl.
      destruct (w =? v)%nat eqn:E; [|specialize (A v); lia].
      apply Nat.eqb_eq in E. subst v. lia.
    - apply Forall_app. split; [exact F|].
      constructor; [exact Lt | constructor].
    - rewrite replay_app, R. simpl. now rewrite Nat.eqb_refl. }
  set (P := fun b : Board.Board =>
    (forall w, (Board.looping w (Board.waiting b) <= 1)%nat) /\
    Forall (fun x => (x.1 < Board.created b)%nat) (Board.waiting b) /\
    Board.replay None (Board.calls b) = Some (Board.writerRef b) /\
    (forall c, Board.writerRef b = Some c -> (c < Board.created b)%nat)).
  assert (Step : forall e b, P b -> P (Board.step e b)).
  { unfold P. intros e b (A & F & R & C).
    destruct e as [ready role cb|canHide|i]; simpl.
    - unfold Board.initWriter. destruct ready; simpl; [|repeat split; auto].
      assert (F' : Forall (fun x => (x.1 < S (Board.created b))%nat)
                     (Board.waiting b)).
      { eapply Forall_impl; [exact F|]. simpl. intros; lia. }
      assert (R' : Board.replay None (Board.calls b ++ [Board.Create (Board.created b)])
                   = Some (Some (Board.created b)))
        by now rewrite replay_app, R.
      destruct role.
      + destruct (Loop (Board.created b)
          {| Board.writerRef := Some (Board.created b);
             Board.created := S (Board.created b);
             Board.waiting := Board.waiting b;
             Board.calls := Board.calls b ++ [Board.Create (Board.created b)] |})
          as (A1 & F1 & R1 & W1 & C1); simpl; auto.
        { eapply Fresh; [exact F | lia]. }
        repeat split; auto. rewrite W1, C1. simpl. intros c [= <-]. lia.
      + repeat split; simpl.
        * intros w. rewrite looping_app. simpl. specialize (A w). lia.
        * apply Forall_app. split; [exact F'|].
          constructor; [simpl; lia | constructor].
        * rewrite replay_app, R'. reflexivity.
        * intros c [= <-]. lia.
    - unfold Board.cleanup. destruct (Board.writerRef b) as [w|] eqn:Wr;
        [|repeat split; auto; now rewrite Wr].
      simpl. repeat split; auto.
      + rewrite replay_app, R. now destruct canHide.
    - unfold Board.fire. destruct (Board.waiting b !! i) as [[w k]|] eqn:E;
        [|repeat split; auto].
      pose proof (Forall_delete _ _ i F) as Fd.
      assert (Ad : forall v, (Board.looping v (delete i (Board.waiting b)) <= 1)%nat).
      { intros v. pose proof (looping_delete v _ _ _ _ E). specialize (A v). lia. }
      assert (Lw : (w < Board.created b)%nat)
        by apply (proj1 (Forall_lookup _ _) F _ _ E).
      destruct k.
      + assert (Z : Board.looping w (delete i (Board.waiting b)) = 0%nat).
        { pose proof (looping_delete w _ _ _ _ E) as D. simpl in D.
          rewrite Nat.eqb_refl in D. specialize (A w). lia. }
        unfold Board.is_current. simpl.
        destruct (Board.writerRef b) as [c|] eqn:Wr;
          [|repeat split; auto; now rewrite Wr].
        destruct (c =? w)%nat eqn:Ec; simpl;
          [|repeat split; auto; rewrite Wr; auto; intros; now apply C].
        repeat split; auto.
        * intros v. rewrite looping_app. simpl.
          destruct (w =? v)%nat eqn:Ev; [|specialize (Ad v); lia].
          apply Nat.eqb_eq in Ev. subst v. lia.
        * apply Forall_app. split; [exact Fd|].
          constructor; [exact Lw | constructor].
      + assert (Z : Board.looping w (delete i (Board.waiting b)) = 0%nat).
        { pose proof (looping_delete w _ _ _ _ E) as D. simpl in D.
          rewrite Nat.eqb_refl in D. specialize (A w). lia. }
        destruct (Loop w
          {| Board.writerRef := Board.writerRef b;
             Board.created := Board.created b;
             Board.waiting := delete i (Board.waiting b);
             Board.calls := Board.calls b |})
          as (A1 & F1 & R1 & W1 & C1); simpl; auto.
        repeat split; auto. rewrite W1, C1. simpl. exact C.
      + destruct onComplete; simpl; repeat split; auto.
        now rewrite replay_app, R.
  }
  assert (Run : forall b, P b -> P (Board.run es b)).
  { induction es as [|e es IH]; intros b Pb; [exact Pb|].
    simpl. apply IH, Step, Pb. }
  destruct (Run Board.empty) as (A & F & R & C).
  { repeat split; simpl; auto. discriminate. }
  repeat split; auto.
Qed.

(** X19. The demonstration loop of the writing board, in every state the
    board can reach by initializations, clean-ups and callbacks of the
    widget: each writer has at most one animation or pause outstanding, so
    loops never multiply; every animation was started on the writer that was
    the newest at that moment; and a callback of a writer that has been
    replaced starts nothing and schedules nothing. *)
Theorem board_loops_follow_the_current_writer (es : list Board.event) :
  let b := Board.run es Board.empty in
  (forall w, (Board.looping w (Board.waiting b) <= 1)%nat) /\
  Board.replay None (Board.calls b) = Some (Board.writerRef b) /\
  (forall i w k,
     Board.waiting b !! i = Some (w, k) ->
     Board.is_current b w = false ->
     (forall cb, k <> Board.Quizzing cb) ->
     Board.fire i b =
     {| Board.writerRef := Board.writerRef b; Board.created := Board.created b;
        Board.waiting := delete i (Board.waiting b);
        Board.calls := Board.calls b |}).
Proof.
  cbv zeta. destruct (board_invariant es) as (A & _ & R & _).
  split; [exact A|]. split; [exact R|].
  intros i w k E N Q. unfold Board.fire. rewrite E.
  destruct k.
  - unfold Board.is_current in *. simpl. now rewrite N.
  - unfold Board.loop, Board.is_current in *. simpl. now rewrite N.
  - now destruct (Q onComplete).
Qed.

(** ** Decoding keeps the samples *)

Lemma decode_cell (data : list Byte.byte) (sampleRate numChannels : Z)
    (c i : nat) :
  0 < numChannels ->
  (c < Z.to_nat numChannels)%nat ->
  (i < Z.to_nat (Z.of_nat (length (Int16Array data)) / numChannels))%nat ->
  exists ch v,
    decodeAudioData data sampleRate numChannels !! c = Some ch /\
    Int16Array data !! (i * Z.to_nat numChannels + c)%nat = Some v /\
    ch !! i = Some (Val (v # 32768)).
Proof.
  intros Hn Hc Hi. unfold decodeAudioData.
  set (d := Int16Array data) in *.
  set (len := Z.of_nat (length d)) in *.
  assert (Hl : 0 <= len) by (subst len; lia).
  assert (Hq : 0 <= len / numChannels) by (apply Z.div_pos; lia).
  assert (Hk : len / numChannels <= (len + numChannels - 1) / numChannels)
    by (apply Z.div_le_mono; lia).
  assert (Hm : numChannels * (len / numChannels) <= len)
    by (apply Z.mul_div_le; lia).
  assert (Lj : (i * Z.to_nat numChannels + c < length d)%nat).
  { apply Nat2Z.inj_lt. fold len.
    rewrite Nat2Z.inj_add, Nat2Z.inj_mul, Z2Nat.id by lia.
    assert (Z.of_nat i + 1 <= len / numChannels) by lia.
    nia. }
  destruct (d !! (i * Z.to_nat numChannels + c)%nat) as [v|] eqn:Ev;
    [|apply lookup_ge_None in Ev; lia].
  eexists _, v. split; [|split; [reflexivity|]].
  - rewrite list_lookup_fmap, lookup_seq_lt by exact Hc. reflexivity.
  - simpl. rewrite fill_channel_lookup by (rewrite length_replicate; lia).
    destruct (decide _) as [_|N]; [|lia].
    unfold normalized. now rewrite Ev.
Qed.

(** Position [i * m + c] of a concatenation of blocks of length [m]. *)
Lemma flat_map_block {A} (f : nat -> list A) (m : nat) :
  (forall i, length (f i) = m) ->
  forall (n start i c : nat),
  (i < n)%nat -> (c < m)%nat ->
  flat_map f (seq start n) !! (i * m + c)%nat = f (start + i)%nat !! c.
Proof.
  intros L n. induction n as [|n IH]; intros start i c Hi Hc; [lia|].
  simpl. destruct i as [|i].
  - rewrite lookup_app_l by (rewrite L; lia).
    simpl. now rewrite Nat.add_0_r.
  - rewrite lookup_app_r by (rewrite L; simpl; lia).
    rewrite L. replace (S i * m + c - m)%nat with (i * m + c)%nat by (simpl; lia).
    rewrite IH by lia. f_equal. f_equal. lia.
Qed.

Lemma length_flat_map_block {A} (f : nat -> list A) (m : nat) :
  (forall i, length (f i) = m) ->
  forall n start, length (flat_map f (seq start n)) = (n * m)%nat.
Proof.
  intros L n. induction n as [|n IH]; intros start; simpl; [reflexivity|].
  now rewrite length_app, L, IH.
Qed.

(** X20. Decoding neither loses nor duplicates nor reorders a sample of a
    whole frame: read frame by frame, the cells of the channels are the
    samples of the buffer, in order, over 32768, up to the last whole
    frame. *)
Theorem decodeAudioData_interleave (data : list Byte.byte)
    (sampleRate numChannels : Z) :
  0 < numChannels ->
  let frames := Z.to_nat (Z.of_nat (length (Int16Array data)) / numChannels) in
  interleave (decodeAudioData data sampleRate numChannels) frames
  = map (fun v => Val (v # 32768))
      (take (frames * Z.to_nat numChannels) (Int16Array data)).
Proof.
  intros Hn frames. unfold interleave.
  set (out := decodeAudioData data sampleRate numChannels).
  set (nc := Z.to_nat numChannels).
  assert (Lo : length out = nc).
  { unfold out, decodeAudioData. now rewrite length_map, length_seq. }
  assert (Lb : forall i, length (map (fun ch => default NaN (ch !! i)) out) = nc)
    by (intros i; now rewrite length_map).
  assert (Ld : (frames * nc <= length (Int16Array data))%nat).
  { subst frames nc.
    assert (0 <= Z.of_nat (length (Int16Array data)) / numChannels)
      by (apply Z.div_pos; lia).
    assert (numChannels * (Z.of_nat (length (Int16Array data)) / numChannels)
            <= Z.of_nat (length (Int16Array data)))
      by (apply Z.mul_div_le; lia).
    nia. }
  apply list_eq. intros j.
  destruct (decide (j < frames * nc)%nat) as [Lj|Lj].
  - assert (Hnc : (0 < nc)%nat) by (subst nc; lia).
    pose proof (Nat.div_mod_eq j nc) as Dj.
    pose proof (Nat.mod_upper_bound j nc ltac:(lia)) as Mj.
    assert (Hi : (j / nc < frames)%nat) by (apply Nat.Div0.div_lt_upper_bound; lia).
    replace j with (j / nc * nc + j mod nc)%nat at 1 by lia.
    rewrite (flat_map_block _ nc Lb frames 0 (j / nc) (j mod nc) Hi Mj).
    simpl. rewrite list_lookup_fmap.
    destruct (decode_cell data sampleRate numChannels (j mod nc) (j / nc)
                Hn Mj Hi) as (ch & v & Eo & Ev & Ec).
    fold out in Eo. rewrite Eo. simpl. rewrite Ec. simpl.
    rewrite list_lookup_fmap, lookup_take_lt by lia.
    fold nc in Ev. replace (j / nc * nc + j mod nc)%nat with j in Ev by lia.
    now rewrite Ev.
  - rewrite !lookup_ge_None_2; [reflexivity | |].
    + rewrite length_map, length_take. lia.
    + rewrite (length_flat_map_block _ nc Lb). lia.
Qed.

Lemma decodeAudioData_interleave_witness :
  0 < 2 /\
  interleave (decodeAudioData
    [Byte.x01; Byte.x00; Byte.x02; Byte.x00; Byte.x03; Byte.x00;
     Byte.x04; Byte.x00; Byte.x05; Byte.x00] 8000 2) 2
  = [Val (1 # 32768); Val (2 # 32768); Val (3 # 32768); Val (4 # 32768)].
Proof.
  split; [lia|].
  exact (decodeAudioData_interleave
    [Byte.x01; Byte.x00; Byte.x02; Byte.x00; Byte.x03; Byte.x00;
     Byte.x04; Byte.x00; Byte.x05; Byte.x00] 8000 2 ltac:(lia)).
Defined.

(** ** When insights are fetched *)

(** X21. Selecting the character with index [idx] puts the position
    there, makes that character the active one, and starts one insight
    fetch for it exactly when it differs from the character that was
    active; selecting an equal character, at the same or at another
    position, starts none. *)
Theorem select_character_fetches_on_change {cc : OpenCC} {pe : ProcessEnv}
    (s : Sys) (idx : nat) (c : N) :
  characters (ui s) !! idx = Some c ->
  currentIndex (ui (App.step (ClickChar idx) s)) = Z.of_nat idx /\
  currentChar (ui (App.step (ClickChar idx) s)) = [c] /\
  tasks (App.step (ClickChar idx) s)
  = (if same_string (currentChar (ui s)) [c] then tasks s
     else tasks s ++ [fetch_task [c]]).
Proof.
  intros E. simpl.
  pose proof (lookup_lt_Some _ _ _ E) as L.
  apply Nat.ltb_lt in L. rewrite L.
  unfold App.dispatch, App.rerender. simpl.
  assert (Cc : forall st, activeText st = activeText (ui s) ->
                          currentIndex st = Z.of_nat idx ->
                          currentChar st = [c]).
  { intros st Ha Hi. unfold currentChar, at_index.
    rewrite (characters_ext st (ui s) Ha), Hi.
    destruct (Z.of_nat idx <? 0) eqn:G; [apply Z.ltb_lt in G; lia|].
    now rewrite Nat2Z.id, E. }
  match goal with |- context [same_string _ (currentChar ?r)] =>
    rewrite (Cc r eq_refl eq_refl) end.
  rewrite eqb_reflx, orb_false_r.
  destruct (same_string (currentChar (ui s)) [c]); simpl.
  - split; [reflexivity|]. split; [|reflexivity]. now apply Cc.
  - unfold App.fetchInsights. simpl.
    split; [reflexivity|]. split; [|reflexivity]. now apply Cc.
Qed.

Lemma select_character_fetches_on_change_witness :
  characters (ui App.mounted) !! 2%nat = Some 20061%N /\
  tasks (App.step (cc := sample_converters) (pe := with_key) (ClickChar 2)
           App.mounted)
  = [fetch_task [27704]%N; fetch_task [20061]%N].
Proof.
  split; [reflexivity|].
  exact (proj2 (proj2 (@select_character_fetches_on_change sample_converters
    with_key App.mounted 2%nat 20061%N eq_refl))).
Defined.

(** X22. The script toggle sets the variant, converts the active text and
    the input with the converter of the target variant, and leaves the
    position where it was; when the variant changes it starts an insight
    fetch for the active character, changed or not, unless there is none. *)
Theorem toggle_converts_and_refetches {cc : OpenCC} {pe : ProcessEnv}
    (s : Sys) (target : bool) :
  let converter := if target then tw2cn else cn2tw in
  let s' := App.step (ClickSimplified target) s in
  isSimplified (ui s') = target /\
  activeText (ui s') = converter (activeText (ui s)) /\
  inputText (ui s') = converter (inputText (ui s)) /\
  currentIndex (ui s') = currentIndex (ui s) /\
  (isSimplified (ui s) <> target ->
   tasks s' = tasks s ++ (if truthy (currentChar (ui s'))
                          then [fetch_task (currentChar (ui s'))] else [])).
Proof.
  cbv zeta. simpl. unfold App.handleToggleSimplified, App.dispatch. simpl.
  set (r := {| inputText := _ |}).
  assert (U : forall b,
    isSimplified (ui (App.rerender b {| ui := r; tasks := tasks s |})) = target /\
    activeText (ui (App.rerender b {| ui := r; tasks := tasks s |}))
      = activeText r /\
    inputText (ui (App.rerender b {| ui := r; tasks := tasks s |}))
      = inputText r /\
    currentIndex (ui (App.rerender b {| ui := r; tasks := tasks s |}))
      = currentIndex r /\
    currentChar (ui (App.rerender b {| ui := r; tasks := tasks s |}))
      = currentChar r).
  { intros b. unfold App.rerender, App.fetchInsights.
    destruct (_ || _); [|simpl; auto].
    destruct (negb (truthy (currentChar _))); simpl; auto. }
  destruct (U (ui s)) as (U1 & U2 & U3 & U4 & U5).
  split; [exact U1|]. split; [exact U2|]. split; [exact U3|].
  split; [exact U4|].
  intros N. rewrite U5. unfold App.rerender.
  assert (D : Bool.eqb (isSimplified (ui s)) target = false).
  { destruct (isSimplified (ui s)), target; simpl; congruence. }
  simpl. change (isSimplified r) with target. rewrite D, orb_true_r.
  unfold App.fetchInsights. simpl.
  destruct (truthy (currentChar r)); simpl; [reflexivity|].
  now rewrite app_nil_r.
Qed.

Lemma toggle_converts_and_refetches_witness :
  isSimplified (ui App.mounted) <> true /\
  tasks (App.step (cc := sample_converters) (pe := with_key)
           (ClickSimplified true) App.mounted)
  = [fetch_task [27704]%N; fetch_task [27704]%N].
Proof.
  split; [discriminate|].
  refine (proj2 (proj2 (proj2 (proj2 (@toggle_converts_and_refetches
    sample_converters with_key App.mounted true)))) _).
  discriminate.
Defined.

(** ** The arrows *)

Lemma BoardApp_arrows (s : Sys) :
  in_bounds (ui s) ->
  in_bounds (ui (BoardApp.step ClickNext s)) /\
  in_bounds (ui (BoardApp.step ClickPrev s)) /\
  (currentIndex (ui s) = Z.of_nat (length (characters (ui s))) - 1 ->
   BoardApp.step ClickNext s = s) /\
  (currentIndex (ui s) = 0 -> BoardApp.step ClickPrev s = s).
Proof.
  unfold in_bounds. intros B. simpl.
  unfold BoardApp.handleNext, BoardApp.handlePrev, BoardApp.dispatch.
  split; [|split; [|split]].
  - destruct (_ <? _) eqn:G; simpl;
      match goal with |- context [BoardApp.rerender ?b ?x] =>
        destruct (BoardApp_rerender_ui b x) as (Ha & _ & Hi & _) end;
      rewrite (characters_ext _ _ Ha), Hi; simpl; [|lia].
    apply Z.ltb_lt in G. unfold characters in *. simpl. lia.
  - destruct (_ <? _) eqn:G; simpl;
      match goal with |- context [BoardApp.rerender ?b ?x] =>
        destruct (BoardApp_rerender_ui b x) as (Ha & _ & Hi & _) end;
      rewrite (characters_ext _ _ Ha), Hi; simpl; [|lia].
    apply Z.ltb_lt in G. unfold characters in *. simpl. lia.
  - intros E. destruct (_ <? _) eqn:G; [apply Z.ltb_lt in G; lia|].
    apply BoardApp_dispatch_Done.
  - intros E. rewrite E. simpl. apply BoardApp_dispatch_Done.
Qed.

(** X23. Pressed on the render they belong to, the two arrows keep the
    position inside the sequence in both versions of [App]: the right arrow
    at the last character and the left arrow at the first one change
    nothing at all, no state and no fetch. *)
Theorem arrows_stop_at_the_ends {cc : OpenCC} {pe : ProcessEnv} (s : Sys) :
  in_bounds (ui s) ->
  (in_bounds (ui (App.step ClickNext s)) /\
   in_bounds (ui (App.step ClickPrev s)) /\
   (currentIndex (ui s) = Z.of_nat (length (characters (ui s))) - 1 ->
    App.step ClickNext s = s) /\
   (currentIndex (ui s) = 0 -> App.step ClickPrev s = s)) /\
  (in_bounds (ui (BoardApp.step ClickNext s)) /\
   in_bounds (ui (BoardApp.step ClickPrev s)) /\
   (currentIndex (ui s) = Z.of_nat (length (characters (ui s))) - 1 ->
    BoardApp.step ClickNext s = s) /\
   (currentIndex (ui s) = 0 -> BoardApp.step ClickPrev s = s)).
Proof.
  intros B. split.
  - now apply arrows_keep_position_in_bounds.
  - now apply BoardApp_arrows.
Qed.

Lemma arrows_stop_at_the_ends_witness :
  in_bounds (ui App.mounted) /\
  App.step (cc := sample_converters) (pe := with_key) ClickPrev App.mounted
  = App.mounted.
Proof.
  assert (B : in_bounds (ui App.mounted))
    by (unfold in_bounds; vm_compute; split; [discriminate | reflexivity]).
  split; [exact B|].
  destruct (@arrows_stop_at_the_ends sample_converters with_key App.mounted B)
    as [(_ & _ & _ & P) _].
  apply P. reflexivity.
Defined.
